(** * lib0 [decoding.js]: a shallow embedding of the Decoder and its readers

    The development follows [decoding.js] function by function.  A decoder
    is a byte array ([Uint8Array], itself a window on an [ArrayBuffer]) and a
    mutable cursor [pos]; every reader is a state transformer on the decoder
    that either returns a value or throws, and in both cases leaves a decoder
    behind (JavaScript does not roll the cursor back when an exception
    propagates). *)

From Stdlib Require Import ZArith List Lia Bool String.
From Stdlib Require Import Strings.Byte.
Import ListNotations.
Open Scope Z_scope.

(** ** JavaScript numbers, as far as the decoder uses them *)

(** The values the readers compute with: [undefined] (an index outside the
    typed array), [NaN] ([undefined + n]), negative zero ([-1 * 0]) and the
    integers.  Every integer the decoder produces is below [2^53] in absolute
    value, where double arithmetic is exact, so [JInt] carries a [Z]. *)
Inductive jsval : Type :=
| JUndefined
| JNaN
| JNegZero
| JInt (z : Z).

Definition two32 : Z := 4294967296.
Definition two31 : Z := 2147483648.

(** Two's complement wrap-around of an integer to the signed 32-bit range. *)
Definition wrap32 (z : Z) : Z := (z + two31) mod two32 - two31.

(** ECMAScript [ToInt32] and [ToUint32]: everything that is not a finite
    non-zero number becomes 0. *)
Definition ToInt32 (v : jsval) : Z :=
  match v with
  | JInt z => wrap32 z
  | _ => 0
  end.

Definition ToUint32 (v : jsval) : Z :=
  match v with
  | JInt z => z mod two32
  | _ => 0
  end.

(** [a & b], [a | b], [a << n] and [a >>> n] on operands that already went
    through [ToInt32] ([ToUint32] for the left operand of [>>>]); the shift
    count is taken modulo 32, as in JavaScript, and the result of the first
    three is a signed 32-bit integer again. *)
Definition bitand (a b : Z) : Z := wrap32 (Z.land a b).
Definition bitor (a b : Z) : Z := wrap32 (Z.lor a b).
Definition shl (a n : Z) : Z := wrap32 (Z.shiftl a (Z.land n 31)).
Definition ushr (a n : Z) : Z := Z.shiftr a (Z.land n 31).

(** [a + b] on numbers: [undefined] converts to [NaN], which is absorbing. *)
Definition js_add (a b : jsval) : jsval :=
  match a, b with
  | JUndefined, _ | _, JUndefined | JNaN, _ | _, JNaN => JNaN
  | JNegZero, JNegZero => JNegZero
  | JNegZero, JInt y => JInt y
  | JInt x, JNegZero => JInt x
  | JInt x, JInt y => JInt (x + y)
  end.

(** [a - b]. *)
Definition js_sub (a b : jsval) : jsval :=
  match a, b with
  | JUndefined, _ | _, JUndefined | JNaN, _ | _, JNaN => JNaN
  | JNegZero, JNegZero => JInt 0
  | JNegZero, JInt y => if y =? 0 then JNegZero else JInt (- y)
  | JInt x, JNegZero => JInt x
  | JInt x, JInt y => JInt (x - y)
  end.

(** [x * y] on integers: a zero product is JavaScript's negative zero when
    the other factor is negative ([-1 * 0]). *)
Definition js_mul (x y : Z) : jsval :=
  if ((x <? 0) && (y =? 0)) || ((x =? 0) && (y <? 0)) then JNegZero
  else JInt (x * y).

(** [v < n]: false as soon as [v] is [undefined] or [NaN]. *)
Definition js_lt (v : jsval) (n : Z) : bool :=
  match v with
  | JInt z => z <? n
  | JNegZero => 0 <? n
  | _ => false
  end.

(** [a === b] on numbers: [NaN] equals nothing, the two zeros are equal. *)
Definition js_strict_eq (a b : jsval) : bool :=
  match a, b with
  | JUndefined, JUndefined => true
  | JNegZero, JNegZero => true
  | JNegZero, JInt z | JInt z, JNegZero => z =? 0
  | JInt x, JInt y => x =? y
  | _, _ => false
  end.

(** ** [binary.js] *)

Module binary.

(** Modelled from the spec: the bit constants of [binary.js], a module of the
    repository that is imported by [decoding.js] but is not among the
    sources.  The spec gives the payload mask of the first signed byte as
    [0x3F], the sign bit as [0x40], the continuation bit as [0x80] and the
    payload of every other byte as its low 7 bits. *)
Definition BITS6 : Z := 63.
Definition BIT7 : Z := 64.
Definition BIT8 : Z := 128.
Definition BITS7 : Z := 127.

End binary.

(** ** Typed arrays *)

(** A [Uint8Array]: [length] bytes of the [ArrayBuffer] [buffer], starting at
    [byteOffset].  The buffer may be larger than the array. *)
Record Uint8Array : Type := mkUint8Array {
  buffer : list byte;
  byteOffset : Z;
  length : Z
}.

(** What the platform guarantees of every typed array. *)
Definition wf_array (a : Uint8Array) : Prop :=
  0 <= byteOffset a /\ 0 <= length a /\
  byteOffset a + length a <= Z.of_nat (List.length (buffer a)).

(** [new Uint8Array(bytes)]: an array that owns its whole buffer. *)
Definition Uint8Array_from (bytes : list byte) : Uint8Array :=
  mkUint8Array bytes 0 (Z.of_nat (List.length bytes)).

Definition byte_val (b : byte) : Z := Z.of_N (Byte.to_N b).

(** [a[i]]: the byte when [i] is an index of the array, [undefined]
    otherwise (also for a negative [i]). *)
Definition arr_get (a : Uint8Array) (i : Z) : jsval :=
  if (0 <=? i) && (i <? length a) then
    match nth_error (buffer a) (Z.to_nat (byteOffset a + i)) with
    | Some b => JInt (byte_val b)
    | None => JUndefined
    end
  else JUndefined.

(** The bytes an array or view covers. *)
Definition array_bytes (a : Uint8Array) : list byte :=
  firstn (Z.to_nat (length a)) (skipn (Z.to_nat (byteOffset a)) (buffer a)).

(** ** [buffer.js] *)

Module Buffer.

(** Modelled from the spec: [buffer.createUint8ArrayViewFromArrayBuffer], a
    function of [buffer.js], which is not among the sources; [decoding.js]
    calls it with the array's [ArrayBuffer], an offset into that buffer and
    a length.  The spec has byte blobs returned as a zero-copy view into the
    source buffer, and reading past the end of the buffer as the fatal
    [BufferUnderrun] condition: the view covers [len] bytes of [buf] from
    [offset], and there is no view when these do not lie inside [buf].  This
    is also what the platform's [new Uint8Array(buf, offset, len)] does,
    which throws a [RangeError] in that case. *)
Definition createUint8ArrayViewFromArrayBuffer
    (buf : list byte) (offset len : Z) : option Uint8Array :=
  if (0 <=? offset) && (0 <=? len) &&
     (offset + len <=? Z.of_nat (List.length buf))
  then Some (mkUint8Array buf offset len)
  else None.

End Buffer.

(** ** The decoder and the effects of its readers *)

(** [class Decoder]: [arr] never changes, [pos] is the cursor.  [pos] is an
    integer: the constructor sets 0, readers add integers, and [clone]
    documents its parameter as a position. *)
Record Decoder : Type := mkDecoder {
  arr : Uint8Array;
  pos : Z
}.

(** The exceptions a reader can end with, under the names the specification
    gives them; the last one has no name there. *)
Inductive exn : Type :=
| IntegerOutOfRange  (* throw new Error('Integer out of range!') *)
| BufferUnderrun     (* RangeError: a view that does not fit its buffer *)
| UnknownTag         (* TypeError: the lookup table entry is not a function *)
| InvalidUtf8        (* whatever string.decodeUtf8 throws *)
| AssignmentRefused. (* TypeError: an assignment the prototype chain refuses *)

(** The result of running a reader: a value or an exception, each with the
    decoder as the reader left it.  [OutOfFuel] belongs to the models of the
    loops only; the theorems below show that no reader produces it. *)
Inductive outcome (A : Type) : Type :=
| Ret (a : A) (d : Decoder)
| Throw (e : exn) (d : Decoder)
| OutOfFuel.

Arguments Ret {A} a d.
Arguments Throw {A} e d.
Arguments OutOfFuel {A}.

Definition M (A : Type) : Type := Decoder -> outcome A.

Definition ret {A} (a : A) : M A := fun d => Ret a d.

Definition throw {A} (e : exn) : M A := fun d => Throw e d.

Definition bind {A B} (m : M A) (k : A -> M B) : M B :=
  fun d =>
    match m d with
    | Ret a d' => k a d'
    | Throw e d' => Throw e d'
    | OutOfFuel => OutOfFuel
    end.

Declare Scope js_scope.
Delimit Scope js_scope with js.
Notation "x <- m ;; k" := (bind m (fun x => k))
  (at level 61, m at next level, right associativity) : js_scope.
Notation "m ;;; k" := (bind m (fun _ => k))
  (at level 61, right associativity) : js_scope.
Open Scope js_scope.

(** [decoder.pos], [decoder.arr] and the assignment [decoder.pos = p]. *)
Definition get_pos : M Z := fun d => Ret (pos d) d.
Definition get_arr : M Uint8Array := fun d => Ret (arr d) d.
Definition set_pos (p : Z) : M unit := fun d => Ret tt (mkDecoder (arr d) p).

(** [decoder.pos++]: the old position is the value of the expression. *)
Definition pos_incr : M Z :=
  p <- get_pos ;; set_pos (p + 1) ;;; ret p.

(** The decoder [d] with its cursor moved [n] bytes on. *)
Definition advance (d : Decoder) (n : Z) : Decoder :=
  mkDecoder (arr d) (pos d + n).

(** The decoder a reader left behind, whether it returned or threw. *)
Definition final {A} (fallback : Decoder) (r : outcome A) : Decoder :=
  match r with
  | Ret _ d => d
  | Throw _ d => d
  | OutOfFuel => fallback
  end.

Module decoding.

(** [createDecoder] *)
Definition createDecoder (uint8Array : Uint8Array) : Decoder :=
  mkDecoder uint8Array 0.

(** [hasContent] *)
Definition hasContent (decoder : Decoder) : bool :=
  negb (pos decoder =? length (arr decoder)).

(** [clone]: a new decoder on the same array; [newPos] defaults to the
    position of [decoder]. *)
Definition clone (decoder : Decoder) (newPos : option Z) : Decoder :=
  let _decoder := createDecoder (arr decoder) in
  mkDecoder (arr _decoder)
            (match newPos with Some p => p | None => pos decoder end).

(** [skip8] *)
Definition skip8 : M jsval :=
  p <- pos_incr ;; ret (JInt p).

(** [readUint8] *)
Definition readUint8 : M jsval :=
  a <- get_arr ;; p <- pos_incr ;; ret (arr_get a p).

(** [readUint16] *)
Definition readUint16 : M jsval :=
  a <- get_arr ;; p <- get_pos ;;
  let uint :=
    js_add (arr_get a p)
           (JInt (shl (ToInt32 (arr_get a (p + 1))) 8)) in
  set_pos (p + 2) ;;;
  ret uint.

(** [readUint32] *)
Definition readUint32 : M jsval :=
  a <- get_arr ;; p <- get_pos ;;
  let sum :=
    js_add (js_add (js_add (arr_get a p)
                           (JInt (shl (ToInt32 (arr_get a (p + 1))) 8)))
                   (JInt (shl (ToInt32 (arr_get a (p + 2))) 16)))
           (JInt (shl (ToInt32 (arr_get a (p + 3))) 24)) in
  let uint := JInt (ushr (ToUint32 sum) 0) in
  set_pos (p + 4) ;;;
  ret uint.

(** [peekUint8], [peekUint16], [peekUint32] *)
Definition peekUint8 : M jsval :=
  a <- get_arr ;; p <- get_pos ;; ret (arr_get a p).

Definition peekUint16 : M jsval :=
  a <- get_arr ;; p <- get_pos ;;
  ret (js_add (arr_get a p)
              (JInt (shl (ToInt32 (arr_get a (p + 1))) 8))).

Definition peekUint32 : M jsval :=
  a <- get_arr ;; p <- get_pos ;;
  let sum :=
    js_add (js_add (js_add (arr_get a p)
                           (JInt (shl (ToInt32 (arr_get a (p + 1))) 8)))
                   (JInt (shl (ToInt32 (arr_get a (p + 2))) 16)))
           (JInt (shl (ToInt32 (arr_get a (p + 3))) 24)) in
  ret (JInt (ushr (ToUint32 sum) 0)).

(** [readVarUint]: the body of [while (true)], run at most [fuel] times.
    [num] and [len] are the local variables of the same names. *)
Fixpoint readVarUint_loop (fuel : nat) (num len : Z) : M Z :=
  match fuel with
  | O => fun _ => OutOfFuel
  | S fuel' =>
      a <- get_arr ;; p <- pos_incr ;;
      let r := arr_get a p in
      let num := bitor num (shl (bitand (ToInt32 r) binary.BITS7) len) in
      let len := len + 7 in
      if js_lt r binary.BIT8 then
        ret (ushr (ToUint32 (JInt num)) 0)
      else if len >? 35 then
        throw IntegerOutOfRange
      else readVarUint_loop fuel' num len
  end.

(** Six rounds are all the loop can make: the sixth leaves [len] at 42 and
    either returns or throws ([readVarUint_consumes]). *)
Definition readVarUint : M Z := readVarUint_loop 6 0 0.

(** [readVarInt]: the loop after the first byte.  From [len = 6] it makes
    at most six rounds, the sixth leaving [len] at 48
    ([readVarInt_consumes]). *)
Fixpoint readVarInt_loop (fuel : nat) (sign num len : Z) : M jsval :=
  match fuel with
  | O => fun _ => OutOfFuel
  | S fuel' =>
      a <- get_arr ;; p <- pos_incr ;;
      let r := arr_get a p in
      let num := bitor num (shl (bitand (ToInt32 r) binary.BITS7) len) in
      let len := len + 7 in
      if js_lt r binary.BIT8 then
        ret (js_mul sign num)
      else if len >? 41 then
        throw IntegerOutOfRange
      else readVarInt_loop fuel' sign num len
  end.

Definition readVarInt : M jsval :=
  a <- get_arr ;; p <- pos_incr ;;
  let r := arr_get a p in
  let num := bitand (ToInt32 r) binary.BITS6 in
  let len := 6 in
  let sign := if bitand (ToInt32 r) binary.BIT7 >? 0 then -1 else 1 in
  if bitand (ToInt32 r) binary.BIT8 =? 0 then
    ret (js_mul sign num)
  else readVarInt_loop 6 sign num len.

(** [peekVarUint], [peekVarInt]: the position is written back after the
    read has returned; there is no [try]/[finally]. *)
Definition peekVarUint : M Z :=
  pos <- get_pos ;;
  s <- readVarUint ;;
  set_pos pos ;;;
  ret s.

Definition peekVarInt : M jsval :=
  pos <- get_pos ;;
  s <- readVarInt ;;
  set_pos pos ;;;
  ret s.

(** [readUint8Array]: the view is made first, the cursor moves after it. *)
Definition readUint8Array (len : Z) : M Uint8Array :=
  a <- get_arr ;; p <- get_pos ;;
  match Buffer.createUint8ArrayViewFromArrayBuffer
          (buffer a) (p + byteOffset a) len with
  | None => throw BufferUnderrun
  | Some view => set_pos (p + len) ;;; ret view
  end.

(** [readVarUint8Array] *)
Definition readVarUint8Array : M Uint8Array :=
  len <- readVarUint ;; readUint8Array len.

(** [readTailAsUint8Array] *)
Definition readTailAsUint8Array : M Uint8Array :=
  a <- get_arr ;; p <- get_pos ;; readUint8Array (length a - p).

(** [readFromDataView]: [new DataView(buffer, offset, len)] throws a
    [RangeError] under the same condition as a typed array view; the
    [DataView] is represented by the bytes it covers. *)
Definition readFromDataView (len : Z) : M Uint8Array :=
  a <- get_arr ;; p <- get_pos ;;
  if (0 <=? byteOffset a + p) && (0 <=? len) &&
     (byteOffset a + p + len <=? Z.of_nat (List.length (buffer a)))
  then set_pos (p + len) ;;;
       ret (mkUint8Array (buffer a) (byteOffset a + p) len)
  else throw BufferUnderrun.

(** The unsigned big-endian number spelled by a list of bytes, which is how
    [DataView.getFloat32(0)] and its siblings read their bytes (the
    [littleEndian] argument is left out in the source). *)
Definition be_uint (bytes : list byte) : Z :=
  fold_left (fun acc b => acc * 256 + byte_val b) bytes 0.

(** The signed reading of a 64-bit pattern. *)
Definition to_int64 (z : Z) : Z :=
  if z <? 9223372036854775808 then z else z - 18446744073709551616.

(** [readFloat32], [readFloat64]: the result is the IEEE-754 number with the
    bit pattern returned here; floating point itself is not modelled. *)
Definition readFloat32 : M Z :=
  dv <- readFromDataView 4 ;; ret (be_uint (array_bytes dv)).

Definition readFloat64 : M Z :=
  dv <- readFromDataView 8 ;; ret (be_uint (array_bytes dv)).

(** [readBigInt64], [readBigUint64] *)
Definition readBigInt64 : M Z :=
  dv <- readFromDataView 8 ;; ret (to_int64 (be_uint (array_bytes dv))).

Definition readBigUint64 : M Z :=
  dv <- readFromDataView 8 ;; ret (be_uint (array_bytes dv)).

(** The values [readAny] builds.  An object is its prototype and the list
    of its own properties in the order in which JavaScript enumerates them.
    The prototype [None] is [Object.prototype], the prototype of every
    object literal; [Some p] is a prototype that an assignment to
    [__proto__] has put in its place, [Some ANull] being no prototype at
    all. *)
#[warnings="-register-all"] Inductive any : Type :=
| AUndefined
| ANull
| ANumber (n : jsval)
| AFloat32 (bits : Z)
| AFloat64 (bits : Z)
| ABigInt (z : Z)
| ABoolean (b : bool)
| AString (s : string)
| AObject (proto : option any) (props : list (string * any))
| AArray (items : list any)
| AUint8Array (view : Uint8Array).

(** An object under construction, and the object literal [{}]. *)
Definition jsobject : Type := (option any * list (string * any))%type.

Definition empty_object : jsobject := (None, []).

Definition object_value (obj : jsobject) : any :=
  AObject (fst obj) (snd obj).

(** The values that can become a prototype: objects, arrays and typed
    arrays, and [null]. *)
Definition is_object (v : any) : bool :=
  match v with
  | AObject _ _ | AArray _ | AUint8Array _ => true
  | _ => false
  end.

Definition is_null (v : any) : bool :=
  match v with
  | ANull => true
  | _ => false
  end.

(** Array indices among the property keys: the canonical decimal numerals
    of the integers from 0 to 2^32 - 2, written without a sign and without
    a leading zero. *)
Definition digit (c : Ascii.ascii) : option N :=
  let n := Ascii.N_of_ascii c in
  if ((48 <=? n) && (n <=? 57))%N then Some (n - 48)%N else None.

Fixpoint decimal (s : string) (acc : N) : option N :=
  match s with
  | EmptyString => Some acc
  | String c rest =>
      match digit c with
      | Some k => decimal rest (acc * 10 + k)%N
      | None => None
      end
  end.

Definition array_index (key : string) : option N :=
  match key with
  | EmptyString => None
  | String c rest =>
      if (Ascii.N_of_ascii c =? 48)%N && negb (String.eqb rest EmptyString)
      then None
      else match decimal key 0 with
           | Some n => if (n <=? 4294967294)%N then Some n else None
           | None => None
           end
  end.

(** Own properties.  [has_own] is [hasOwnProperty]; [set_own] gives an
    existing property its new value and leaves it in its place; [add_own]
    defines a new property: an array index goes among the array indices,
    which come first and in ascending order, any other key goes to the
    end. *)
Definition has_own (props : list (string * any)) (key : string) : bool :=
  existsb (fun p => String.eqb (fst p) key) props.

Fixpoint set_own (props : list (string * any)) (key : string) (v : any)
  : list (string * any) :=
  match props with
  | [] => []
  | (k, w) :: rest =>
      if String.eqb k key then (k, v) :: rest
      else (k, w) :: set_own rest key v
  end.

Fixpoint insert_index (props : list (string * any)) (key : string) (m : N)
    (v : any) : list (string * any) :=
  match props with
  | [] => [(key, v)]
  | (k, w) :: rest =>
      match array_index k with
      | Some m' =>
          if (m' <? m)%N then (k, w) :: insert_index rest key m v
          else (key, v) :: props
      | None => (key, v) :: props
      end
  end.

Definition add_own (props : list (string * any)) (key : string) (v : any)
  : list (string * any) :=
  match array_index key with
  | Some m => insert_index props key m v
  | None => props ++ [(key, v)]
  end.

(** [obj[key]] for the own properties: the value of the property [key]. *)
Fixpoint get_own (props : list (string * any)) (key : string) : option any :=
  match props with
  | [] => None
  | (k, w) :: rest => if String.eqb k key then Some w else get_own rest key
  end.

(** What an assignment [obj[key] = v] comes to when [obj] has no own
    property [key] and the prototype of [obj] is asked: a new own property
    of [obj] (the prototype has no such property, or a writable one), a new
    prototype of [obj] (the setter of [__proto__]), nothing at all, or a
    refusal (a property that is read-only or has a getter and no setter, as
    [length] of a typed array), which the strict mode of a module turns
    into a [TypeError]. *)
Inductive set_effect : Type :=
| DefinesOwn
| SetsPrototype (p : any)
| NoEffect
| Refused.

(** [table[idx]] for an array [table]: [undefined] unless [idx] is one of
    its indices. *)
Definition table_get {A} (table : list A) (idx : jsval) : option A :=
  match idx with
  | JInt z => if 0 <=? z then nth_error table (Z.to_nat z) else None
  | JNegZero => nth_error table 0%nat
  | _ => None
  end.

(** [for (let i = 0; i < len; i++) { body }] from a given [i], where the
    body updates the local state [s]; at most [fuel] rounds. *)
Fixpoint for_loop {S : Type} (fuel : nat) (i len : Z) (body : S -> M S)
    (s : S) : M S :=
  if i <? len then
    match fuel with
    | O => fun _ => OutOfFuel
    | Datatypes.S fuel' =>
        s' <- body s ;; for_loop fuel' (i + 1) len body s'
    end
  else ret s.

Section WithString.

(** [string.decodeUtf8] from [string.js], which is not among the sources: it
    is a parameter of everything that reads strings.  [None] stands for the
    call throwing. *)
Variable decodeUtf8 : list byte -> option string.

(** What the platform does with an assignment that reaches a prototype the
    decoded data have installed (an object, an array or a typed array that
    was assigned to [__proto__]): it depends on the properties of that
    value and of the built-in prototypes behind it, and is a parameter of
    [readAny].  The arguments are the prototype, the key and the value. *)
Variable inherited_set : any -> string -> any -> set_effect.

(** [obj[key] = v] on an object that began as [{}] and has only had such
    assignments, so that its own properties are writable data properties.
    An own property takes the new value.  Otherwise the prototype decides.
    [Object.prototype], as the platform provides it, has one property that
    is not a writable data property, the accessor [__proto__]: its setter
    makes an object or [null] the new prototype and ignores every other
    value, and no own property comes of it.  Any other key becomes a new
    own property, as every key does when there is no prototype.  [None]
    stands for the assignment throwing. *)
Definition obj_set (obj : jsobject) (key : string) (v : any)
  : option jsobject :=
  let (proto, props) := obj in
  if has_own props key then Some (proto, set_own props key v)
  else
    match proto with
    | None =>
        if String.eqb key "__proto__" then
          if is_object v || is_null v then Some (Some v, props)
          else Some obj
        else Some (proto, add_own props key v)
    | Some ANull => Some (proto, add_own props key v)
    | Some p =>
        match inherited_set p key v with
        | DefinesOwn => Some (proto, add_own props key v)
        | SetsPrototype q => Some (Some q, props)
        | NoEffect => Some obj
        | Refused => None
        end
    end.

Definition obj_put (obj : jsobject) (key : string) (v : any) : M jsobject :=
  match obj_set obj key v with
  | Some obj' => ret obj'
  | None => throw AssignmentRefused
  end.

(** [readVarString] *)
Definition readVarString : M string :=
  view <- readVarUint8Array ;;
  match decodeUtf8 (array_bytes view) with
  | Some s => ret s
  | None => throw InvalidUtf8
  end.

(** [peekVarString] *)
Definition peekVarString : M string :=
  pos <- get_pos ;;
  s <- readVarString ;;
  set_pos pos ;;;
  ret s.

(** The two loops of [readAnyLookupTable], over the reader [readAny] they
    call. *)
Definition readObject_body (readAny : M any) (obj : jsobject)
  : M jsobject :=
  key <- readVarString ;;
  v <- readAny ;;
  obj_put obj key v.

Definition readArray_body (readAny : M any) (arr : list any)
  : M (list any) :=
  v <- readAny ;;
  ret (arr ++ [v]).

(** [readAnyLookupTable].  The entries for objects and arrays call [readAny]
    back, which is a parameter here and the recursive call in
    [readAny_fuel]. *)
Definition readAnyLookupTable (fuel : nat) (readAny : M any)
  : list (M any) :=
  [ ret AUndefined                                   (* CASE 127 *)
  ; ret ANull                                        (* CASE 126 *)
  ; (n <- readVarInt ;; ret (ANumber n))             (* CASE 125 *)
  ; (f <- readFloat32 ;; ret (AFloat32 f))           (* CASE 124 *)
  ; (f <- readFloat64 ;; ret (AFloat64 f))           (* CASE 123 *)
  ; (z <- readBigInt64 ;; ret (ABigInt z))           (* CASE 122 *)
  ; ret (ABoolean false)                             (* CASE 121 *)
  ; ret (ABoolean true)                              (* CASE 120 *)
  ; (s <- readVarString ;; ret (AString s))          (* CASE 119 *)
  ; (len <- readVarUint ;;                           (* CASE 118 *)
     obj <- for_loop fuel 0 len (readObject_body readAny) empty_object ;;
     ret (object_value obj))
  ; (len <- readVarUint ;;                           (* CASE 117 *)
     arr <- for_loop fuel 0 len (readArray_body readAny) [] ;;
     ret (AArray arr))
  ; (view <- readVarUint8Array ;; ret (AUint8Array view)) (* CASE 116 *)
  ].

(** The body of [readAny]: calling an entry that is [undefined] is a
    [TypeError]. *)
Definition readAny_body (fuel : nat) (readAny : M any) : M any :=
  tag <- readUint8 ;;
  match table_get (readAnyLookupTable fuel readAny)
                  (js_sub (JInt 127) tag) with
  | Some f => f
  | None => throw UnknownTag
  end.

Fixpoint readAny_fuel (fuel : nat) : M any :=
  match fuel with
  | O => fun _ => OutOfFuel
  | S fuel' => readAny_body fuel' (readAny_fuel fuel')
  end.

(** The bytes between the cursor and the end of the array. *)
Definition remaining (d : Decoder) : nat :=
  Z.to_nat (length (arr d) - pos d).

(** [readAny]: every nested call and every round of a loop reads at least
    the tag byte of a value, so one unit of fuel per remaining byte and one
    more is enough ([readAny_fuel_enough], [readAny_fuel_stable]). *)
Definition readAny : M any :=
  fun d => readAny_fuel (S (remaining d)) d.

(** The loops of cases 118 and 117 as [readAny] runs them. *)
Definition readObject_loop (i len : Z) (obj : jsobject) : M jsobject :=
  fun d => for_loop (S (remaining d)) i len (readObject_body readAny) obj d.

Definition readArray_loop (i len : Z) (arr : list any) : M (list any) :=
  fun d => for_loop (S (remaining d)) i len (readArray_body readAny) arr d.

(** The (key, value) pairs of an object on the wire, in the words of the
    specification: [len] times a string key followed by a value, in
    order. *)
Definition readPair_body (readAny : M any) (pairs : list (string * any))
  : M (list (string * any)) :=
  key <- readVarString ;;
  v <- readAny ;;
  ret (pairs ++ [(key, v)]).

Definition readPairs_loop (i len : Z) (pairs : list (string * any))
  : M (list (string * any)) :=
  fun d => for_loop (S (remaining d)) i len (readPair_body readAny) pairs d.

(** The assignments [obj[key] = v] for a list of pairs, first to last. *)
Fixpoint assign_all (obj : jsobject) (pairs : list (string * any))
  : option jsobject :=
  match pairs with
  | [] => Some obj
  | (key, v) :: rest =>
      match obj_set obj key v with
      | Some obj' => assign_all obj' rest
      | None => None
      end
  end.

End WithString.

End decoding.

Import decoding.

(** ** Sequences of decoder operations *)

(** One call of an exported function of [decoding.js] on a decoder. *)
Inductive op : Type :=
| OpClone (newPos : option Z)
| OpReadUint8Array (len : Z)
| OpReadVarUint8Array
| OpReadTailAsUint8Array
| OpSkip8
| OpReadUint8
| OpReadUint16
| OpReadUint32
| OpPeekUint8
| OpPeekUint16
| OpPeekUint32
| OpReadVarUint
| OpReadVarInt
| OpPeekVarUint
| OpPeekVarInt
| OpReadVarString
| OpPeekVarString
| OpReadFromDataView (len : Z)
| OpReadFloat32
| OpReadFloat64
| OpReadBigInt64
| OpReadBigUint64
| OpReadAny.

(** The decoder after a call: the one the reader left behind, whether it
    returned or threw, and for [clone] the new decoder. *)
Definition exec_op (decodeUtf8 : list byte -> option string)
    (inherited_set : any -> string -> any -> set_effect)
    (d : Decoder) (o : op) : Decoder :=
  match o with
  | OpClone newPos => clone d newPos
  | OpReadUint8Array len => final d (readUint8Array len d)
  | OpReadVarUint8Array => final d (readVarUint8Array d)
  | OpReadTailAsUint8Array => final d (readTailAsUint8Array d)
  | OpSkip8 => final d (skip8 d)
  | OpReadUint8 => final d (readUint8 d)
  | OpReadUint16 => final d (readUint16 d)
  | OpReadUint32 => final d (readUint32 d)
  | OpPeekUint8 => final d (peekUint8 d)
  | OpPeekUint16 => final d (peekUint16 d)
  | OpPeekUint32 => final d (peekUint32 d)
  | OpReadVarUint => final d (readVarUint d)
  | OpReadVarInt => final d (readVarInt d)
  | OpPeekVarUint => final d (peekVarUint d)
  | OpPeekVarInt => final d (peekVarInt d)
  | OpReadVarString => final d (readVarString decodeUtf8 d)
  | OpPeekVarString => final d (peekVarString decodeUtf8 d)
  | OpReadFromDataView len => final d (readFromDataView len d)
  | OpReadFloat32 => final d (readFloat32 d)
  | OpReadFloat64 => final d (readFloat64 d)
  | OpReadBigInt64 => final d (readBigInt64 d)
  | OpReadBigUint64 => final d (readBigUint64 d)
  | OpReadAny => final d (readAny decodeUtf8 inherited_set d)
  end.

Definition exec_ops (decodeUtf8 : list byte -> option string)
    (inherited_set : any -> string -> any -> set_effect)
    (ops : list op) (d : Decoder) : Decoder :=
  fold_left (exec_op decodeUtf8 inherited_set) ops d.

(** An operation that does not ask for a negative position: every operation
    but a [clone] with an explicit negative [newPos]. *)
Definition op_nonneg (o : op) : Prop :=
  match o with
  | OpClone (Some p) => 0 <= p
  | _ => True
  end.

(** ** The wire format in the words of the specification *)

(** The bytes [bs] are what the array holds from index [p] on. *)
Fixpoint bytes_at (a : Uint8Array) (p : Z) (bs : list Z) : Prop :=
  match bs with
  | [] => True
  | b :: rest => arr_get a p = JInt b /\ bytes_at a (p + 1) rest
  end.

(** A variable-length integer on the wire: one or more bytes, the
    continuation bit [0x80] set in every byte but the last. *)
Fixpoint varint_shape (bs : list Z) : bool :=
  match bs with
  | [] => false
  | [b] => negb (Z.testbit b 7)
  | b :: rest => Z.testbit b 7 && varint_shape rest
  end.

(** Base 128, little-endian: the low 7 bits of each byte, the first byte
    least significant. *)
Fixpoint varuint_value (bs : list Z) : Z :=
  match bs with
  | [] => 0
  | b :: rest => Z.land b 127 + 128 * varuint_value rest
  end.

(** The signed form: the first byte gives 6 payload bits, the bytes after it
    7 bits each from bit offset 6 on. *)
Definition varint_magnitude (bs : list Z) : Z :=
  match bs with
  | [] => 0
  | b :: rest => Z.land b 63 + 64 * varuint_value rest
  end.

Definition varint_sign (bs : list Z) : Z :=
  match bs with
  | [] => 1
  | b :: _ => if Z.testbit b 6 then -1 else 1
  end.

(** The first [n] values a reader gets when it reads byte after byte from
    the cursor: bytes inside the array, [undefined] outside. *)
Definition upcoming (d : Decoder) (n : nat) : list jsval :=
  map (fun i => arr_get (arr d) (pos d + Z.of_nat i)) (seq 0 n).

(** A byte with its continuation bit set. *)
Definition continued (r : jsval) : bool :=
  match r with
  | JInt b => Z.testbit b 7
  | _ => false
  end.

(** A shorthand for the examples: a decoder on a fresh array of the given
    bytes. *)
Definition decoder_of (bytes : list byte) : Decoder :=
  createDecoder (Uint8Array_from bytes).

(** A [decodeUtf8] for the examples, which give it bytes of the ASCII range
    only: there every UTF-8 decoder returns the characters of those bytes.
    It is not a decoder for other input, which it rejects, and no example
    rests on that. *)
Definition decodeAscii (bytes : list byte) : option string :=
  if forallb (fun b => byte_val b <? 128) bytes
  then Some (string_of_list_byte bytes)
  else None.

(** An [inherited_set] for the examples.  It refuses every assignment,
    which is what the platform does in the one example that calls it: the
    key [length] under a typed array as prototype. *)
Definition inherited_refused (p : any) (key : string) (v : any)
  : set_effect := Refused.

(** Keys whose assignment to an object literal defines a property at the
    end of the enumeration: neither [__proto__] nor an array index. *)
Definition ordinary_key (key : string) : bool :=
  negb (String.eqb key "__proto__")
  && match array_index key with Some _ => false | None => true end.

(** ** Vocabulary of the theorems *)

(** [num | ((r & BITS7) << len)], the update both variable-length loops make
    to [num]. *)
Definition accumulate (num : Z) (r : jsval) (len : Z) : Z :=
  bitor num (shl (bitand (ToInt32 r) binary.BITS7) len).

(** The reader came to an end, returning or throwing, on the same array and
    with the cursor between [lo] and [hi] bytes further on. *)
Definition consumes {A} (lo hi : Z) (d : Decoder) (r : outcome A) : Prop :=
  match r with
  | Ret _ d' | Throw _ d' =>
      arr d' = arr d /\ pos d + lo <= pos d' <= pos d + hi
  | OutOfFuel => False
  end.

(** The reader left the array alone and did not move the cursor back. *)
Definition forward {A} (d : Decoder) (r : outcome A) : Prop :=
  match r with
  | Ret _ d' | Throw _ d' => arr d' = arr d /\ pos d <= pos d'
  | OutOfFuel => True
  end.

Definition Forward {A} (m : M A) : Prop := forall d, forward d (m d).

(** [m2] agrees with [m1] wherever [m1] had fuel enough to finish. *)
Definition Refines {A} (m1 m2 : M A) : Prop :=
  forall d, m1 d <> OutOfFuel -> m2 d = m1 d.

(** A reader that never runs out of fuel. *)
Definition Total {A} (m : M A) : Prop := forall d, m d <> OutOfFuel.

(** ** Signed and unsigned 32-bit arithmetic *)

Lemma wrap32_small z : - two31 <= z < two31 -> wrap32 z = z.
Proof.
  unfold wrap32, two31, two32. intros H.
  rewrite Z.mod_small by lia. lia.
Qed.

Lemma wrap32_mod z : wrap32 z mod two32 = z mod two32.
Proof.
  unfold wrap32, two31, two32.
  rewrite Zminus_mod, Zmod_mod, <- Zminus_mod.
  f_equal. lia.
Qed.

Lemma two32_ones : two32 = 2 ^ 32.
Proof. reflexivity. Qed.

Lemma lor_mod32 a b :
  Z.lor a b mod two32 = Z.lor (a mod two32) (b mod two32).
Proof.
  rewrite two32_ones, <- !Z.land_ones by lia.
  apply Z.land_lor_distr_l.
Qed.

Lemma land_shifted_disjoint a b k :
  0 <= k -> 0 <= a < 2 ^ k -> Z.land a (b * 2 ^ k) = 0.
Proof.
  intros Hk Ha. apply Z.bits_inj'. intros n Hn.
  rewrite Z.land_spec, Z.bits_0.
  destruct (Z.lt_ge_cases n k) as [Hlt | Hge].
  - rewrite Z.mul_pow2_bits_low by lia. apply andb_false_r.
  - replace a with (a mod 2 ^ k) by (apply Z.mod_small; lia).
    rewrite Z.mod_pow2_bits_high by lia. reflexivity.
Qed.

Lemma lor_shifted_add a b k :
  0 <= k -> 0 <= a < 2 ^ k -> Z.lor a (b * 2 ^ k) = a + b * 2 ^ k.
Proof.
  intros Hk Ha.
  pose proof (land_shifted_disjoint a b k Hk Ha) as H0.
  rewrite (Z.add_nocarry_lxor _ _ H0). symmetry. apply Z.lxor_lor, H0.
Qed.

Lemma land_31_small n : 0 <= n < 32 -> Z.land n 31 = n.
Proof.
  intros H. change 31 with (Z.ones 5).
  rewrite Z.land_ones by lia. apply Z.mod_small. change (2 ^ 5) with 32. lia.
Qed.

Lemma land_low_bits b k : 0 <= k -> 0 <= Z.land b (Z.ones k) < 2 ^ k.
Proof.
  intros Hk. rewrite Z.land_ones by lia. apply Z.mod_pos_bound. lia.
Qed.

Lemma land_127_range b : 0 <= Z.land b 127 < 128.
Proof. apply (land_low_bits b 7). lia. Qed.

Lemma land_63_range b : 0 <= Z.land b 63 < 64.
Proof. apply (land_low_bits b 6). lia. Qed.

(** ** Bytes *)

Lemma byte_val_range b : 0 <= byte_val b < 256.
Proof.
  unfold byte_val. pose proof (Byte.to_N_bounded b). lia.
Qed.

Lemma arr_get_byte a i z : arr_get a i = JInt z -> 0 <= z < 256.
Proof.
  unfold arr_get. destruct ((0 <=? i) && (i <? length a)); [|discriminate].
  destruct (nth_error _ _); [|discriminate].
  intros H. injection H as <-. apply byte_val_range.
Qed.

Lemma arr_get_outside a i : length a <= i -> arr_get a i = JUndefined.
Proof.
  intros H. unfold arr_get.
  replace (i <? length a) with false by (symmetry; apply Z.ltb_ge; lia).
  now rewrite andb_false_r.
Qed.

Lemma arr_get_inside a i z : arr_get a i = JInt z -> 0 <= i < length a.
Proof.
  unfold arr_get.
  destruct (0 <=? i) eqn:H1; destruct (i <? length a) eqn:H2;
    simpl; try discriminate.
  intros _. apply Z.leb_le in H1. apply Z.ltb_lt in H2. lia.
Qed.

Lemma byte_bit7 z : 0 <= z < 256 -> Z.testbit z 7 = (128 <=? z).
Proof.
  intros H. rewrite Z.testbit_eqb by lia. change (2 ^ 7) with 128.
  destruct (128 <=? z) eqn:E.
  - apply Z.leb_le in E. apply Z.eqb_eq.
    assert (E1 : z / 128 = 1).
    { symmetry. apply Z.div_unique with (r := z - 128); lia. }
    rewrite E1. reflexivity.
  - apply Z.leb_gt in E. rewrite Z.div_small by lia. reflexivity.
Qed.

Lemma byte_land_bit z k :
  0 <= k -> Z.land z (2 ^ k) = if Z.testbit z k then 2 ^ k else 0.
Proof.
  intros Hk. apply Z.bits_inj'. intros n Hn.
  rewrite Z.land_spec.
  destruct (Z.eq_dec n k) as [-> | Hne].
  - rewrite Z.pow2_bits_true by lia. rewrite andb_true_r.
    destruct (Z.testbit z k) eqn:E.
    + now rewrite Z.pow2_bits_true by lia.
    + now rewrite Z.bits_0.
  - rewrite Z.pow2_bits_false by lia. rewrite andb_false_r.
    destruct (Z.testbit z k).
    + now rewrite Z.pow2_bits_false by lia.
    + now rewrite Z.bits_0.
Qed.

Lemma ToInt32_byte z : 0 <= z < 256 -> ToInt32 (JInt z) = z.
Proof. intros H. apply wrap32_small. unfold two31. lia. Qed.

Lemma shl_const a n :
  0 <= n < 32 -> shl a n = wrap32 (a * 2 ^ n).
Proof.
  intros H. unfold shl. rewrite land_31_small by lia.
  now rewrite Z.shiftl_mul_pow2 by lia.
Qed.

Lemma ushr_0 a : ushr a 0 = a.
Proof. unfold ushr. simpl. apply Z.shiftr_0_r. Qed.

(** ** Running the fixed-width readers *)

Ltac run :=
  unfold bind, ret, throw, get_arr, get_pos, set_pos, pos_incr, advance;
  simpl.

(** C8.  [readUint32] reads the four bytes at the cursor, moves the cursor
    4 bytes on and returns them assembled little-endian as an unsigned
    number: [b0 + b1*2^8 + b2*2^16 + b3*2^24], which lies in
    [0, 2^32 - 1], also when [b3 << 24] is negative as a signed 32-bit
    integer (the high bit of the last byte set): [>>> 0] undoes that. *)
Theorem readUint32_little_endian d b0 b1 b2 b3 :
  bytes_at (arr d) (pos d) [b0; b1; b2; b3] ->
  readUint32 d =
    Ret (JInt (b0 + b1 * 2 ^ 8 + b2 * 2 ^ 16 + b3 * 2 ^ 24)) (advance d 4)
  /\ 0 <= b0 + b1 * 2 ^ 8 + b2 * 2 ^ 16 + b3 * 2 ^ 24 <= 2 ^ 32 - 1.
Proof.
  intros (H0 & H1 & H2 & H3 & _).
  replace (pos d + 1 + 1 + 1) with (pos d + 3) in H3 by lia.
  replace (pos d + 1 + 1) with (pos d + 2) in H2 by lia.
  pose proof (arr_get_byte _ _ _ H0) as R0.
  pose proof (arr_get_byte _ _ _ H1) as R1.
  pose proof (arr_get_byte _ _ _ H2) as R2.
  pose proof (arr_get_byte _ _ _ H3) as R3.
  change (2 ^ 8) with 256. change (2 ^ 16) with 65536.
  change (2 ^ 24) with 16777216. change (2 ^ 32) with 4294967296.
  split; [|lia].
  unfold readUint32. run. rewrite H0, H1, H2, H3.
  rewrite !ToInt32_byte by assumption.
  rewrite !shl_const by lia.
  change (2 ^ 8) with 256. change (2 ^ 16) with 65536.
  change (2 ^ 24) with 16777216.
  rewrite (wrap32_small (b1 * 256)) by (unfold two31; lia).
  rewrite (wrap32_small (b2 * 65536)) by (unfold two31; lia).
  simpl js_add. unfold ToUint32. rewrite ushr_0.
  do 2 f_equal.
  rewrite Zplus_mod, wrap32_mod, <- Zplus_mod.
  apply Z.mod_small. unfold two32. lia.
Qed.

Lemma readUint32_little_endian_witness :
  bytes_at (Uint8Array_from [x78; x56; x34; xff]) 0 [120; 86; 52; 255]
  /\ readUint32 (decoder_of [x78; x56; x34; xff]) =
       Ret (JInt 4281620088) (advance (decoder_of [x78; x56; x34; xff]) 4)
  /\ 0 <= 4281620088 <= 2 ^ 32 - 1.
Proof.
  assert (H : bytes_at (Uint8Array_from [x78; x56; x34; xff]) 0
                       [120; 86; 52; 255]).
  { simpl. repeat split; reflexivity. }
  split; [exact H|].
  exact (readUint32_little_endian
           (decoder_of [x78; x56; x34; xff]) 120 86 52 255 H).
Defined.

(** C10.  The fixed-width readers check no bound.  With the cursor at or
    past the end of the array none of [readUint8], [readUint16],
    [readUint32] and [skip8] throws: each returns, the cursor 1, 2, 4 and 1
    bytes further on, and the value is what JavaScript makes of absent
    bytes: [undefined], [NaN] ([undefined + 0]), [0] ([NaN >>> 0]) and,
    for [skip8], the old position. *)
Theorem fixed_width_readers_unchecked d :
  length (arr d) <= pos d ->
  readUint8 d = Ret JUndefined (advance d 1)
  /\ readUint16 d = Ret JNaN (advance d 2)
  /\ readUint32 d = Ret (JInt 0) (advance d 4)
  /\ skip8 d = Ret (JInt (pos d)) (advance d 1).
Proof.
  intros H.
  unfold readUint8, readUint16, readUint32, skip8. run.
  rewrite !arr_get_outside by lia.
  repeat split; reflexivity.
Qed.

Lemma fixed_width_readers_unchecked_witness :
  length (arr (advance (decoder_of [x01]) 1))
    <= pos (advance (decoder_of [x01]) 1)
  /\ readUint8 (advance (decoder_of [x01]) 1) =
       Ret JUndefined (advance (decoder_of [x01]) 2)
  /\ readUint16 (advance (decoder_of [x01]) 1) =
       Ret JNaN (advance (decoder_of [x01]) 3)
  /\ readUint32 (advance (decoder_of [x01]) 1) =
       Ret (JInt 0) (advance (decoder_of [x01]) 5)
  /\ skip8 (advance (decoder_of [x01]) 1) =
       Ret (JInt 1) (advance (decoder_of [x01]) 2).
Proof.
  assert (H : length (arr (advance (decoder_of [x01]) 1))
              <= pos (advance (decoder_of [x01]) 1)) by (simpl; lia).
  split; [exact H|].
  exact (fixed_width_readers_unchecked (advance (decoder_of [x01]) 1) H).
Defined.

Lemma gtb_false a b : a <= b -> (a >? b) = false.
Proof. intros H. rewrite Z.gtb_ltb. apply Z.ltb_ge. lia. Qed.

Lemma gtb_true a b : b < a -> (a >? b) = true.
Proof. intros H. rewrite Z.gtb_ltb. apply Z.ltb_lt. lia. Qed.

(** ** One round of the variable-length loops *)

Lemma land_byte_range z m : 0 <= z < 256 -> 0 <= Z.land z m < 256.
Proof.
  intros Hz.
  assert (E : Z.land z m = Z.land z m mod 2 ^ 8).
  { rewrite <- Z.land_ones by lia.
    rewrite <- Z.land_assoc, (Z.land_comm m), Z.land_assoc.
    rewrite Z.land_ones by lia.
    rewrite (Z.mod_small z) by (change (2 ^ 8) with 256; lia). reflexivity. }
  rewrite E. change 256 with (2 ^ 8). apply Z.mod_pos_bound. lia.
Qed.

Lemma bitand_byte z m :
  0 <= z < 256 -> bitand (ToInt32 (JInt z)) m = Z.land z m.
Proof.
  intros Hz. rewrite ToInt32_byte by assumption.
  unfold bitand. apply wrap32_small.
  pose proof (land_byte_range z m Hz). unfold two31. lia.
Qed.

Lemma accumulate_mod num b len :
  0 <= b < 256 -> 0 <= len < 32 -> 0 <= num < 2 ^ len ->
  accumulate num (JInt b) len mod two32 =
  (num + Z.land b 127 * 2 ^ len) mod two32.
Proof.
  intros Hb Hlen Hnum. unfold accumulate, binary.BITS7.
  rewrite bitand_byte by lia. rewrite shl_const by lia.
  unfold bitor. rewrite wrap32_mod, lor_mod32, wrap32_mod, <- lor_mod32.
  now rewrite lor_shifted_add by lia.
Qed.

Lemma accumulate_exact num b len :
  0 <= b < 256 -> 0 <= len -> 0 <= num < 2 ^ len ->
  num + Z.land b 127 * 2 ^ len < two31 ->
  accumulate num (JInt b) len = num + Z.land b 127 * 2 ^ len.
Proof.
  intros Hb Hlen Hnum Hsum. unfold accumulate, binary.BITS7.
  rewrite bitand_byte by lia.
  pose proof (land_127_range b) as Hp.
  assert (0 < 2 ^ len) by (apply Z.pow_pos_nonneg; lia).
  destruct (Z.eq_dec (Z.land b 127) 0) as [E | E].
  - rewrite E. unfold shl. rewrite Z.shiftl_0_l.
    rewrite (wrap32_small 0) by (unfold two31; lia).
    unfold bitor. rewrite Z.lor_0_r.
    rewrite wrap32_small; unfold two31 in *; lia.
  - assert (len < 31).
    { destruct (Z.lt_ge_cases len 31) as [|Hge]; [assumption|exfalso].
      assert (2 ^ 31 <= 2 ^ len) by (apply Z.pow_le_mono_r; lia).
      change (2 ^ 31) with two31 in *. nia. }
    rewrite shl_const by lia.
    rewrite (wrap32_small (Z.land b 127 * 2 ^ len)) by (unfold two31 in *; nia).
    unfold bitor. rewrite lor_shifted_add by lia.
    apply wrap32_small. unfold two31 in *. nia.
Qed.

Lemma advance_advance d n m : advance (advance d n) m = advance d (n + m).
Proof. unfold advance. simpl. f_equal. lia. Qed.

Lemma advance_0 d : advance d 0 = d.
Proof. destruct d. unfold advance. simpl. f_equal. lia. Qed.

Lemma readVarUint_loop_step fuel num len d :
  readVarUint_loop (S fuel) num len d =
  let r := arr_get (arr d) (pos d) in
  if js_lt r binary.BIT8 then
    Ret (ushr (ToUint32 (JInt (accumulate num r len))) 0) (advance d 1)
  else if len + 7 >? 35 then Throw IntegerOutOfRange (advance d 1)
  else readVarUint_loop fuel (accumulate num r len) (len + 7) (advance d 1).
Proof.
  cbn [readVarUint_loop]. run.
  destruct (js_lt _ _); [reflexivity|].
  destruct (len + 7 >? 35); reflexivity.
Qed.

Lemma readVarInt_loop_step fuel sign num len d :
  readVarInt_loop (S fuel) sign num len d =
  let r := arr_get (arr d) (pos d) in
  if js_lt r binary.BIT8 then
    Ret (js_mul sign (accumulate num r len)) (advance d 1)
  else if len + 7 >? 41 then Throw IntegerOutOfRange (advance d 1)
  else readVarInt_loop fuel sign (accumulate num r len) (len + 7)
         (advance d 1).
Proof.
  cbn [readVarInt_loop]. run.
  destruct (js_lt _ _); [reflexivity|].
  destruct (len + 7 >? 41); reflexivity.
Qed.

Lemma js_lt_byte b : 0 <= b < 256 ->
  js_lt (JInt b) binary.BIT8 = negb (Z.testbit b 7).
Proof.
  intros H. rewrite byte_bit7 by assumption. unfold js_lt, binary.BIT8.
  destruct (128 <=? b) eqn:E.
  - apply Z.leb_le in E. simpl. apply Z.ltb_ge. lia.
  - apply Z.leb_gt in E. simpl. apply Z.ltb_lt. lia.
Qed.

(** ** [readVarUint] on a well-formed sequence *)

Lemma readVarUint_loop_decodes bs :
  forall fuel num len d,
    bytes_at (arr d) (pos d) bs ->
    varint_shape bs = true ->
    0 <= len -> 0 <= num < 2 ^ len ->
    len + 7 * Z.of_nat (List.length bs) <= 35 ->
    (List.length bs <= fuel)%nat ->
    readVarUint_loop fuel num len d =
    Ret ((num + varuint_value bs * 2 ^ len) mod two32)
        (advance d (Z.of_nat (List.length bs))).
Proof.
  induction bs as [|b rest IH];
    intros fuel num len d Hb Hs Hlen Hnum Hfit Hfuel.
  - discriminate.
  - destruct fuel as [|fuel]; [simpl in Hfuel; lia|].
    destruct Hb as [Hr Hrest].
    pose proof (arr_get_byte _ _ _ Hr) as Hbyte.
    pose proof (land_127_range b) as Hp.
    assert (0 < 2 ^ len) by (apply Z.pow_pos_nonneg; lia).
    rewrite readVarUint_loop_step. cbv zeta. rewrite Hr.
    rewrite js_lt_byte by assumption.
    destruct rest as [|b' rest'].
    + cbn [varint_shape] in Hs. rewrite Hs.
      unfold ToUint32. rewrite ushr_0.
      change (List.length [b]) with 1%nat in *.
      rewrite accumulate_mod by lia.
      simpl varuint_value. do 2 f_equal. lia.
    + assert (Hs' : Z.testbit b 7 = true /\ varint_shape (b' :: rest') = true).
      { cbn [varint_shape] in Hs. apply andb_true_iff in Hs. exact Hs. }
      destruct Hs' as [Hc Hs']. rewrite Hc. simpl negb. cbv iota.
      assert (Hl : Z.of_nat (List.length (b :: b' :: rest')) =
                   1 + Z.of_nat (List.length (b' :: rest'))).
      { change (List.length (b :: b' :: rest'))
          with (S (List.length (b' :: rest'))). lia. }
      assert (Hl2 : 1 <= Z.of_nat (List.length (b' :: rest'))).
      { simpl List.length. lia. }
      rewrite gtb_false by lia.
      assert (Hpow : 2 ^ (len + 7) = 2 ^ len * 128).
      { rewrite Z.pow_add_r by lia. reflexivity. }
      assert (Hlen28 : 2 ^ len <= 2 ^ 21) by (apply Z.pow_le_mono_r; lia).
      change (2 ^ 21) with 2097152 in Hlen28.
      rewrite accumulate_exact by (unfold two31; nia || lia).
      rewrite (IH fuel); try assumption; try lia.
      * rewrite advance_advance, Hl. f_equal. f_equal.
        change (varuint_value (b :: b' :: rest'))
          with (Z.land b 127 + 128 * varuint_value (b' :: rest')).
        rewrite Hpow. lia.
      * rewrite Hpow. nia.
Qed.

(** C1.  On a byte sequence of the wire format (at most 5 bytes, each but
    the last with the continuation bit [0x80]) [readVarUint] stops at the
    first byte whose continuation bit is clear, leaves the cursor behind that
    byte, and returns the base-128 little-endian value of the low 7 bits of
    the bytes, taken modulo [2^32]. *)
Theorem readVarUint_decodes d bs :
  bytes_at (arr d) (pos d) bs ->
  varint_shape bs = true ->
  (List.length bs <= 5)%nat ->
  readVarUint d =
  Ret (varuint_value bs mod 2 ^ 32) (advance d (Z.of_nat (List.length bs))).
Proof.
  intros Hb Hs Hn. unfold readVarUint.
  rewrite (readVarUint_loop_decodes bs); try assumption; try lia.
  rewrite Z.add_0_l, Z.pow_0_r, Z.mul_1_r. reflexivity.
Qed.

Lemma readVarUint_decodes_witness :
  bytes_at (Uint8Array_from [xff; xff; xff; xff; x7f]) 0
           [255; 255; 255; 255; 127]
  /\ varint_shape [255; 255; 255; 255; 127] = true
  /\ (List.length [255; 255; 255; 255; 127] <= 5)%nat
  /\ readVarUint (decoder_of [xff; xff; xff; xff; x7f]) =
       Ret 4294967295 (advance (decoder_of [xff; xff; xff; xff; x7f]) 5).
Proof.
  assert (H : bytes_at (Uint8Array_from [xff; xff; xff; xff; x7f]) 0
                       [255; 255; 255; 255; 127]).
  { simpl. repeat split; reflexivity. }
  assert (L : (List.length [255; 255; 255; 255; 127] <= 5)%nat)
    by (simpl; lia).
  split; [exact H|]. split; [reflexivity|]. split; [exact L|].
  exact (readVarUint_decodes (decoder_of [xff; xff; xff; xff; x7f])
           [255; 255; 255; 255; 127] H eq_refl L).
Defined.

(** A sixth byte is accepted after five continued ones, and JavaScript
    takes its shift count modulo 32: the payload lands at bit 3, where
    [2^35] truncated to 32 bits would have left nothing. *)
Example readVarUint_sixth_byte :
  readVarUint (decoder_of [x80; x80; x80; x80; x80; x01]) =
    Ret 8 (advance (decoder_of [x80; x80; x80; x80; x80; x01]) 6)
  /\ varuint_value [128; 128; 128; 128; 128; 1] mod 2 ^ 32 = 0.
Proof. split; reflexivity. Qed.

Lemma varuint_value_nonneg bs : 0 <= varuint_value bs.
Proof.
  induction bs as [|b rest IH]; cbn [varuint_value]; [lia|].
  pose proof (land_127_range b). lia.
Qed.

Lemma readVarInt_loop_decodes bs :
  forall fuel sign num len d,
    bytes_at (arr d) (pos d) bs ->
    varint_shape bs = true ->
    0 <= len -> 0 <= num < 2 ^ len ->
    num + varuint_value bs * 2 ^ len < two31 ->
    len + 7 * Z.of_nat (List.length bs) <= 48 ->
    (List.length bs <= fuel)%nat ->
    readVarInt_loop fuel sign num len d =
    Ret (js_mul sign (num + varuint_value bs * 2 ^ len))
        (advance d (Z.of_nat (List.length bs))).
Proof.
  induction bs as [|b rest IH];
    intros fuel sign num len d Hb Hs Hlen Hnum Hmag Hfit Hfuel.
  - discriminate.
  - destruct fuel as [|fuel]; [simpl in Hfuel; lia|].
    destruct Hb as [Hr Hrest].
    pose proof (arr_get_byte _ _ _ Hr) as Hbyte.
    pose proof (land_127_range b) as Hp.
    pose proof (varuint_value_nonneg rest) as Hv.
    assert (0 < 2 ^ len) by (apply Z.pow_pos_nonneg; lia).
    assert (Hpow : 2 ^ (len + 7) = 2 ^ len * 128).
    { rewrite Z.pow_add_r by lia. reflexivity. }
    change (varuint_value (b :: rest))
      with (Z.land b 127 + 128 * varuint_value rest) in *.
    rewrite readVarInt_loop_step. cbv zeta. rewrite Hr.
    rewrite js_lt_byte by assumption.
    rewrite accumulate_exact by (try assumption; nia || lia).
    destruct rest as [|b' rest'].
    + cbn [varint_shape] in Hs. rewrite Hs.
      cbn [varuint_value]. simpl List.length.
      do 2 f_equal. lia.
    + assert (Hs' : Z.testbit b 7 = true /\ varint_shape (b' :: rest') = true).
      { cbn [varint_shape] in Hs. apply andb_true_iff in Hs. exact Hs. }
      destruct Hs' as [Hc Hs']. rewrite Hc. simpl negb. cbv iota.
      assert (Hl : Z.of_nat (List.length (b :: b' :: rest')) =
                   1 + Z.of_nat (List.length (b' :: rest'))).
      { change (List.length (b :: b' :: rest'))
          with (S (List.length (b' :: rest'))). lia. }
      assert (Hl2 : 1 <= Z.of_nat (List.length (b' :: rest'))).
      { simpl List.length. lia. }
      rewrite gtb_false by lia.
      rewrite (IH fuel); try assumption; try lia.
      * rewrite advance_advance, Hl. f_equal. f_equal.
        rewrite Hpow. lia.
      * rewrite Hpow. nia.
Qed.

Lemma js_mul_numeric sign num :
  js_strict_eq (js_mul sign num) (JInt (sign * num)) = true.
Proof.
  unfold js_mul.
  destruct ((sign <? 0) && (num =? 0) || (sign =? 0) && (num <? 0)) eqn:E.
  - simpl. apply Z.eqb_eq.
    apply orb_true_iff in E. destruct E as [E | E];
      apply andb_true_iff in E; destruct E as [E1 E2].
    + apply Z.eqb_eq in E2. subst. lia.
    + apply Z.eqb_eq in E1. subst. lia.
  - simpl. apply Z.eqb_refl.
Qed.

Lemma readVarInt_first d :
  readVarInt d =
  let r := arr_get (arr d) (pos d) in
  let num := bitand (ToInt32 r) binary.BITS6 in
  let sign := if bitand (ToInt32 r) binary.BIT7 >? 0 then -1 else 1 in
  if bitand (ToInt32 r) binary.BIT8 =? 0 then
    Ret (js_mul sign num) (advance d 1)
  else readVarInt_loop 6 sign num 6 (advance d 1).
Proof.
  unfold readVarInt. run.
  destruct (bitand _ binary.BIT8 =? 0); reflexivity.
Qed.

Lemma first_byte_sign b :
  0 <= b < 256 ->
  (if bitand (ToInt32 (JInt b)) binary.BIT7 >? 0 then -1 else 1) =
  (if Z.testbit b 6 then -1 else 1).
Proof.
  intros H. rewrite bitand_byte by assumption.
  unfold binary.BIT7. change 64 with (2 ^ 6).
  rewrite byte_land_bit by lia. destruct (Z.testbit b 6); reflexivity.
Qed.

Lemma first_byte_continuation b :
  0 <= b < 256 ->
  (bitand (ToInt32 (JInt b)) binary.BIT8 =? 0) = negb (Z.testbit b 7).
Proof.
  intros H. rewrite bitand_byte by assumption.
  unfold binary.BIT8. change 128 with (2 ^ 7).
  rewrite byte_land_bit by lia. destruct (Z.testbit b 7); reflexivity.
Qed.

(** C2, amended.  On a well-formed sequence whose magnitude is below
    [2^31], [readVarInt] takes bit [0x40] of the first byte as the sign, its
    low 6 bits as the least significant payload bits and bit [0x80] as the
    continuation flag, gives every further byte 7 payload bits from bit
    offset 6 on, and returns [sign * magnitude]; with the sign bit set and
    magnitude zero the result is [-0], which is [=== 0].  (The magnitude is
    assembled with signed 32-bit operations, so the reading holds up to
    [2^31 - 1] and not beyond.) *)
Theorem readVarInt_decodes d bs :
  bytes_at (arr d) (pos d) bs ->
  varint_shape bs = true ->
  (List.length bs <= 7)%nat ->
  varint_magnitude bs < 2 ^ 31 ->
  readVarInt d =
    Ret (js_mul (varint_sign bs) (varint_magnitude bs))
        (advance d (Z.of_nat (List.length bs)))
  /\ js_strict_eq (js_mul (varint_sign bs) (varint_magnitude bs))
                  (JInt (varint_sign bs * varint_magnitude bs)) = true.
Proof.
  intros Hb Hs Hn Hmag. split; [|apply js_mul_numeric].
  destruct bs as [|b rest]; [discriminate|].
  destruct Hb as [Hr Hrest].
  pose proof (arr_get_byte _ _ _ Hr) as Hbyte.
  pose proof (land_63_range b) as Hp.
  rewrite readVarInt_first. cbv zeta. rewrite Hr.
  rewrite first_byte_sign, first_byte_continuation by assumption.
  rewrite bitand_byte by assumption. unfold binary.BITS6.
  unfold varint_sign, varint_magnitude in *.
  destruct rest as [|b' rest'].
  - cbn [varint_shape] in Hs. rewrite Hs.
    cbn [varuint_value]. rewrite Z.mul_0_r, Z.add_0_r. reflexivity.
  - assert (Hs' : Z.testbit b 7 = true /\ varint_shape (b' :: rest') = true).
    { cbn [varint_shape] in Hs. apply andb_true_iff in Hs. exact Hs. }
    destruct Hs' as [Hc Hs']. rewrite Hc. simpl negb. cbv iota.
    assert (Hl : Z.of_nat (List.length (b :: b' :: rest')) =
                 1 + Z.of_nat (List.length (b' :: rest'))).
    { change (List.length (b :: b' :: rest'))
        with (S (List.length (b' :: rest'))). lia. }
    assert (Hn' : (List.length (b' :: rest') <= 6)%nat).
    { change (List.length (b :: b' :: rest'))
        with (S (List.length (b' :: rest'))) in Hn. lia. }
    rewrite (readVarInt_loop_decodes (b' :: rest'));
      try assumption; try lia.
    + rewrite advance_advance, Hl. change (2 ^ 6) with 64.
      do 2 f_equal. lia.
    + change (2 ^ 6) with 64. change (2 ^ 31) with two31 in Hmag. lia.
Qed.

Lemma readVarInt_decodes_witness :
  bytes_at (Uint8Array_from [xc1; x02]) 0 [193; 2]
  /\ varint_shape [193; 2] = true
  /\ (List.length [193; 2] <= 7)%nat
  /\ varint_magnitude [193; 2] < 2 ^ 31
  /\ readVarInt (decoder_of [xc1; x02]) =
       Ret (JInt (-129)) (advance (decoder_of [xc1; x02]) 2)
  /\ js_strict_eq (JInt (-129)) (JInt (-129)) = true.
Proof.
  assert (H : bytes_at (Uint8Array_from [xc1; x02]) 0 [193; 2]).
  { simpl. repeat split; reflexivity. }
  assert (L : (List.length [193; 2] <= 7)%nat) by (simpl; lia).
  assert (G : varint_magnitude [193; 2] < 2 ^ 31) by reflexivity.
  split; [exact H|]. split; [reflexivity|]. split; [exact L|].
  split; [exact G|].
  exact (readVarInt_decodes (decoder_of [xc1; x02]) [193; 2]
           H eq_refl L G).
Defined.

(** The sign bit over a zero magnitude: the result is [-0], equal to 0. *)
Example readVarInt_negative_zero :
  readVarInt (decoder_of [x40]) = Ret JNegZero (advance (decoder_of [x40]) 1)
  /\ js_strict_eq JNegZero (JInt 0) = true.
Proof. split; reflexivity. Qed.

(** C2 as stated fails.  The five bytes [80 80 80 80 10] are well formed,
    their sign bit is clear and their payload bits spell [2^31]; [readVarInt]
    returns [-2^31], because [16 << 27] is negative as a signed 32-bit
    integer.  A sixth byte goes wrong in another way: its shift count 34 is
    taken modulo 32, and the payload that belongs at bit 34 lands at
    bit 2. *)
Lemma readVarInt_magnitude_wraps :
  bytes_at (Uint8Array_from [x80; x80; x80; x80; x10]) 0
           [128; 128; 128; 128; 16]
  /\ varint_shape [128; 128; 128; 128; 16] = true
  /\ varint_sign [128; 128; 128; 128; 16] = 1
  /\ varint_magnitude [128; 128; 128; 128; 16] = 2147483648
  /\ readVarInt (decoder_of [x80; x80; x80; x80; x10]) =
       Ret (JInt (-2147483648))
           (advance (decoder_of [x80; x80; x80; x80; x10]) 5)
  /\ varint_magnitude [128; 128; 128; 128; 128; 1] = 17179869184
  /\ readVarInt (decoder_of [x80; x80; x80; x80; x80; x01]) =
       Ret (JInt 4) (advance (decoder_of [x80; x80; x80; x80; x80; x01]) 6).
Proof.
  split; [simpl; repeat split; reflexivity|].
  repeat split; reflexivity.
Qed.

(** ** How far the variable-length readers go *)

Lemma continued_not_lt a i :
  continued (arr_get a i) = true -> js_lt (arr_get a i) binary.BIT8 = false.
Proof.
  destruct (arr_get a i) as [| | |b] eqn:E; try discriminate.
  pose proof (arr_get_byte _ _ _ E) as Hb.
  cbn [continued]. intros H. rewrite js_lt_byte by assumption.
  now rewrite H.
Qed.

Lemma consumes_after {A} n lo hi d (r : outcome A) :
  consumes lo hi (advance d n) r -> consumes (n + lo) (n + hi) d r.
Proof.
  destruct r; cbn [consumes advance arr pos]; try tauto;
    intros [Ha Hp]; (split; [exact Ha|lia]).
Qed.

Lemma consumes_weaken {A} lo hi lo' hi' d (r : outcome A) :
  lo' <= lo -> hi <= hi' -> consumes lo hi d r -> consumes lo' hi' d r.
Proof.
  intros H1 H2.
  destruct r; cbn [consumes]; try tauto;
    intros [Ha Hp]; (split; [exact Ha|lia]).
Qed.

Lemma readVarUint_loop_consumes fuel :
  forall num len d,
    (1 <= fuel)%nat -> 35 < len + 7 * Z.of_nat fuel ->
    consumes 1 (Z.of_nat fuel) d (readVarUint_loop fuel num len d).
Proof.
  induction fuel as [|fuel IH]; intros num len d Hf Hlen; [lia|].
  rewrite readVarUint_loop_step. cbv zeta.
  destruct (js_lt _ _).
  - cbn [consumes advance arr pos]. split; [reflexivity|lia].
  - destruct (len + 7 >? 35) eqn:E.
    + cbn [consumes advance arr pos]. split; [reflexivity|lia].
    + rewrite Z.gtb_ltb in E. apply Z.ltb_ge in E.
      apply consumes_weaken with (lo := 1 + 1) (hi := 1 + Z.of_nat fuel);
        [lia|lia|].
      apply consumes_after, IH; lia.
Qed.

Lemma readVarInt_loop_consumes fuel :
  forall sign num len d,
    (1 <= fuel)%nat -> 41 < len + 7 * Z.of_nat fuel ->
    consumes 1 (Z.of_nat fuel) d (readVarInt_loop fuel sign num len d).
Proof.
  induction fuel as [|fuel IH]; intros sign num len d Hf Hlen; [lia|].
  rewrite readVarInt_loop_step. cbv zeta.
  destruct (js_lt _ _).
  - cbn [consumes advance arr pos]. split; [reflexivity|lia].
  - destruct (len + 7 >? 41) eqn:E.
    + cbn [consumes advance arr pos]. split; [reflexivity|lia].
    + rewrite Z.gtb_ltb in E. apply Z.ltb_ge in E.
      apply consumes_weaken with (lo := 1 + 1) (hi := 1 + Z.of_nat fuel);
        [lia|lia|].
      apply consumes_after, IH; lia.
Qed.

Lemma readVarUint_consumes d : consumes 1 6 d (readVarUint d).
Proof. apply (readVarUint_loop_consumes 6); lia. Qed.

Lemma readVarInt_consumes d : consumes 1 7 d (readVarInt d).
Proof.
  rewrite readVarInt_first. cbv zeta.
  destruct (_ =? 0).
  - cbn [consumes advance arr pos]. split; [reflexivity|lia].
  - apply consumes_weaken with (lo := 1 + 1) (hi := 1 + 6); [lia|lia|].
    apply consumes_after, (readVarInt_loop_consumes 6); lia.
Qed.

(** Where a loop throws: at the first round that leaves [len] above the
    limit. *)
Lemma readVarUint_loop_throws fuel :
  forall num len d e d',
    len <= 35 ->
    readVarUint_loop fuel num len d = Throw e d' ->
    e = IntegerOutOfRange /\
    exists n, d' = advance d n /\ 35 < len + 7 * n /\ len + 7 * (n - 1) <= 35.
Proof.
  induction fuel as [|fuel IH]; intros num len d e d' Hlen H; [discriminate|].
  rewrite readVarUint_loop_step in H. cbv zeta in H.
  destruct (js_lt _ _); [discriminate|].
  destruct (len + 7 >? 35) eqn:E.
  - injection H as <- <-. split; [reflexivity|].
    rewrite Z.gtb_ltb in E. apply Z.ltb_lt in E.
    exists 1. split; [reflexivity|lia].
  - rewrite Z.gtb_ltb in E. apply Z.ltb_ge in E.
    apply IH in H; [|lia]. destruct H as [-> (n & -> & H1 & H2)].
    split; [reflexivity|]. exists (1 + n).
    rewrite advance_advance. split; [reflexivity|lia].
Qed.

Lemma upcoming_S d n :
  upcoming d (S n) =
  arr_get (arr d) (pos d) :: upcoming (advance d 1) n.
Proof.
  unfold upcoming. cbn [seq map]. rewrite Z.add_0_r. f_equal.
  rewrite <- seq_shift, map_map. apply map_ext. intros i.
  cbn [advance arr pos]. f_equal. lia.
Qed.

Lemma readVarUint_loop_continued n :
  forall fuel num len d,
    forallb continued (upcoming d n) = true ->
    len + 7 * Z.of_nat n <= 35 ->
    exists num',
      readVarUint_loop (n + fuel) num len d =
      readVarUint_loop fuel num' (len + 7 * Z.of_nat n)
        (advance d (Z.of_nat n)).
Proof.
  induction n as [|n IH]; intros fuel num len d H Hlen.
  - exists num. cbn [Nat.add Z.of_nat]. rewrite advance_0.
    f_equal. lia.
  - rewrite upcoming_S in H. cbn [forallb] in H.
    apply andb_true_iff in H. destruct H as [H0 H].
    apply continued_not_lt in H0.
    cbn [Nat.add]. rewrite readVarUint_loop_step. cbv zeta.
    rewrite H0, gtb_false by lia.
    destruct (IH fuel (accumulate num (arr_get (arr d) (pos d)) len)
                 (len + 7) (advance d 1) H) as [num' E]; [lia|].
    exists num'. rewrite E, advance_advance.
    f_equal; [lia|f_equal; lia].
Qed.

Lemma readVarInt_loop_continued n :
  forall fuel sign num len d,
    forallb continued (upcoming d n) = true ->
    len + 7 * Z.of_nat n <= 41 ->
    exists num',
      readVarInt_loop (n + fuel) sign num len d =
      readVarInt_loop fuel sign num' (len + 7 * Z.of_nat n)
        (advance d (Z.of_nat n)).
Proof.
  induction n as [|n IH]; intros fuel sign num len d H Hlen.
  - exists num. cbn [Nat.add Z.of_nat]. rewrite advance_0.
    f_equal. lia.
  - rewrite upcoming_S in H. cbn [forallb] in H.
    apply andb_true_iff in H. destruct H as [H0 H].
    apply continued_not_lt in H0.
    cbn [Nat.add]. rewrite readVarInt_loop_step. cbv zeta.
    rewrite H0, gtb_false by lia.
    destruct (IH fuel sign (accumulate num (arr_get (arr d) (pos d)) len)
                 (len + 7) (advance d 1) H) as [num' E]; [lia|].
    exists num'. rewrite E, advance_advance.
    f_equal; [lia|f_equal; lia].
Qed.

Lemma upcoming_split d n m :
  forallb continued (upcoming d (n + m)) = true ->
  forallb continued (upcoming d n) = true /\
  forallb continued (upcoming (advance d (Z.of_nat n)) m) = true.
Proof.
  revert d. induction n as [|n IH]; intros d H.
  - cbn [Nat.add Z.of_nat] in *. rewrite advance_0.
    split; [reflexivity|exact H].
  - cbn [Nat.add] in H. rewrite upcoming_S in *. cbn [forallb] in *.
    apply andb_true_iff in H. destruct H as [H0 H].
    apply IH in H. destruct H as [H1 H2]. rewrite H0, H1.
    split; [reflexivity|].
    rewrite advance_advance in H2.
    replace (Z.of_nat (S n)) with (1 + Z.of_nat n) by lia. exact H2.
Qed.

(** C4.  When the first six bytes at the cursor all have the continuation
    bit set, [readVarUint] throws [IntegerOutOfRange] with the cursor six
    bytes on; and whenever [readVarUint] throws, it is that exception after
    exactly six bytes, the round that takes [len] to 42, above 35. *)
Theorem readVarUint_overlong d :
  (forallb continued (upcoming d 6) = true ->
   readVarUint d = Throw IntegerOutOfRange (advance d 6))
  /\ (forall e d', readVarUint d = Throw e d' ->
      e = IntegerOutOfRange /\ d' = advance d 6).
Proof.
  split.
  - intros H. apply (upcoming_split d 5 1) in H. destruct H as [H5 H1].
    destruct (readVarUint_loop_continued 5 1 0 0 d H5) as [num' E]; [lia|].
    unfold readVarUint. change 6%nat with (5 + 1)%nat. rewrite E.
    rewrite upcoming_S in H1. cbn [forallb] in H1.
    apply andb_true_iff in H1. destruct H1 as [H1 _].
    apply continued_not_lt in H1.
    rewrite readVarUint_loop_step. cbv zeta. rewrite H1.
    rewrite gtb_true by lia. now rewrite advance_advance.
  - intros e d' H. apply readVarUint_loop_throws in H; [|lia].
    destruct H as [-> (n & -> & H1 & H2)]. split; [reflexivity|].
    f_equal. lia.
Qed.

Lemma readVarUint_overlong_witness :
  forallb continued
    (upcoming (decoder_of [x80; xff; x81; x80; x80; x80; x01]) 6) = true
  /\ readVarUint (decoder_of [x80; xff; x81; x80; x80; x80; x01]) =
       Throw IntegerOutOfRange
         (advance (decoder_of [x80; xff; x81; x80; x80; x80; x01]) 6)
  /\ (IntegerOutOfRange = IntegerOutOfRange
      /\ advance (decoder_of [x80; xff; x81; x80; x80; x80; x01]) 6 =
         advance (decoder_of [x80; xff; x81; x80; x80; x80; x01]) 6).
Proof.
  split; [reflexivity|].
  pose proof (proj1 (readVarUint_overlong
                (decoder_of [x80; xff; x81; x80; x80; x80; x01])) eq_refl)
    as E.
  split; [exact E|].
  exact (proj2 (readVarUint_overlong
                  (decoder_of [x80; xff; x81; x80; x80; x80; x01]))
               _ _ E).
Defined.

Lemma readVarInt_loop_throws fuel :
  forall sign num len d e d',
    len <= 41 ->
    readVarInt_loop fuel sign num len d = Throw e d' ->
    e = IntegerOutOfRange /\
    exists n, d' = advance d n /\ 41 < len + 7 * n /\ len + 7 * (n - 1) <= 41.
Proof.
  induction fuel as [|fuel IH]; intros sign num len d e d' Hlen H;
    [discriminate|].
  rewrite readVarInt_loop_step in H. cbv zeta in H.
  destruct (js_lt _ _); [discriminate|].
  destruct (len + 7 >? 41) eqn:E.
  - injection H as <- <-. split; [reflexivity|].
    rewrite Z.gtb_ltb in E. apply Z.ltb_lt in E.
    exists 1. split; [reflexivity|lia].
  - rewrite Z.gtb_ltb in E. apply Z.ltb_ge in E.
    apply IH in H; [|lia]. destruct H as [-> (n & -> & H1 & H2)].
    split; [reflexivity|]. exists (1 + n).
    rewrite advance_advance. split; [reflexivity|lia].
Qed.

Lemma continued_first_byte a i :
  continued (arr_get a i) = true ->
  (bitand (ToInt32 (arr_get a i)) binary.BIT8 =? 0) = false.
Proof.
  destruct (arr_get a i) as [| | |b] eqn:E; try discriminate.
  pose proof (arr_get_byte _ _ _ E) as Hb.
  cbn [continued]. intros H. rewrite first_byte_continuation by assumption.
  now rewrite H.
Qed.

(** C5, amended.  [readVarInt] reads at least one and at most seven bytes,
    whether it returns or throws.  It throws, and then [IntegerOutOfRange]
    with the cursor seven bytes on, exactly when a continued byte has taken
    [len] above 41, which is at the seventh byte: when the first seven bytes
    all have the continuation bit set. *)
Theorem readVarInt_reads_at_most_seven d :
  consumes 1 7 d (readVarInt d)
  /\ (forallb continued (upcoming d 7) = true ->
      readVarInt d = Throw IntegerOutOfRange (advance d 7))
  /\ (forall e d', readVarInt d = Throw e d' ->
      e = IntegerOutOfRange /\ d' = advance d 7).
Proof.
  split; [apply readVarInt_consumes|]. split.
  - intros H. apply (upcoming_split d 1 6) in H. destruct H as [H1 H].
    apply (upcoming_split _ 5 1) in H. destruct H as [H5 H7].
    change (Z.of_nat 1) with 1 in *.
    rewrite upcoming_S in H1. cbn [forallb] in H1.
    apply andb_true_iff in H1. destruct H1 as [H1 _].
    apply continued_first_byte in H1.
    rewrite readVarInt_first. cbv zeta. rewrite H1.
    match goal with
    | |- readVarInt_loop _ ?s ?n _ _ = _ =>
        destruct (readVarInt_loop_continued 5 1 s n 6 _ H5) as [num' E];
          [lia|]
    end.
    change 6%nat with (5 + 1)%nat. rewrite E.
    rewrite upcoming_S in H7. cbn [forallb] in H7.
    apply andb_true_iff in H7. destruct H7 as [H7 _].
    apply continued_not_lt in H7.
    rewrite readVarInt_loop_step. cbv zeta. rewrite H7.
    rewrite gtb_true by lia. now rewrite !advance_advance.
  - intros e d'. rewrite readVarInt_first. cbv zeta.
    destruct (_ =? 0); [discriminate|]. intros H.
    apply readVarInt_loop_throws in H; [|lia].
    destruct H as [-> (n & -> & H1 & H2)]. split; [reflexivity|].
    rewrite advance_advance. f_equal. lia.
Qed.

Lemma readVarInt_reads_at_most_seven_witness :
  forallb continued
    (upcoming (decoder_of [x80; x80; x80; x80; x80; x80; x80; x01]) 7)
    = true
  /\ readVarInt (decoder_of [x80; x80; x80; x80; x80; x80; x80; x01]) =
       Throw IntegerOutOfRange
         (advance (decoder_of [x80; x80; x80; x80; x80; x80; x80; x01]) 7)
  /\ (IntegerOutOfRange = IntegerOutOfRange
      /\ advance (decoder_of [x80; x80; x80; x80; x80; x80; x80; x01]) 7 =
         advance (decoder_of [x80; x80; x80; x80; x80; x80; x80; x01]) 7).
Proof.
  split; [reflexivity|].
  pose proof (proj1 (proj2 (readVarInt_reads_at_most_seven
                (decoder_of [x80; x80; x80; x80; x80; x80; x80; x01])))
              eq_refl) as E.
  split; [exact E|].
  exact (proj2 (proj2 (readVarInt_reads_at_most_seven
                  (decoder_of [x80; x80; x80; x80; x80; x80; x80; x01])))
               _ _ E).
Defined.

(** C5 as stated fails: after six continued bytes [readVarInt] reads a
    seventh, and here it returns with the cursor 7 bytes on. *)
Lemma readVarInt_seventh_byte :
  readVarInt (decoder_of [x80; x80; x80; x80; x80; x80; x01]) =
    Ret (JInt 512) (advance (decoder_of [x80; x80; x80; x80; x80; x80; x01]) 7)
  /\ ~ consumes 0 6 (decoder_of [x80; x80; x80; x80; x80; x80; x01])
        (readVarInt (decoder_of [x80; x80; x80; x80; x80; x80; x01])).
Proof.
  assert (E : readVarInt (decoder_of [x80; x80; x80; x80; x80; x80; x01]) =
              Ret (JInt 512)
                  (advance (decoder_of [x80; x80; x80; x80; x80; x80; x01]) 7))
    by reflexivity.
  split; [exact E|]. rewrite E. cbn [consumes advance pos].
  intros [_ H]. simpl in H. lia.
Qed.

(** ** The peeks *)

Lemma set_pos_back d d' : arr d' = arr d -> mkDecoder (arr d') (pos d) = d.
Proof. intros ->. destruct d. reflexivity. Qed.

(** ** Views *)

Lemma readUint8Array_throws len d :
  pos d + byteOffset (arr d) < 0 \/ len < 0 \/
  Z.of_nat (List.length (buffer (arr d))) < pos d + byteOffset (arr d) + len ->
  readUint8Array len d = Throw BufferUnderrun d.
Proof.
  intros H. unfold readUint8Array. run.
  unfold Buffer.createUint8ArrayViewFromArrayBuffer.
  destruct (0 <=? pos d + byteOffset (arr d)) eqn:E1;
  destruct (0 <=? len) eqn:E2;
  destruct (pos d + byteOffset (arr d) + len <=?
            Z.of_nat (List.length (buffer (arr d)))) eqn:E3;
    try reflexivity.
  apply Z.leb_le in E1, E2, E3. lia.
Qed.

Lemma readUint8Array_returns len d view d' :
  readUint8Array len d = Ret view d' ->
  view = mkUint8Array (buffer (arr d)) (pos d + byteOffset (arr d)) len
  /\ d' = advance d len
  /\ 0 <= pos d + byteOffset (arr d) /\ 0 <= len
  /\ pos d + byteOffset (arr d) + len
     <= Z.of_nat (List.length (buffer (arr d))).
Proof.
  unfold readUint8Array. run.
  unfold Buffer.createUint8ArrayViewFromArrayBuffer.
  destruct (0 <=? pos d + byteOffset (arr d)) eqn:E1;
  destruct (0 <=? len) eqn:E2;
  destruct (pos d + byteOffset (arr d) + len <=?
            Z.of_nat (List.length (buffer (arr d)))) eqn:E3;
    cbn [andb]; try discriminate.
  intros H. injection H as <- <-.
  apply Z.leb_le in E1, E2, E3. repeat split; assumption.
Qed.

Lemma array_bytes_length buf off len :
  0 <= off -> 0 <= len -> off + len <= Z.of_nat (List.length buf) ->
  Z.of_nat (List.length (array_bytes (mkUint8Array buf off len))) = len.
Proof.
  intros H1 H2 H3. unfold array_bytes. cbn [length byteOffset buffer].
  rewrite length_firstn, length_skipn. lia.
Qed.

Section Underrun.

Variable decodeUtf8 : list byte -> option string.

(** C6, amended.  Let [readVarUint] return the declared length [n] and
    leave the decoder [d1].  When [n] bytes from the cursor of [d1] reach
    past the end of the underlying buffer, [readVarUint8Array] and
    [readVarString] throw [BufferUnderrun], the cursor staying behind the
    length prefix.  For an array that ends where its buffer ends that is
    whenever [n] exceeds the bytes remaining in the array.  Nothing
    truncated is ever returned: a view that is returned is the view of
    exactly the [n] bytes of the buffer behind the prefix, and a string
    that is returned is the decoding of exactly those [n] bytes, the cursor
    [n] bytes behind the prefix. *)
Theorem declared_length_past_buffer d n d1 :
  readVarUint d = Ret n d1 ->
  (Z.of_nat (List.length (buffer (arr d))) < byteOffset (arr d) + pos d1 + n ->
   readVarUint8Array d = Throw BufferUnderrun d1
   /\ readVarString decodeUtf8 d = Throw BufferUnderrun d1)
  /\ (byteOffset (arr d) + length (arr d)
        = Z.of_nat (List.length (buffer (arr d))) ->
      length (arr d) - pos d1 < n ->
      readVarUint8Array d = Throw BufferUnderrun d1
      /\ readVarString decodeUtf8 d = Throw BufferUnderrun d1)
  /\ (forall view d', readVarUint8Array d = Ret view d' ->
      Z.of_nat (List.length (array_bytes view)) = n /\ d' = advance d1 n)
  /\ (forall view d', readVarUint8Array d = Ret view d' ->
      view = mkUint8Array (buffer (arr d)) (pos d1 + byteOffset (arr d)) n
      /\ array_bytes view =
         firstn (Z.to_nat n)
                (skipn (Z.to_nat (pos d1 + byteOffset (arr d)))
                       (buffer (arr d))))
  /\ (forall s d', readVarString decodeUtf8 d = Ret s d' ->
      exists view,
        readVarUint8Array d = Ret view d'
        /\ Z.of_nat (List.length (array_bytes view)) = n
        /\ array_bytes view =
           firstn (Z.to_nat n)
                  (skipn (Z.to_nat (pos d1 + byteOffset (arr d)))
                         (buffer (arr d)))
        /\ decodeUtf8 (array_bytes view) = Some s
        /\ d' = advance d1 n).
Proof.
  intros Hn.
  pose proof (readVarUint_consumes d) as Hc. rewrite Hn in Hc.
  destruct Hc as [Ha Hp].
  assert (Hthrow :
    Z.of_nat (List.length (buffer (arr d))) < byteOffset (arr d) + pos d1 + n ->
    readVarUint8Array d = Throw BufferUnderrun d1
    /\ readVarString decodeUtf8 d = Throw BufferUnderrun d1).
  { intros H.
    assert (E : readVarUint8Array d = Throw BufferUnderrun d1).
    { unfold readVarUint8Array, bind. rewrite Hn.
      apply readUint8Array_throws. rewrite Ha. lia. }
    split; [exact E|]. unfold readVarString, bind. now rewrite E. }
  assert (Hview : forall view d', readVarUint8Array d = Ret view d' ->
    view = mkUint8Array (buffer (arr d)) (pos d1 + byteOffset (arr d)) n
    /\ d' = advance d1 n
    /\ Z.of_nat (List.length (array_bytes view)) = n).
  { intros view d'. unfold readVarUint8Array, bind. rewrite Hn. intros H.
    apply readUint8Array_returns in H.
    destruct H as (-> & -> & H1 & H2 & H3). rewrite Ha.
    split; [reflexivity|]. split; [reflexivity|].
    rewrite Ha in H1, H3. apply array_bytes_length; assumption. }
  split; [exact Hthrow|]. split; [|split; [|split]].
  - intros Hend Hrem. apply Hthrow. lia.
  - intros view d' H. apply Hview in H. destruct H as (_ & H1 & H2).
    split; assumption.
  - intros view d' H. apply Hview in H. destruct H as (-> & _ & _).
    split; reflexivity.
  - intros s d'. unfold readVarString, bind.
    destruct (readVarUint8Array d) as [view d2|e d2|] eqn:E;
      try discriminate.
    destruct (Hview view d2 eq_refl) as (Hv & Hd & Hl).
    destruct (decodeUtf8 (array_bytes view)) as [s'|] eqn:U;
      cbn [ret throw]; try discriminate.
    intros H. injection H as <- <-.
    exists view. split; [reflexivity|]. split; [exact Hl|].
    split; [rewrite Hv; reflexivity|]. split; [exact U|exact Hd].
Qed.

End Underrun.

Lemma declared_length_past_buffer_witness :
  (readVarUint (decoder_of [x05; x41; x42]) =
     Ret 5 (advance (decoder_of [x05; x41; x42]) 1)
   /\ Z.of_nat (List.length (buffer (arr (decoder_of [x05; x41; x42]))))
      < byteOffset (arr (decoder_of [x05; x41; x42]))
        + pos (advance (decoder_of [x05; x41; x42]) 1) + 5
   /\ byteOffset (arr (decoder_of [x05; x41; x42]))
      + length (arr (decoder_of [x05; x41; x42]))
      = Z.of_nat (List.length (buffer (arr (decoder_of [x05; x41; x42]))))
   /\ length (arr (decoder_of [x05; x41; x42]))
      - pos (advance (decoder_of [x05; x41; x42]) 1) < 5
   /\ readVarUint8Array (decoder_of [x05; x41; x42]) =
        Throw BufferUnderrun (advance (decoder_of [x05; x41; x42]) 1)
   /\ readVarString decodeAscii (decoder_of [x05; x41; x42]) =
        Throw BufferUnderrun (advance (decoder_of [x05; x41; x42]) 1))
  /\ (readVarUint (decoder_of [x02; x41; x42]) =
        Ret 2 (advance (decoder_of [x02; x41; x42]) 1)
      /\ readVarUint8Array (decoder_of [x02; x41; x42]) =
           Ret (mkUint8Array [x02; x41; x42] 1 2)
               (advance (decoder_of [x02; x41; x42]) 3)
      /\ Z.of_nat (List.length
                     (array_bytes (mkUint8Array [x02; x41; x42] 1 2))) = 2
      /\ array_bytes (mkUint8Array [x02; x41; x42] 1 2) = [x41; x42]
      /\ readVarString decodeAscii (decoder_of [x02; x41; x42]) =
           Ret "AB"%string (advance (decoder_of [x02; x41; x42]) 3)
      /\ exists view,
           readVarUint8Array (decoder_of [x02; x41; x42]) =
             Ret view (advance (decoder_of [x02; x41; x42]) 3)
           /\ Z.of_nat (List.length (array_bytes view)) = 2
           /\ array_bytes view =
              firstn (Z.to_nat 2)
                (skipn (Z.to_nat
                          (pos (advance (decoder_of [x02; x41; x42]) 1)
                           + byteOffset (arr (decoder_of [x02; x41; x42]))))
                       (buffer (arr (decoder_of [x02; x41; x42]))))
           /\ decodeAscii (array_bytes view) = Some "AB"%string
           /\ advance (decoder_of [x02; x41; x42]) 3
              = advance (advance (decoder_of [x02; x41; x42]) 1) 2).
Proof.
  split.
  - assert (H : Z.of_nat (List.length
                            (buffer (arr (decoder_of [x05; x41; x42]))))
                < byteOffset (arr (decoder_of [x05; x41; x42]))
                  + pos (advance (decoder_of [x05; x41; x42]) 1) + 5)
      by (simpl; lia).
    assert (H2 : length (arr (decoder_of [x05; x41; x42]))
                 - pos (advance (decoder_of [x05; x41; x42]) 1) < 5)
      by (simpl; lia).
    split; [reflexivity|]. split; [exact H|]. split; [reflexivity|].
    split; [exact H2|].
    split.
    + exact (proj1 (proj1 (declared_length_past_buffer decodeAscii
                      (decoder_of [x05; x41; x42]) 5
                      (advance (decoder_of [x05; x41; x42]) 1) eq_refl)
                    H)).
    + exact (proj2 (proj1 (proj2 (declared_length_past_buffer decodeAscii
                      (decoder_of [x05; x41; x42]) 5
                      (advance (decoder_of [x05; x41; x42]) 1) eq_refl))
                    eq_refl H2)).
  - pose proof (declared_length_past_buffer decodeAscii
                  (decoder_of [x02; x41; x42]) 2
                  (advance (decoder_of [x02; x41; x42]) 1) eq_refl)
      as (_ & _ & Hlen & Hview & Hstr).
    split; [reflexivity|]. split; [reflexivity|].
    split; [exact (proj1 (Hlen _ _ eq_refl))|].
    split; [exact (proj2 (Hview _ _ eq_refl))|].
    split; [reflexivity|].
    exact (Hstr "AB"%string (advance (decoder_of [x02; x41; x42]) 3) eq_refl).
Defined.

(** C6 as stated fails.  The decoder reads the first two bytes of a
    three-byte buffer.  The length prefix declares 2 bytes where the array
    has 1 left, and the reader throws nothing: it returns a view of the
    buffer that reaches past the end of the array, and [readVarString]
    decodes it. *)
Lemma declared_length_past_array :
  wf_array (mkUint8Array [x02; x41; x42] 0 2)
  /\ readVarUint (createDecoder (mkUint8Array [x02; x41; x42] 0 2)) =
       Ret 2 (mkDecoder (mkUint8Array [x02; x41; x42] 0 2) 1)
  /\ length (mkUint8Array [x02; x41; x42] 0 2) - 1 < 2
  /\ readVarUint8Array (createDecoder (mkUint8Array [x02; x41; x42] 0 2)) =
       Ret (mkUint8Array [x02; x41; x42] 1 2)
           (mkDecoder (mkUint8Array [x02; x41; x42] 0 2) 3)
  /\ readVarString decodeAscii
       (createDecoder (mkUint8Array [x02; x41; x42] 0 2)) =
       Ret "AB"%string (mkDecoder (mkUint8Array [x02; x41; x42] 0 2) 3).
Proof.
  split.
  - unfold wf_array. simpl. lia.
  - repeat split; reflexivity.
Qed.

(** ** No reader moves the cursor back or swaps the array *)

Lemma Forward_ret {A} (a : A) : Forward (ret a).
Proof. intros d. cbn. split; [reflexivity|lia]. Qed.

Lemma Forward_throw {A} e : Forward (@throw A e).
Proof. intros d. cbn. split; [reflexivity|lia]. Qed.

Lemma Forward_bind {A B} (m : M A) (k : A -> M B) :
  Forward m -> (forall a, Forward (k a)) -> Forward (bind m k).
Proof.
  intros Hm Hk d. unfold bind. specialize (Hm d).
  destruct (m d) as [a d'| |]; cbn [forward] in *; try assumption.
  specialize (Hk a d'). destruct Hm as [Ha Hp].
  destruct (k a d'); cbn [forward] in *; try exact I;
    destruct Hk as [Ha' Hp']; (split; [congruence|lia]).
Qed.

Lemma Forward_consumes {A} (m : M A) lo hi :
  0 <= lo -> (forall d, consumes lo hi d (m d)) -> Forward m.
Proof.
  intros Hlo H d. specialize (H d).
  destruct (m d); cbn [forward consumes] in *; try exact I;
    destruct H as [Ha Hp]; (split; [exact Ha|lia]).
Qed.

Lemma Forward_get_arr : Forward get_arr.
Proof. intros d. cbn. split; [reflexivity|lia]. Qed.

Lemma Forward_get_pos : Forward get_pos.
Proof. intros d. cbn. split; [reflexivity|lia]. Qed.

Lemma Forward_pos_incr : Forward pos_incr.
Proof. intros d. cbn. split; [reflexivity|lia]. Qed.

Lemma Forward_obj_put inherited_set obj key v :
  Forward (obj_put inherited_set obj key v).
Proof.
  unfold obj_put. destruct (obj_set _ _ _ _);
    [apply Forward_ret|apply Forward_throw].
Qed.

Create HintDb forward.
#[local] Hint Resolve Forward_ret Forward_throw Forward_get_arr
  Forward_get_pos Forward_pos_incr Forward_obj_put : forward.

Ltac forward_step :=
  match goal with
  | |- Forward (bind _ _) => apply Forward_bind; [|intros ?]
  | |- Forward (match ?x with _ => _ end) => destruct x
  | |- Forward (if ?x then _ else _) => destruct x
  | |- Forward _ => solve [auto with forward]
  end.

Ltac forward_all := repeat forward_step.

Lemma Forward_skip8 : Forward skip8.
Proof. unfold skip8. forward_all. Qed.

Lemma Forward_readUint8 : Forward readUint8.
Proof. unfold readUint8. forward_all. Qed.

Lemma Forward_readUint16 : Forward readUint16.
Proof. intros d. cbn. split; [reflexivity|lia]. Qed.

Lemma Forward_readUint32 : Forward readUint32.
Proof. intros d. cbn. split; [reflexivity|lia]. Qed.

Lemma Forward_peekUint8 : Forward peekUint8.
Proof. unfold peekUint8. forward_all. Qed.

Lemma Forward_peekUint16 : Forward peekUint16.
Proof. unfold peekUint16. forward_all. Qed.

Lemma Forward_peekUint32 : Forward peekUint32.
Proof. unfold peekUint32. forward_all. Qed.

Lemma Forward_readVarUint : Forward readVarUint.
Proof.
  apply Forward_consumes with (lo := 1) (hi := 6); [lia|].
  exact readVarUint_consumes.
Qed.

Lemma Forward_readVarInt : Forward readVarInt.
Proof.
  apply Forward_consumes with (lo := 1) (hi := 7); [lia|].
  exact readVarInt_consumes.
Qed.

Lemma Forward_readUint8Array len : Forward (readUint8Array len).
Proof.
  intros d. destruct (readUint8Array len d) as [v d'|e d'|] eqn:E;
    cbn [forward]; try exact I.
  - apply readUint8Array_returns in E.
    destruct E as (_ & -> & _ & H & _). cbn. split; [reflexivity|lia].
  - unfold readUint8Array in E. revert E. run.
    destruct (Buffer.createUint8ArrayViewFromArrayBuffer _ _ _);
      [discriminate|].
    intros E. injection E as <- <-. split; [reflexivity|lia].
Qed.

Lemma Forward_readFromDataView len : Forward (readFromDataView len).
Proof.
  intros d. unfold readFromDataView. run.
  destruct (0 <=? byteOffset (arr d) + pos d) eqn:E1;
  destruct (0 <=? len) eqn:E2;
  destruct (byteOffset (arr d) + pos d + len <=?
            Z.of_nat (List.length (buffer (arr d)))) eqn:E3;
    cbn [andb forward arr pos]; (split; [reflexivity|lia]).
Qed.

#[local] Hint Resolve Forward_skip8 Forward_readUint8 Forward_readUint16
  Forward_readUint32 Forward_peekUint8 Forward_peekUint16 Forward_peekUint32
  Forward_readVarUint Forward_readVarInt Forward_readUint8Array
  Forward_readFromDataView : forward.

Lemma Forward_readVarUint8Array : Forward readVarUint8Array.
Proof. unfold readVarUint8Array. forward_all. Qed.

Lemma Forward_readTailAsUint8Array : Forward readTailAsUint8Array.
Proof. unfold readTailAsUint8Array. forward_all. Qed.

Lemma Forward_readFloat32 : Forward readFloat32.
Proof. unfold readFloat32. forward_all. Qed.

Lemma Forward_readFloat64 : Forward readFloat64.
Proof. unfold readFloat64. forward_all. Qed.

Lemma Forward_readBigInt64 : Forward readBigInt64.
Proof. unfold readBigInt64. forward_all. Qed.

Lemma Forward_readBigUint64 : Forward readBigUint64.
Proof. unfold readBigUint64. forward_all. Qed.

#[local] Hint Resolve Forward_readVarUint8Array Forward_readTailAsUint8Array
  Forward_readFloat32 Forward_readFloat64 Forward_readBigInt64
  Forward_readBigUint64 : forward.

(** A peek: run the reader, then put the position back. *)
Lemma peek_spec {A} (m : M A) d :
  Forward m ->
  (pos0 <- get_pos ;; s <- m ;; set_pos pos0 ;;; ret s) d =
  match m d with
  | Ret s _ => Ret s d
  | Throw e d' => Throw e d'
  | OutOfFuel => OutOfFuel
  end.
Proof.
  intros H. run. specialize (H d).
  destruct (m d) as [s d'| |]; try reflexivity.
  destruct H as [Ha _]. now rewrite set_pos_back.
Qed.

Lemma Forward_peek {A} (m : M A) :
  Forward m -> Forward (pos0 <- get_pos ;; s <- m ;; set_pos pos0 ;;; ret s).
Proof.
  intros H d. rewrite peek_spec by assumption. specialize (H d).
  destruct (m d); cbn [forward] in *; try exact I; try assumption.
  split; [reflexivity|lia].
Qed.

Lemma Forward_peekVarUint : Forward peekVarUint.
Proof. apply Forward_peek. auto with forward. Qed.

Lemma Forward_peekVarInt : Forward peekVarInt.
Proof. apply Forward_peek. auto with forward. Qed.

Lemma Forward_for_loop {S} (body : S -> M S) :
  (forall s, Forward (body s)) ->
  forall fuel i len s, Forward (for_loop fuel i len body s).
Proof.
  intros Hb. induction fuel as [|fuel IH]; intros i len s;
    cbn [for_loop]; destruct (i <? len); auto with forward.
  - intros d. exact I.
  - apply Forward_bind; [apply Hb|]. intros s'. apply IH.
Qed.

Lemma table_get_In {A} (table : list A) idx f :
  table_get table idx = Some f -> In f table.
Proof.
  unfold table_get. destruct idx as [| | |z]; try discriminate.
  - apply nth_error_In.
  - destruct (0 <=? z); [apply nth_error_In|discriminate].
Qed.

Section Cursor.

Variable decodeUtf8 : list byte -> option string.
Variable inherited_set : any -> string -> any -> set_effect.

Lemma Forward_readVarString : Forward (readVarString decodeUtf8).
Proof. unfold readVarString. forward_all. Qed.

Lemma Forward_peekVarString : Forward (peekVarString decodeUtf8).
Proof. apply Forward_peek, Forward_readVarString. Qed.

Lemma readAnyLookupTable_Forward fuel R g :
  Forward R ->
  In g (readAnyLookupTable decodeUtf8 inherited_set fuel R) ->
  Forward g.
Proof.
  intros HR E.
  pose proof Forward_readVarString as Hs.
  assert (Ho : forall fuel' i len s,
             Forward (for_loop fuel' i len
                        (readObject_body decodeUtf8 inherited_set R) s)).
  { apply Forward_for_loop. intros s. unfold readObject_body.
    forward_all; auto with forward. }
  assert (Har : forall fuel' i len s,
             Forward (for_loop fuel' i len (readArray_body R) s)).
  { apply Forward_for_loop. intros s. unfold readArray_body.
    forward_all; auto with forward. }
  cbn [readAnyLookupTable In] in E.
  repeat (destruct E as [<- | E]; [forward_all; auto with forward|]).
  contradiction.
Qed.

Lemma Forward_readAny_body fuel R :
  Forward R -> Forward (readAny_body decodeUtf8 inherited_set fuel R).
Proof.
  intros HR. unfold readAny_body.
  apply Forward_bind; [auto with forward|]. intros tag.
  destruct (table_get _ _) as [f|] eqn:E; [|auto with forward].
  apply table_get_In in E.
  exact (readAnyLookupTable_Forward fuel R f HR E).
Qed.

Lemma Forward_readAny_fuel fuel :
  Forward (readAny_fuel decodeUtf8 inherited_set fuel).
Proof.
  induction fuel as [|fuel IH]; cbn [readAny_fuel].
  - intros d. exact I.
  - apply Forward_readAny_body, IH.
Qed.

Lemma Forward_readAny : Forward (readAny decodeUtf8 inherited_set).
Proof. intros d. apply Forward_readAny_fuel. Qed.

(** X20.  When the read underneath returns, [peekVarUint] and
    [peekVarString] return the same value and leave the decoder as it was.
    When the read throws, the peek throws the same exception and the cursor
    stays where the failed read left it: the assignment that restores the
    position is not reached. *)
Theorem peeks_restore_after_success d :
  (forall v d', readVarUint d = Ret v d' -> peekVarUint d = Ret v d)
  /\ (forall s d', readVarString decodeUtf8 d = Ret s d' ->
      peekVarString decodeUtf8 d = Ret s d)
  /\ (forall e d', readVarUint d = Throw e d' ->
      peekVarUint d = Throw e d')
  /\ (forall e d', readVarString decodeUtf8 d = Throw e d' ->
      peekVarString decodeUtf8 d = Throw e d').
Proof.
  unfold peekVarUint, peekVarString.
  rewrite (peek_spec readVarUint d Forward_readVarUint).
  rewrite (peek_spec (readVarString decodeUtf8) d Forward_readVarString).
  repeat split; intros ? ? ->; reflexivity.
Qed.

Lemma exec_op_forward o d :
  (forall p, o <> OpClone p) ->
  arr (exec_op decodeUtf8 inherited_set d o) = arr d
  /\ pos d <= pos (exec_op decodeUtf8 inherited_set d o).
Proof.
  assert (F : forall A (m : M A),
             Forward m ->
             arr (final d (m d)) = arr d /\ pos d <= pos (final d (m d))).
  { intros A m H. specialize (H d).
    destruct (m d); cbn [forward final] in *; try assumption.
    split; [reflexivity|lia]. }
  intros Ho.
  destruct o; cbn [exec_op]; try apply F;
    auto with forward;
    try apply Forward_peekVarUint; try apply Forward_peekVarInt;
    try apply Forward_readVarString; try apply Forward_peekVarString;
    try apply Forward_readAny.
  now contradiction (Ho newPos).
Qed.

Lemma exec_op_nonneg o d :
  op_nonneg o -> 0 <= pos d ->
  0 <= pos (exec_op decodeUtf8 inherited_set d o).
Proof.
  intros Ho Hd.
  destruct o as [[p|]| | | | | | | | | | | | | | | | | | | | | |];
    try (cbn in *; assumption);
    match goal with
    | |- 0 <= pos (exec_op _ _ _ ?o) =>
        assert (N : forall p, o <> OpClone p) by (intros p; discriminate);
        destruct (exec_op_forward o d N) as [_ H]; lia
    end.
Qed.

(** C9, amended.  A decoder starts at position 0.  After any sequence of
    reads, skips, peeks and clones (a clone taking the current position or
    an explicit position that is not negative) the position is not
    negative, and no operation but [clone] changes the array or moves the
    position back.  No bound from above is kept: the readers go past the
    end of the array without a check. *)
Theorem position_never_negative ops a :
  Forall op_nonneg ops ->
  pos (createDecoder a) = 0
  /\ 0 <= pos (exec_ops decodeUtf8 inherited_set ops (createDecoder a))
  /\ (forall d o, (forall p, o <> OpClone p) ->
      arr (exec_op decodeUtf8 inherited_set d o) = arr d
      /\ pos d <= pos (exec_op decodeUtf8 inherited_set d o)).
Proof.
  intros H. split; [reflexivity|]. split.
  - assert (G : forall d, 0 <= pos d ->
                          0 <= pos (exec_ops decodeUtf8 inherited_set ops d)).
    { induction H as [|o ops Ho _ IH]; intros d Hd; [exact Hd|].
      cbn [exec_ops fold_left]. apply IH, exec_op_nonneg; assumption. }
    apply G. cbn. lia.
  - intros d o. apply exec_op_forward.
Qed.

End Cursor.

Lemma peeks_restore_after_success_witness :
  readVarUint (decoder_of [x81; x01; x41]) =
    Ret 129 (advance (decoder_of [x81; x01; x41]) 2)
  /\ peekVarUint (decoder_of [x81; x01; x41]) =
       Ret 129 (decoder_of [x81; x01; x41])
  /\ readVarString decodeAscii (decoder_of [x02; x68; x69]) =
       Ret "hi"%string (advance (decoder_of [x02; x68; x69]) 3)
  /\ peekVarString decodeAscii (decoder_of [x02; x68; x69]) =
       Ret "hi"%string (decoder_of [x02; x68; x69])
  /\ readVarUint (decoder_of [x80; x80]) =
       Throw IntegerOutOfRange (advance (decoder_of [x80; x80]) 6)
  /\ peekVarUint (decoder_of [x80; x80]) =
       Throw IntegerOutOfRange (advance (decoder_of [x80; x80]) 6)
  /\ readVarString decodeAscii (decoder_of [x03; x68; x69]) =
       Throw BufferUnderrun (advance (decoder_of [x03; x68; x69]) 1)
  /\ peekVarString decodeAscii (decoder_of [x03; x68; x69]) =
       Throw BufferUnderrun (advance (decoder_of [x03; x68; x69]) 1).
Proof.
  split; [reflexivity|]. split.
  { exact (proj1 (peeks_restore_after_success decodeAscii
                    (decoder_of [x81; x01; x41])) _ _ eq_refl). }
  split; [reflexivity|]. split.
  { exact (proj1 (proj2 (peeks_restore_after_success decodeAscii
                    (decoder_of [x02; x68; x69]))) _ _ eq_refl). }
  split; [reflexivity|]. split.
  { exact (proj1 (proj2 (proj2 (peeks_restore_after_success decodeAscii
                    (decoder_of [x80; x80])))) _ _ eq_refl). }
  split; [reflexivity|].
  exact (proj2 (proj2 (proj2 (peeks_restore_after_success decodeAscii
                  (decoder_of [x03; x68; x69])))) _ _ eq_refl).
Defined.

(** C7.  The peeks are documented as reading without incrementing the
    position, and they save the position and assign it back; but the
    assignment comes after the read and is skipped when the read throws.
    Six continued bytes make [readVarUint] throw after it has moved the
    cursor six bytes on, and [peekVarUint] leaves it there; a declared
    length of 5 with one byte to follow makes [readVarString] throw behind
    the length prefix, and [peekVarString] leaves the cursor behind the
    prefix.  Both decoders started at position 0. *)
Lemma peek_after_failure :
  peekVarUint (decoder_of [x80; x80; x80; x80; x80; x80]) =
    Throw IntegerOutOfRange
      (mkDecoder (Uint8Array_from [x80; x80; x80; x80; x80; x80]) 6)
  /\ pos (decoder_of [x80; x80; x80; x80; x80; x80]) = 0
  /\ peekVarString decodeAscii (decoder_of [x05; x41]) =
       Throw BufferUnderrun (mkDecoder (Uint8Array_from [x05; x41]) 1)
  /\ pos (decoder_of [x05; x41]) = 0.
Proof. repeat split; reflexivity. Qed.

Lemma position_never_negative_witness :
  Forall op_nonneg
    [OpReadUint8; OpClone None; OpPeekVarString; OpReadAny;
     OpClone (Some 1); OpReadVarInt; OpSkip8]
  /\ 0 <= pos (exec_ops decodeAscii inherited_refused
                 [OpReadUint8; OpClone None; OpPeekVarString; OpReadAny;
                  OpClone (Some 1); OpReadVarInt; OpSkip8]
                 (createDecoder (Uint8Array_from [x01; x75; x00]))).
Proof.
  assert (H : Forall op_nonneg
                [OpReadUint8; OpClone None; OpPeekVarString; OpReadAny;
                 OpClone (Some 1); OpReadVarInt; OpSkip8]).
  { repeat constructor. simpl. lia. }
  split; [exact H|].
  exact (proj1 (proj2 (position_never_negative decodeAscii inherited_refused _
                         (Uint8Array_from [x01; x75; x00]) H))).
Defined.

(** C9 as stated fails.  Two [readUint8] on a one-byte array leave the
    position at 2, above the length 1; and [clone] takes any position it is
    given. *)
Lemma position_past_the_end :
  pos (exec_ops decodeAscii inherited_refused [OpReadUint8; OpReadUint8]
         (createDecoder (Uint8Array_from [x07]))) = 2
  /\ length (arr (exec_ops decodeAscii inherited_refused
                    [OpReadUint8; OpReadUint8]
                    (createDecoder (Uint8Array_from [x07])))) = 1
  /\ ~ (pos (exec_ops decodeAscii inherited_refused [OpReadUint8; OpReadUint8]
               (createDecoder (Uint8Array_from [x07])))
        <= length (arr (exec_ops decodeAscii inherited_refused
                          [OpReadUint8; OpReadUint8]
                          (createDecoder (Uint8Array_from [x07])))))
  /\ pos (exec_ops decodeAscii inherited_refused [OpClone (Some (-1))]
            (createDecoder (Uint8Array_from [x07]))) = -1.
Proof.
  split; [reflexivity|]. split; [reflexivity|]. split; [|reflexivity].
  simpl. lia.
Qed.

(** ** Fuel: more of it changes no result *)

Lemma Refines_refl {A} (m : M A) : Refines m m.
Proof. intros d _. reflexivity. Qed.

Lemma Refines_bind {A B} (m1 m2 : M A) (k1 k2 : A -> M B) :
  Refines m1 m2 -> (forall a, Refines (k1 a) (k2 a)) ->
  Refines (bind m1 k1) (bind m2 k2).
Proof.
  intros Hm Hk d. unfold bind. specialize (Hm d).
  destruct (m1 d) as [a d'|e d'|].
  - rewrite Hm by discriminate. apply Hk.
  - rewrite Hm by discriminate. reflexivity.
  - intros H. now contradiction H.
Qed.

Lemma Refines_for_loop {S} (body1 body2 : S -> M S) :
  (forall s, Refines (body1 s) (body2 s)) ->
  forall f1 f2 i len s,
    (f1 <= f2)%nat ->
    Refines (for_loop f1 i len body1 s) (for_loop f2 i len body2 s).
Proof.
  intros Hb. induction f1 as [|f1 IH]; intros f2 i len s Hf.
  - intros d. destruct f2; cbn [for_loop]; destruct (i <? len);
      try reflexivity; intros H; now contradiction H.
  - destruct f2 as [|f2]; [lia|]. cbn [for_loop].
    destruct (i <? len); [|apply Refines_refl].
    apply Refines_bind; [apply Hb|]. intros s'. apply IH. lia.
Qed.

Lemma table_get_Forall2 {A} (P : A -> A -> Prop) t1 t2 idx :
  Forall2 P t1 t2 ->
  match table_get t1 idx, table_get t2 idx with
  | Some a, Some b => P a b
  | None, None => True
  | _, _ => False
  end.
Proof.
  intros H.
  assert (G : forall n, match nth_error t1 n, nth_error t2 n with
                        | Some a, Some b => P a b
                        | None, None => True
                        | _, _ => False
                        end).
  { induction H as [|a b t1 t2 Hab _ IH]; intros [|n];
      cbn [nth_error]; try exact I; try assumption. apply IH. }
  unfold table_get. destruct idx as [| | |z]; try exact I; [apply G|].
  destruct (0 <=? z); [apply G|exact I].
Qed.

Section FuelStable.

Variable decodeUtf8 : list byte -> option string.
Variable inherited_set : any -> string -> any -> set_effect.

Lemma Refines_readAny_body f1 f2 R1 R2 :
  (f1 <= f2)%nat -> Refines R1 R2 ->
  Refines (readAny_body decodeUtf8 inherited_set f1 R1)
          (readAny_body decodeUtf8 inherited_set f2 R2).
Proof.
  intros Hf HR. unfold readAny_body.
  apply Refines_bind; [apply Refines_refl|]. intros tag.
  assert (T : Forall2 Refines
                (readAnyLookupTable decodeUtf8 inherited_set f1 R1)
                (readAnyLookupTable decodeUtf8 inherited_set f2 R2)).
  { unfold readAnyLookupTable.
    repeat (apply Forall2_cons; [try apply Refines_refl|]);
      [| |apply Forall2_nil].
    - apply Refines_bind; [apply Refines_refl|]. intros len.
      apply Refines_bind; [|intros; apply Refines_refl].
      apply Refines_for_loop; [|exact Hf]. intros s.
      unfold readObject_body.
      apply Refines_bind; [apply Refines_refl|]. intros key.
      apply Refines_bind; [exact HR|]. intros; apply Refines_refl.
    - apply Refines_bind; [apply Refines_refl|]. intros len.
      apply Refines_bind; [|intros; apply Refines_refl].
      apply Refines_for_loop; [|exact Hf]. intros s.
      unfold readArray_body.
      apply Refines_bind; [exact HR|]. intros; apply Refines_refl. }
  pose proof (table_get_Forall2 Refines _ _ (js_sub (JInt 127) tag) T) as G.
  destruct (table_get (readAnyLookupTable decodeUtf8 inherited_set f1 R1) _),
           (table_get (readAnyLookupTable decodeUtf8 inherited_set f2 R2) _);
    try contradiction; [exact G|apply Refines_refl].
Qed.

Lemma readAny_fuel_stable f1 :
  forall f2, (f1 <= f2)%nat ->
  Refines (readAny_fuel decodeUtf8 inherited_set f1)
          (readAny_fuel decodeUtf8 inherited_set f2).
Proof.
  induction f1 as [|f1 IH]; intros f2 Hf.
  - intros d H. now contradiction H.
  - destruct f2 as [|f2]; [lia|]. cbn [readAny_fuel].
    apply Refines_readAny_body; [lia|]. apply IH. lia.
Qed.

End FuelStable.

(** ** Fuel: one unit per remaining byte is enough *)

Lemma Total_ret {A} (a : A) : Total (ret a).
Proof. intros d. discriminate. Qed.

Lemma Total_throw {A} e : Total (@throw A e).
Proof. intros d. discriminate. Qed.

Lemma Total_bind {A B} (m : M A) (k : A -> M B) :
  Total m -> (forall a, Total (k a)) -> Total (bind m k).
Proof.
  intros Hm Hk d. unfold bind. specialize (Hm d).
  destruct (m d) as [a d'| |]; try discriminate; [apply Hk|].
  now contradiction Hm.
Qed.

Lemma Total_consumes {A} (m : M A) lo hi :
  (forall d, consumes lo hi d (m d)) -> Total m.
Proof. intros H d E. specialize (H d). rewrite E in H. exact H. Qed.

Lemma Total_readVarUint : Total readVarUint.
Proof. exact (Total_consumes _ _ _ readVarUint_consumes). Qed.

Lemma Total_readVarInt : Total readVarInt.
Proof. exact (Total_consumes _ _ _ readVarInt_consumes). Qed.

Lemma Total_readUint8Array len : Total (readUint8Array len).
Proof.
  intros d. unfold readUint8Array. run.
  destruct (Buffer.createUint8ArrayViewFromArrayBuffer _ _ _); discriminate.
Qed.

Lemma Total_readFromDataView len : Total (readFromDataView len).
Proof.
  intros d. unfold readFromDataView. run.
  destruct (_ && _); discriminate.
Qed.

Lemma Total_readUint8 : Total readUint8.
Proof. intros d. discriminate. Qed.

Lemma Total_obj_put inherited_set obj key v :
  Total (obj_put inherited_set obj key v).
Proof.
  unfold obj_put. destruct (obj_set _ _ _ _);
    [apply Total_ret|apply Total_throw].
Qed.

Lemma obj_put_Ret inherited_set obj key v obj' d d' :
  obj_put inherited_set obj key v d = Ret obj' d' ->
  obj_set inherited_set obj key v = Some obj' /\ d' = d.
Proof.
  unfold obj_put. destruct (obj_set _ _ _ _); [|discriminate].
  intros H. injection H as <- <-. split; reflexivity.
Qed.

Create HintDb total.
#[local] Hint Resolve Total_ret Total_throw Total_readVarUint
  Total_readVarInt Total_readUint8Array Total_readFromDataView
  Total_readUint8 Total_obj_put : total.

Ltac total_step :=
  match goal with
  | |- Total (bind _ _) => apply Total_bind; [|intros ?]
  | |- Total (match ?x with _ => _ end) => destruct x
  | |- Total _ => solve [auto with total]
  end.

Ltac total_all := repeat total_step.

Lemma Total_readVarUint8Array : Total readVarUint8Array.
Proof. unfold readVarUint8Array. total_all. Qed.

Lemma Total_readFloat32 : Total readFloat32.
Proof. unfold readFloat32. total_all. Qed.

Lemma Total_readFloat64 : Total readFloat64.
Proof. unfold readFloat64. total_all. Qed.

Lemma Total_readBigInt64 : Total readBigInt64.
Proof. unfold readBigInt64. total_all. Qed.

#[local] Hint Resolve Total_readVarUint8Array Total_readFloat32
  Total_readFloat64 Total_readBigInt64 : total.

Lemma bind_Ret {A B} (m : M A) (k : A -> M B) d b d' :
  bind m k d = Ret b d' ->
  exists a d1, m d = Ret a d1 /\ k a d1 = Ret b d'.
Proof.
  unfold bind. destruct (m d) as [a d1| |]; try discriminate.
  intros H. exists a, d1. split; [reflexivity|exact H].
Qed.

Lemma bind_not_OutOfFuel {A B} (m : M A) (k : A -> M B) d :
  m d <> OutOfFuel ->
  (forall a d1, m d = Ret a d1 -> k a d1 <> OutOfFuel) ->
  bind m k d <> OutOfFuel.
Proof.
  intros Hm Hk. unfold bind.
  destruct (m d) as [a d1| |]; try discriminate; [now apply Hk|].
  now contradiction Hm.
Qed.

Lemma remaining_forward {A} d (r : outcome A) a d' :
  forward d r -> r = Ret a d' -> (remaining d' <= remaining d)%nat.
Proof.
  intros H ->. destruct H as [Ha Hp]. unfold remaining. rewrite Ha. lia.
Qed.

Lemma arr_get_cases a i :
  arr_get a i = JUndefined \/ exists b, arr_get a i = JInt b.
Proof.
  unfold arr_get. destruct (_ && _); [|now left].
  destruct (nth_error _ _) as [b|]; [right; now exists (byte_val b)|now left].
Qed.

Lemma for_loop_enough {S} (body : S -> M S) (bound : nat) :
  (forall s d, (remaining d < bound)%nat -> body s d <> OutOfFuel) ->
  (forall s d s' d', body s d = Ret s' d' ->
                     (remaining d' < remaining d)%nat) ->
  forall fuel i len s d,
    (remaining d < fuel)%nat -> (remaining d < bound)%nat ->
    for_loop fuel i len body s d <> OutOfFuel.
Proof.
  intros Hb Hdec. induction fuel as [|fuel IH]; intros i len s d Hf Hbd;
    [lia|].
  cbn [for_loop]. destruct (i <? len); [|discriminate].
  apply bind_not_OutOfFuel; [now apply Hb|].
  intros s' d1 E. apply Hdec in E. apply IH; lia.
Qed.

Section FuelEnough.

Variable decodeUtf8 : list byte -> option string.
Variable inherited_set : any -> string -> any -> set_effect.

Lemma Total_readVarString : Total (readVarString decodeUtf8).
Proof. unfold readVarString. total_all. Qed.

(** What [readAny_body] does once the tag byte is known. *)
Lemma readAny_body_dispatch fuel R d :
  readAny_body decodeUtf8 inherited_set fuel R d =
  match table_get (readAnyLookupTable decodeUtf8 inherited_set fuel R)
                  (js_sub (JInt 127) (arr_get (arr d) (pos d))) with
  | Some f => f (advance d 1)
  | None => Throw UnknownTag (advance d 1)
  end.
Proof.
  unfold readAny_body, readUint8. run.
  destruct (table_get _ _); reflexivity.
Qed.

Lemma readAny_body_returns fuel R d v d' :
  Forward R ->
  readAny_body decodeUtf8 inherited_set fuel R d = Ret v d' ->
  (remaining d' < remaining d)%nat.
Proof.
  intros HR. rewrite readAny_body_dispatch.
  destruct (arr_get_cases (arr d) (pos d)) as [E | [b E]]; rewrite E.
  - discriminate.
  - apply arr_get_inside in E.
    destruct (table_get _ _) as [g|] eqn:G; [|discriminate].
    apply table_get_In in G.
    pose proof (readAnyLookupTable_Forward decodeUtf8 inherited_set _ _ _
                  HR G (advance d 1)) as F.
    intros H. rewrite H in F. destruct F as [Ha Hp].
    unfold remaining. rewrite Ha. cbn [advance arr pos] in *. lia.
Qed.

Lemma readAny_fuel_returns fuel d v d' :
  readAny_fuel decodeUtf8 inherited_set fuel d = Ret v d' ->
  (remaining d' < remaining d)%nat.
Proof.
  destruct fuel as [|fuel]; [discriminate|]. cbn [readAny_fuel].
  apply readAny_body_returns, Forward_readAny_fuel.
Qed.

Lemma readObject_body_returns R obj d obj' d' :
  (forall d v d', R d = Ret v d' -> (remaining d' < remaining d)%nat) ->
  readObject_body decodeUtf8 inherited_set R obj d = Ret obj' d' ->
  (remaining d' < remaining d)%nat.
Proof.
  intros HR H. unfold readObject_body in H.
  apply bind_Ret in H. destruct H as (key & d1 & H1 & H).
  apply bind_Ret in H. destruct H as (v & d2 & H2 & H).
  apply obj_put_Ret in H. destruct H as [_ ->].
  apply HR in H2.
  pose proof (remaining_forward d _ key d1
                (Forward_readVarString decodeUtf8 d) H1). lia.
Qed.

Lemma readArray_body_returns R (items : list any) d items' d' :
  (forall d v d', R d = Ret v d' -> (remaining d' < remaining d)%nat) ->
  readArray_body R items d = Ret items' d' ->
  (remaining d' < remaining d)%nat.
Proof.
  intros HR H. unfold readArray_body in H.
  apply bind_Ret in H. destruct H as (v & d2 & H2 & H).
  injection H as _ <-. now apply HR in H2.
Qed.

Lemma readObject_body_enough R bound obj d :
  (forall d, (remaining d < bound)%nat -> R d <> OutOfFuel) ->
  (remaining d < bound)%nat ->
  readObject_body decodeUtf8 inherited_set R obj d <> OutOfFuel.
Proof.
  intros HR Hd. unfold readObject_body.
  apply bind_not_OutOfFuel; [apply Total_readVarString|].
  intros key d1 H1.
  pose proof (remaining_forward d _ key d1
                (Forward_readVarString decodeUtf8 d) H1).
  apply bind_not_OutOfFuel; [apply HR; lia|].
  intros v d2 _. apply Total_obj_put.
Qed.

Lemma readArray_body_enough R bound (items : list any) d :
  (forall d, (remaining d < bound)%nat -> R d <> OutOfFuel) ->
  (remaining d < bound)%nat ->
  readArray_body R items d <> OutOfFuel.
Proof.
  intros HR Hd. unfold readArray_body.
  apply bind_not_OutOfFuel; [apply HR; lia|]. discriminate.
Qed.

Lemma readAny_fuel_enough fuel :
  forall d, (remaining d < fuel)%nat ->
            readAny_fuel decodeUtf8 inherited_set fuel d <> OutOfFuel.
Proof.
  induction fuel as [|fuel IH]; intros d Hd; [lia|].
  cbn [readAny_fuel]. rewrite readAny_body_dispatch.
  destruct (arr_get_cases (arr d) (pos d)) as [E | [b E]]; rewrite E.
  - discriminate.
  - apply arr_get_inside in E.
    assert (H1 : (remaining (advance d 1) < fuel)%nat).
    { unfold remaining in *. cbn [advance arr pos]. lia. }
    destruct (table_get _ _) as [g|] eqn:G; [|discriminate].
    apply table_get_In in G.
    pose proof Total_readVarString as Ts.
    cbn [readAnyLookupTable In] in G.
    repeat (destruct G as [<- | G];
            [try (apply Total_bind; [auto with total|intros; auto with total];
                  fail);
             try discriminate|]);
      [| |contradiction].
    + apply bind_not_OutOfFuel; [apply Total_readVarUint|].
      intros len d2 H2.
      pose proof (remaining_forward _ _ len d2
                    (Forward_readVarUint (advance d 1)) H2).
      apply bind_not_OutOfFuel; [|discriminate].
      apply for_loop_enough with (bound := fuel); try lia.
      * intros s d0. now apply readObject_body_enough.
      * intros s d0 s' d0'. apply readObject_body_returns.
        apply readAny_fuel_returns.
    + apply bind_not_OutOfFuel; [apply Total_readVarUint|].
      intros len d2 H2.
      pose proof (remaining_forward _ _ len d2
                    (Forward_readVarUint (advance d 1)) H2).
      apply bind_not_OutOfFuel; [|discriminate].
      apply for_loop_enough with (bound := fuel); try lia.
      * intros s d0. now apply readArray_body_enough.
      * intros s d0 s' d0'. apply readArray_body_returns.
        apply readAny_fuel_returns.
Qed.

Lemma Total_readAny : Total (readAny decodeUtf8 inherited_set).
Proof. intros d. apply readAny_fuel_enough. lia. Qed.

Lemma readAny_fuel_readAny fuel :
  Refines (readAny_fuel decodeUtf8 inherited_set fuel)
          (readAny decodeUtf8 inherited_set).
Proof.
  intros d H. unfold readAny.
  destruct (Nat.le_gt_cases fuel (S (remaining d))) as [Hle | Hgt].
  - now apply (readAny_fuel_stable decodeUtf8 inherited_set fuel).
  - symmetry.
    apply (readAny_fuel_stable decodeUtf8 inherited_set (S (remaining d)));
      [lia|]. apply readAny_fuel_enough. lia.
Qed.

Lemma readAny_returns d v d' :
  readAny decodeUtf8 inherited_set d = Ret v d' ->
  (remaining d' < remaining d)%nat.
Proof. apply readAny_fuel_returns. Qed.

End FuelEnough.

Lemma for_loop_fuel_irrelevant {S} (body : S -> M S) :
  (forall s, Total (body s)) ->
  (forall s d s' d', body s d = Ret s' d' ->
                     (remaining d' < remaining d)%nat) ->
  forall f1 f2 i len s d,
    (remaining d < f1)%nat -> (remaining d < f2)%nat ->
    for_loop f1 i len body s d = for_loop f2 i len body s d.
Proof.
  intros Ht Hdec f1 f2 i len s d H1 H2.
  assert (E : forall f, (remaining d < f)%nat ->
                        for_loop f i len body s d <> OutOfFuel).
  { intros f Hf. apply for_loop_enough with (bound := f); try assumption.
    intros s0 d0 _. apply Ht. }
  destruct (Nat.le_ge_cases f1 f2) as [Hle | Hge].
  - symmetry. apply (Refines_for_loop body body); auto using Refines_refl.
  - apply (Refines_for_loop body body); auto using Refines_refl.
Qed.

Lemma readVarUint_loop_range fuel :
  forall num len d n d',
    readVarUint_loop fuel num len d = Ret n d' ->
    0 <= n < 2 ^ 32.
Proof.
  induction fuel as [|fuel IH]; intros num len d n d' H; [discriminate|].
  rewrite readVarUint_loop_step in H. cbv zeta in H.
  destruct (js_lt _ _).
  - injection H as <- _. rewrite ushr_0. unfold ToUint32.
    change (2 ^ 32) with two32. apply Z.mod_pos_bound. reflexivity.
  - destruct (len + 7 >? 35); [discriminate|]. eapply IH, H.
Qed.

(** ** Own properties *)

Lemma has_own_In props key :
  has_own props key = true <-> In key (map fst props).
Proof.
  unfold has_own. rewrite existsb_exists. split.
  - intros ([k w] & Hin & E). apply String.eqb_eq in E. cbn [fst] in E.
    subst k. apply (in_map fst) in Hin. exact Hin.
  - intros H. apply in_map_iff in H. destruct H as ([k w] & E & Hin).
    cbn [fst] in E. subst k. exists (key, w).
    split; [exact Hin|apply String.eqb_refl].
Qed.

Lemma has_own_not_In props key :
  has_own props key = false <-> ~ In key (map fst props).
Proof.
  rewrite <- has_own_In. destruct (has_own props key); split; intros H;
    try congruence; try discriminate.
Qed.

Lemma set_own_keys props key v :
  map fst (set_own props key v) = map fst props.
Proof.
  induction props as [|[k w] rest IH]; [reflexivity|].
  cbn [set_own]. destruct (String.eqb k key); [reflexivity|].
  cbn [map fst]. now rewrite IH.
Qed.

Lemma get_own_set_own props key v :
  has_own props key = true ->
  get_own (set_own props key v) key = Some v
  /\ (forall k, k <> key -> get_own (set_own props key v) k = get_own props k).
Proof.
  induction props as [|[k w] rest IH]; [discriminate|].
  unfold has_own. cbn [existsb fst set_own].
  destruct (String.eqb k key) eqn:E.
  - intros _. apply String.eqb_eq in E. subst k. cbn [get_own].
    rewrite String.eqb_refl. split; [reflexivity|]. intros k Hk.
    apply not_eq_sym, String.eqb_neq in Hk. now rewrite Hk.
  - cbn [orb]. intros H. apply IH in H. destruct H as [H1 H2].
    cbn [get_own]. rewrite E. split; [exact H1|]. intros k0 Hk.
    destruct (String.eqb k k0); [reflexivity|]. now apply H2.
Qed.

Lemma get_own_None props key :
  has_own props key = false -> get_own props key = None.
Proof.
  induction props as [|[k w] rest IH]; [reflexivity|].
  unfold has_own. cbn [existsb fst get_own].
  destruct (String.eqb k key); [discriminate|]. exact IH.
Qed.

Lemma get_own_app props key v :
  has_own props key = false ->
  get_own (props ++ [(key, v)]) key = Some v
  /\ (forall k, k <> key ->
      get_own (props ++ [(key, v)]) k = get_own props k).
Proof.
  induction props as [|[k w] rest IH].
  - intros _. cbn [app get_own]. rewrite String.eqb_refl.
    split; [reflexivity|]. intros k Hk.
    apply not_eq_sym, String.eqb_neq in Hk. now rewrite Hk.
  - unfold has_own. cbn [existsb fst app get_own].
    destruct (String.eqb k key) eqn:E; [discriminate|].
    cbn [orb]. intros H. apply IH in H. destruct H as [H1 H2].
    split; [exact H1|]. intros k0 Hk.
    destruct (String.eqb k k0); [reflexivity|]. now apply H2.
Qed.

Lemma get_own_cons props key v :
  get_own ((key, v) :: props) key = Some v
  /\ (forall k, k <> key -> get_own ((key, v) :: props) k = get_own props k).
Proof.
  cbn [get_own]. rewrite String.eqb_refl. split; [reflexivity|].
  intros k Hk. apply not_eq_sym, String.eqb_neq in Hk. now rewrite Hk.
Qed.

Lemma get_own_insert_index props key m v :
  has_own props key = false ->
  get_own (insert_index props key m v) key = Some v
  /\ (forall k, k <> key ->
      get_own (insert_index props key m v) k = get_own props k).
Proof.
  induction props as [|[k w] rest IH].
  - intros _. apply (get_own_cons [] key v).
  - unfold has_own. cbn [existsb fst insert_index].
    destruct (String.eqb k key) eqn:E; [discriminate|].
    cbn [orb]. intros H.
    destruct (array_index k) as [m'|]; [|apply get_own_cons].
    destruct (m' <? m)%N; [|apply get_own_cons].
    apply IH in H. destruct H as [H1 H2].
    cbn [get_own]. rewrite E. split; [exact H1|]. intros k0 Hk.
    destruct (String.eqb k k0); [reflexivity|]. now apply H2.
Qed.

Lemma get_own_add_own props key v :
  has_own props key = false ->
  get_own (add_own props key v) key = Some v
  /\ (forall k, k <> key -> get_own (add_own props key v) k = get_own props k).
Proof.
  unfold add_own. destruct (array_index key);
    [apply get_own_insert_index|apply get_own_app].
Qed.

Lemma insert_index_keys props key m v x :
  In x (map fst (insert_index props key m v)) <->
  x = key \/ In x (map fst props).
Proof.
  induction props as [|[k w] rest IH].
  - cbn. intuition congruence.
  - cbn [insert_index].
    destruct (array_index k) as [m'|];
      [destruct (m' <? m)%N|]; cbn [map fst In] in *;
      intuition congruence.
Qed.

Lemma insert_index_NoDup props key m v :
  ~ In key (map fst props) -> NoDup (map fst props) ->
  NoDup (map fst (insert_index props key m v)).
Proof.
  induction props as [|[k w] rest IH]; intros Hk Hn.
  - cbn. constructor; [intros []|constructor].
  - cbn [insert_index].
    assert (C : NoDup (map fst ((key, v) :: (k, w) :: rest)))
      by (cbn [map fst] in *; now constructor).
    destruct (array_index k) as [m'|]; [|exact C].
    destruct (m' <? m)%N; [|exact C].
    cbn [map fst] in *. inversion Hn as [|? ? Hk' Hn']; subst.
    constructor.
    + rewrite insert_index_keys. intros [-> | H]; [|contradiction].
      apply Hk. now left.
    + apply IH; [|exact Hn']. intros H. apply Hk. now right.
Qed.

Lemma insert_index_length props key m v :
  List.length (insert_index props key m v) = S (List.length props).
Proof.
  induction props as [|[k w] rest IH]; [reflexivity|].
  cbn [insert_index].
  destruct (array_index k) as [m'|]; [|reflexivity].
  destruct (m' <? m)%N; [|reflexivity].
  cbn [List.length]. now rewrite IH.
Qed.

Lemma add_own_NoDup props key v :
  has_own props key = false -> NoDup (map fst props) ->
  NoDup (map fst (add_own props key v))
  /\ List.length (add_own props key v) = S (List.length props).
Proof.
  intros H Hn. apply has_own_not_In in H. unfold add_own.
  destruct (array_index key) as [m|].
  - split; [now apply insert_index_NoDup|apply insert_index_length].
  - split.
    + rewrite map_app. apply NoDup_app; [exact Hn| |].
      * cbn. constructor; [intros []|constructor].
      * intros x Hx [<- | []]. contradiction.
    + rewrite length_app. cbn [List.length]. lia.
Qed.

(** An assignment keeps the keys of the own properties pairwise different
    and adds at most one property. *)
Lemma obj_set_own_keys inherited_set obj key v obj' :
  obj_set inherited_set obj key v = Some obj' ->
  NoDup (map fst (snd obj)) ->
  NoDup (map fst (snd obj'))
  /\ (List.length (snd obj') <= S (List.length (snd obj)))%nat.
Proof.
  destruct obj as [proto props]. unfold obj_set. cbn [snd].
  intros H Hn.
  assert (A : NoDup (map fst (add_own props key v))
              /\ (List.length (add_own props key v)
                  <= S (List.length props))%nat
              \/ has_own props key = true).
  { destruct (has_own props key) eqn:E; [now right|left].
    destruct (add_own_NoDup props key v E Hn) as [H1 H2].
    split; [exact H1|lia]. }
  assert (K : NoDup (map fst props)
              /\ (List.length props <= S (List.length props))%nat)
    by (split; [exact Hn|lia]).
  destruct (has_own props key) eqn:E.
  - injection H as <-. cbn [snd]. rewrite set_own_keys.
    split; [exact Hn|].
    rewrite <- (length_map fst (set_own props key v)), set_own_keys,
      length_map. lia.
  - destruct A as [A | A]; [|discriminate].
    destruct proto as [p|].
    + destruct p;
        try (destruct (inherited_set _ key v); try discriminate);
        injection H as <-; cbn [snd]; assumption.
    + destruct (String.eqb key "__proto__");
        [destruct (is_object v || is_null v)|];
        injection H as <-; cbn [snd]; assumption.
Qed.

(** Assignments of pairwise different keys that are neither [__proto__] nor
    array indices define the properties in the order of the
    assignments. *)
Lemma assign_all_ordinary inherited_set pairs :
  forall props,
    NoDup (map fst (props ++ pairs)) ->
    forallb ordinary_key (map fst pairs) = true ->
    assign_all inherited_set (None, props) pairs = Some (None, props ++ pairs).
Proof.
  induction pairs as [|[k v] rest IH]; intros props Hn Ho.
  - now rewrite app_nil_r.
  - cbn [map fst forallb] in Ho. apply andb_true_iff in Ho.
    destruct Ho as [Hk Ho]. unfold ordinary_key in Hk.
    apply andb_true_iff in Hk. destruct Hk as [Hp Hi].
    apply negb_true_iff in Hp.
    assert (E : has_own props k = false).
    { apply has_own_not_In. intros H.
      rewrite map_app in Hn. cbn [map fst] in Hn.
      apply NoDup_remove_2 in Hn. apply Hn, in_or_app. now left. }
    cbn [assign_all]. unfold obj_set. rewrite E, Hp.
    unfold add_own. destruct (array_index k); [discriminate|].
    replace (props ++ (k, v) :: rest) with ((props ++ [(k, v)]) ++ rest)
      by (rewrite <- app_assoc; reflexivity).
    apply IH; [|exact Ho]. now rewrite <- app_assoc.
Qed.

Section Dispatch.

Variable decodeUtf8 : list byte -> option string.
Variable inherited_set : any -> string -> any -> set_effect.

Lemma Total_readObject_body obj :
  Total (readObject_body decodeUtf8 inherited_set
           (readAny decodeUtf8 inherited_set) obj).
Proof.
  intros d. apply readObject_body_enough with (bound := S (remaining d)).
  - intros d0 _. apply Total_readAny.
  - lia.
Qed.

Lemma Total_readArray_body items :
  Total (readArray_body (readAny decodeUtf8 inherited_set) items).
Proof.
  intros d. apply readArray_body_enough with (bound := S (remaining d)).
  - intros d0 _. apply Total_readAny.
  - lia.
Qed.

(** The loops, one round at a time. *)
Lemma readObject_loop_eq i len obj d :
  readObject_loop decodeUtf8 inherited_set i len obj d =
  if i <? len then
    (key <- readVarString decodeUtf8 ;;
     v <- readAny decodeUtf8 inherited_set ;;
     obj' <- obj_put inherited_set obj key v ;;
     readObject_loop decodeUtf8 inherited_set (i + 1) len obj') d
  else Ret obj d.
Proof.
  unfold readObject_loop at 1. cbn [for_loop].
  destruct (i <? len); [|reflexivity].
  unfold readObject_body at 1. unfold bind.
  destruct (readVarString decodeUtf8 d) as [key d1| |] eqn:E1;
    try reflexivity.
  destruct (readAny decodeUtf8 inherited_set d1) as [v d2| |] eqn:E2;
    try reflexivity.
  unfold obj_put.
  destruct (obj_set inherited_set obj key v) as [obj'|]; [|reflexivity].
  unfold ret, readObject_loop.
  apply for_loop_fuel_irrelevant.
  - apply Total_readObject_body.
  - intros s d0 s' d0'. apply readObject_body_returns, readAny_returns.
  - apply readAny_returns in E2.
    pose proof (remaining_forward d _ key d1
                  (Forward_readVarString decodeUtf8 d) E1). lia.
  - lia.
Qed.

Lemma readArray_loop_eq i len items d :
  readArray_loop decodeUtf8 inherited_set i len items d =
  if i <? len then
    (v <- readAny decodeUtf8 inherited_set ;;
     readArray_loop decodeUtf8 inherited_set (i + 1) len (items ++ [v])) d
  else Ret items d.
Proof.
  unfold readArray_loop at 1. cbn [for_loop].
  destruct (i <? len); [|reflexivity].
  unfold readArray_body at 1. unfold bind.
  destruct (readAny decodeUtf8 inherited_set d) as [v d2| |] eqn:E2;
    try reflexivity.
  unfold ret, readArray_loop.
  apply for_loop_fuel_irrelevant.
  - apply Total_readArray_body.
  - intros s d0 s' d0'. apply readArray_body_returns, readAny_returns.
  - apply readAny_returns in E2. lia.
  - lia.
Qed.

Lemma readPair_body_returns pairs d pairs' d' :
  readPair_body decodeUtf8 (readAny decodeUtf8 inherited_set) pairs d
    = Ret pairs' d' ->
  (remaining d' < remaining d)%nat.
Proof.
  intros H. unfold readPair_body in H.
  apply bind_Ret in H. destruct H as (key & d1 & H1 & H).
  apply bind_Ret in H. destruct H as (v & d2 & H2 & H).
  injection H as _ <-.
  apply readAny_returns in H2.
  pose proof (remaining_forward d _ key d1
                (Forward_readVarString decodeUtf8 d) H1). lia.
Qed.

Lemma Total_readPair_body pairs :
  Total (readPair_body decodeUtf8 (readAny decodeUtf8 inherited_set) pairs).
Proof.
  unfold readPair_body.
  apply Total_bind; [apply Total_readVarString|]. intros key.
  apply Total_bind; [apply Total_readAny|]. intros v. apply Total_ret.
Qed.

Lemma readPairs_loop_eq i len pairs d :
  readPairs_loop decodeUtf8 inherited_set i len pairs d =
  if i <? len then
    (key <- readVarString decodeUtf8 ;;
     v <- readAny decodeUtf8 inherited_set ;;
     readPairs_loop decodeUtf8 inherited_set (i + 1) len
       (pairs ++ [(key, v)])) d
  else Ret pairs d.
Proof.
  unfold readPairs_loop at 1. cbn [for_loop].
  destruct (i <? len); [|reflexivity].
  unfold readPair_body at 1. unfold bind.
  destruct (readVarString decodeUtf8 d) as [key d1| |] eqn:E1;
    try reflexivity.
  destruct (readAny decodeUtf8 inherited_set d1) as [v d2| |] eqn:E2;
    try reflexivity.
  unfold ret, readPairs_loop.
  apply for_loop_fuel_irrelevant.
  - apply Total_readPair_body.
  - intros s d0 s' d0'. apply readPair_body_returns.
  - apply readAny_returns in E2.
    pose proof (remaining_forward d _ key d1
                  (Forward_readVarString decodeUtf8 d) E1). lia.
  - lia.
Qed.

(** The object loop makes the assignments for the pairs on the wire, in
    their order, and ends where the last pair ends. *)
Lemma readObject_loop_pairs k :
  forall i len obj pairs d,
    Z.to_nat (len - i) = k ->
    (forall all d',
        readPairs_loop decodeUtf8 inherited_set i len pairs d = Ret all d' ->
        exists rest,
          all = pairs ++ rest
          /\ Z.of_nat (List.length rest) = Z.max 0 (len - i)
          /\ match assign_all inherited_set obj rest with
             | Some obj' =>
                 readObject_loop decodeUtf8 inherited_set i len obj d
                 = Ret obj' d'
             | None =>
                 exists d'',
                   readObject_loop decodeUtf8 inherited_set i len obj d
                   = Throw AssignmentRefused d''
             end)
    /\ (forall obj' d',
        readObject_loop decodeUtf8 inherited_set i len obj d = Ret obj' d' ->
        exists rest,
          readPairs_loop decodeUtf8 inherited_set i len pairs d
          = Ret (pairs ++ rest) d'
          /\ Z.of_nat (List.length rest) = Z.max 0 (len - i)
          /\ assign_all inherited_set obj rest = Some obj').
Proof.
  induction k as [|k IH]; intros i len obj pairs d Hk;
    rewrite readObject_loop_eq, readPairs_loop_eq.
  - replace (i <? len) with false by (symmetry; apply Z.ltb_ge; lia).
    split.
    + intros all d' H. injection H as <- <-. exists [].
      rewrite app_nil_r. cbn [List.length assign_all Z.of_nat].
      split; [reflexivity|]. split; [lia|reflexivity].
    + intros obj' d' H. injection H as <- <-. exists [].
      rewrite app_nil_r. cbn [List.length assign_all Z.of_nat].
      split; [reflexivity|]. split; [lia|reflexivity].
  - replace (i <? len) with true by (symmetry; apply Z.ltb_lt; lia).
    unfold bind.
    destruct (readVarString decodeUtf8 d) as [key d1| |];
      [|split; intros; discriminate..].
    destruct (readAny decodeUtf8 inherited_set d1) as [v d2| |];
      [|split; intros; discriminate..].
    unfold obj_put.
    destruct (obj_set inherited_set obj key v) as [obj1|] eqn:S.
    + unfold ret.
      destruct (IH (i + 1) len obj1 (pairs ++ [(key, v)]) d2 ltac:(lia))
        as [P1 P2].
      split.
      * intros all d' H. destruct (P1 _ _ H) as (rest & -> & Hl & Hm).
        exists ((key, v) :: rest).
        split; [rewrite <- app_assoc; reflexivity|].
        split; [cbn [List.length]; lia|].
        cbn [assign_all]. rewrite S. exact Hm.
      * intros obj' d' H. destruct (P2 _ _ H) as (rest & Hp & Hl & Ha).
        exists ((key, v) :: rest).
        split; [rewrite Hp, <- app_assoc; reflexivity|].
        split; [cbn [List.length]; lia|].
        cbn [assign_all]. rewrite S. exact Ha.
    + unfold throw.
      destruct (IH (i + 1) len obj (pairs ++ [(key, v)]) d2 ltac:(lia))
        as [P1 _].
      split; [|intros; discriminate].
      intros all d' H. destruct (P1 _ _ H) as (rest & -> & Hl & _).
      exists ((key, v) :: rest).
      split; [rewrite <- app_assoc; reflexivity|].
      split; [cbn [List.length]; lia|].
      cbn [assign_all]. rewrite S. exists d2. reflexivity.
Qed.

(** The loops inside [readAny_fuel] are the loops of [readAny]. *)
Lemma readObject_loop_fuel fuel i len obj d :
  (remaining d < fuel)%nat ->
  for_loop fuel i len
    (readObject_body decodeUtf8 inherited_set
       (readAny_fuel decodeUtf8 inherited_set fuel)) obj d =
  readObject_loop decodeUtf8 inherited_set i len obj d.
Proof.
  intros Hd. unfold readObject_loop.
  transitivity (for_loop fuel i len
                  (readObject_body decodeUtf8 inherited_set
                     (readAny decodeUtf8 inherited_set)) obj d).
  - symmetry.
    apply (Refines_for_loop
             (readObject_body decodeUtf8 inherited_set
                (readAny_fuel decodeUtf8 inherited_set fuel))
             (readObject_body decodeUtf8 inherited_set
                (readAny decodeUtf8 inherited_set)));
      [|lia|].
    + intros s. unfold readObject_body.
      apply Refines_bind; [apply Refines_refl|]. intros key.
      apply Refines_bind; [apply readAny_fuel_readAny|].
      intros; apply Refines_refl.
    + apply for_loop_enough with (bound := fuel); try lia.
      * intros s d0. apply readObject_body_enough.
        apply readAny_fuel_enough.
      * intros s d0 s' d0'. apply readObject_body_returns.
        apply readAny_fuel_returns.
  - apply for_loop_fuel_irrelevant; try lia.
    + apply Total_readObject_body.
    + intros s d0 s' d0'. apply readObject_body_returns, readAny_returns.
Qed.

Lemma readArray_loop_fuel fuel i len items d :
  (remaining d < fuel)%nat ->
  for_loop fuel i len
    (readArray_body (readAny_fuel decodeUtf8 inherited_set fuel)) items d =
  readArray_loop decodeUtf8 inherited_set i len items d.
Proof.
  intros Hd. unfold readArray_loop.
  transitivity (for_loop fuel i len
                  (readArray_body (readAny decodeUtf8 inherited_set))
                  items d).
  - symmetry.
    apply (Refines_for_loop
             (readArray_body (readAny_fuel decodeUtf8 inherited_set fuel))
             (readArray_body (readAny decodeUtf8 inherited_set)));
      [|lia|].
    + intros s. unfold readArray_body.
      apply Refines_bind; [apply readAny_fuel_readAny|].
      intros; apply Refines_refl.
    + apply for_loop_enough with (bound := fuel); try lia.
      * intros s d0. apply readArray_body_enough.
        apply readAny_fuel_enough.
      * intros s d0 s' d0'. apply readArray_body_returns.
        apply readAny_fuel_returns.
  - apply for_loop_fuel_irrelevant; try lia.
    + apply Total_readArray_body.
    + intros s d0 s' d0'. apply readArray_body_returns, readAny_returns.
Qed.

Lemma readAny_dispatch d :
  readAny decodeUtf8 inherited_set d =
  match table_get (readAnyLookupTable decodeUtf8 inherited_set (remaining d)
                     (readAny_fuel decodeUtf8 inherited_set (remaining d)))
                  (js_sub (JInt 127) (arr_get (arr d) (pos d))) with
  | Some f => f (advance d 1)
  | None => Throw UnknownTag (advance d 1)
  end.
Proof. unfold readAny. cbn [readAny_fuel]. apply readAny_body_dispatch. Qed.

Lemma tag_inside d tag :
  arr_get (arr d) (pos d) = JInt tag ->
  (remaining (advance d 1) < remaining d)%nat.
Proof.
  intros E. apply arr_get_inside in E.
  unfold remaining. cbn [advance arr pos]. lia.
Qed.

Lemma table_get_outside {A} (table : list A) z :
  z < 0 \/ Z.of_nat (List.length table) <= z ->
  table_get table (JInt z) = None.
Proof.
  intros H. unfold table_get.
  destruct (0 <=? z) eqn:E; [|reflexivity].
  apply Z.leb_le in E. apply nth_error_None. lia.
Qed.

(** The cases of arrays and objects, as [readAny] runs them. *)
Lemma readAny_array_case d :
  arr_get (arr d) (pos d) = JInt 117 ->
  readAny decodeUtf8 inherited_set d =
  (len <- readVarUint ;;
   items <- readArray_loop decodeUtf8 inherited_set 0 len [] ;;
   ret (AArray items)) (advance d 1).
Proof.
  intros E. rewrite readAny_dispatch, E.
  change (table_get _ _) with
    (Some (len <- readVarUint ;;
           items <- for_loop (remaining d) 0 len
                      (readArray_body
                         (readAny_fuel decodeUtf8 inherited_set
                            (remaining d))) [] ;;
           ret (AArray items))).
  cbv iota. unfold bind.
  pose proof (Forward_readVarUint (advance d 1)) as F.
  destruct (readVarUint (advance d 1)) as [len d2| |]; try reflexivity.
  rewrite readArray_loop_fuel; [reflexivity|].
  apply tag_inside in E. destruct F as [Ha Hp].
  unfold remaining in *. rewrite Ha. lia.
Qed.

Lemma readAny_object_case d :
  arr_get (arr d) (pos d) = JInt 118 ->
  readAny decodeUtf8 inherited_set d =
  (len <- readVarUint ;;
   obj <- readObject_loop decodeUtf8 inherited_set 0 len empty_object ;;
   ret (object_value obj)) (advance d 1).
Proof.
  intros E. rewrite readAny_dispatch, E.
  change (table_get _ _) with
    (Some (len <- readVarUint ;;
           obj <- for_loop (remaining d) 0 len
                    (readObject_body decodeUtf8 inherited_set
                       (readAny_fuel decodeUtf8 inherited_set
                          (remaining d))) empty_object ;;
           ret (object_value obj))).
  cbv iota. unfold bind.
  pose proof (Forward_readVarUint (advance d 1)) as F.
  destruct (readVarUint (advance d 1)) as [len d2| |]; try reflexivity.
  rewrite readObject_loop_fuel; [reflexivity|].
  apply tag_inside in E. destruct F as [Ha Hp].
  unfold remaining in *. rewrite Ha. lia.
Qed.

(** What [readAny] returns on tag 118, by the pairs on the wire. *)
Lemma readAny_object_pairs d n d2 :
  arr_get (arr d) (pos d) = JInt 118 ->
  readVarUint (advance d 1) = Ret n d2 ->
  (forall pairs d3,
      readPairs_loop decodeUtf8 inherited_set 0 n [] d2 = Ret pairs d3 ->
      Z.of_nat (List.length pairs) = n
      /\ match assign_all inherited_set empty_object pairs with
         | Some obj =>
             readAny decodeUtf8 inherited_set d = Ret (object_value obj) d3
         | None =>
             exists d4,
               readAny decodeUtf8 inherited_set d
               = Throw AssignmentRefused d4
         end)
  /\ (forall v d3,
      readAny decodeUtf8 inherited_set d = Ret v d3 ->
      exists pairs obj,
        readPairs_loop decodeUtf8 inherited_set 0 n [] d2 = Ret pairs d3
        /\ Z.of_nat (List.length pairs) = n
        /\ assign_all inherited_set empty_object pairs = Some obj
        /\ v = object_value obj).
Proof.
  intros E Hn. rewrite (readAny_object_case d E).
  unfold bind. rewrite Hn.
  pose proof (readVarUint_loop_range _ _ _ _ _ _ Hn) as Rn.
  destruct (readObject_loop_pairs (Z.to_nat (n - 0)) 0 n empty_object [] d2
              eq_refl) as [P1 P2].
  split.
  - intros pairs d3 H. destruct (P1 _ _ H) as (rest & -> & Hl & Hm).
    cbn [app]. split; [lia|].
    destruct (assign_all inherited_set empty_object rest) as [obj|].
    + rewrite Hm. reflexivity.
    + destruct Hm as [d4 Hm]. exists d4. rewrite Hm. reflexivity.
  - intros v d3 H.
    destruct (readObject_loop decodeUtf8 inherited_set 0 n empty_object d2)
      as [obj d4| |] eqn:L; try discriminate.
    unfold ret in H. injection H as <- <-.
    destruct (P2 _ _ eq_refl) as (rest & Hp & Hl & Ha).
    exists rest, obj. cbn [app] in Hp.
    split; [exact Hp|]. split; [lia|]. split; [exact Ha|reflexivity].
Qed.

(** C3.  [readAny] reads the tag byte and calls the entry of the lookup
    table at index 127 minus the tag.  Each of the twelve tags 127 down to
    116 decodes through its own case: undefined, null, [readVarInt],
    [readFloat32], [readFloat64], [readBigInt64], false, true,
    [readVarString], an object read as a [readVarUint] count followed by
    that many (key, value) pairs in order, an array read as a count followed
    by that many values in order, and [readVarUint8Array].  Tag 115, like
    every tag byte outside 116..127, finds no entry and [readAny] throws
    [UnknownTag].

    The record of tag 118 is the object the assignments [obj[key] = value]
    build from [{}], one assignment per pair on the wire and in the order
    of the wire: when the count [n] and then [n] pairs can be read,
    [readAny] returns that object with the cursor behind the last pair, and
    it returns nothing else.  For keys that are pairwise different and
    neither array indices nor [__proto__], the object has exactly the pairs
    read as its properties, in their order.  On an object literal an
    assignment to any key but [__proto__] leaves that key with the value
    and every other key as it was; an assignment to [__proto__] defines no
    property and makes an object or [null] the prototype. *)
Theorem readAny_tag_dispatch d :
  let tag := arr_get (arr d) (pos d) in
  let d1 := advance d 1 in
  (tag = JInt 127 -> readAny decodeUtf8 inherited_set d = Ret AUndefined d1)
  /\ (tag = JInt 126 -> readAny decodeUtf8 inherited_set d = Ret ANull d1)
  /\ (tag = JInt 125 ->
      readAny decodeUtf8 inherited_set d =
      (n <- readVarInt ;; ret (ANumber n)) d1)
  /\ (tag = JInt 124 ->
      readAny decodeUtf8 inherited_set d =
      (f <- readFloat32 ;; ret (AFloat32 f)) d1)
  /\ (tag = JInt 123 ->
      readAny decodeUtf8 inherited_set d =
      (f <- readFloat64 ;; ret (AFloat64 f)) d1)
  /\ (tag = JInt 122 ->
      readAny decodeUtf8 inherited_set d =
      (z <- readBigInt64 ;; ret (ABigInt z)) d1)
  /\ (tag = JInt 121 ->
      readAny decodeUtf8 inherited_set d = Ret (ABoolean false) d1)
  /\ (tag = JInt 120 ->
      readAny decodeUtf8 inherited_set d = Ret (ABoolean true) d1)
  /\ (tag = JInt 119 ->
      readAny decodeUtf8 inherited_set d =
      (s <- readVarString decodeUtf8 ;; ret (AString s)) d1)
  /\ (tag = JInt 118 ->
      readAny decodeUtf8 inherited_set d =
      (len <- readVarUint ;;
       obj <- readObject_loop decodeUtf8 inherited_set 0 len empty_object ;;
       ret (object_value obj)) d1)
  /\ (tag = JInt 117 ->
      readAny decodeUtf8 inherited_set d =
      (len <- readVarUint ;;
       items <- readArray_loop decodeUtf8 inherited_set 0 len [] ;;
       ret (AArray items)) d1)
  /\ (tag = JInt 116 ->
      readAny decodeUtf8 inherited_set d =
      (view <- readVarUint8Array ;; ret (AUint8Array view)) d1)
  /\ (tag = JInt 115 ->
      readAny decodeUtf8 inherited_set d = Throw UnknownTag d1)
  /\ (forall t, tag = JInt t -> t < 116 \/ 127 < t ->
      readAny decodeUtf8 inherited_set d = Throw UnknownTag d1)
  /\ (forall i len obj d0,
      readObject_loop decodeUtf8 inherited_set i len obj d0 =
      if i <? len then
        (key <- readVarString decodeUtf8 ;;
         v <- readAny decodeUtf8 inherited_set ;;
         obj' <- obj_put inherited_set obj key v ;;
         readObject_loop decodeUtf8 inherited_set (i + 1) len obj') d0
      else Ret obj d0)
  /\ (forall i len items d0,
      readArray_loop decodeUtf8 inherited_set i len items d0 =
      if i <? len then
        (v <- readAny decodeUtf8 inherited_set ;;
         readArray_loop decodeUtf8 inherited_set (i + 1) len
           (items ++ [v])) d0
      else Ret items d0)
  /\ (forall i len pairs d0,
      readPairs_loop decodeUtf8 inherited_set i len pairs d0 =
      if i <? len then
        (key <- readVarString decodeUtf8 ;;
         v <- readAny decodeUtf8 inherited_set ;;
         readPairs_loop decodeUtf8 inherited_set (i + 1) len
           (pairs ++ [(key, v)])) d0
      else Ret pairs d0)
  /\ (tag = JInt 118 ->
      forall n d2, readVarUint d1 = Ret n d2 ->
      (forall pairs d3,
          readPairs_loop decodeUtf8 inherited_set 0 n [] d2 = Ret pairs d3 ->
          Z.of_nat (List.length pairs) = n
          /\ match assign_all inherited_set empty_object pairs with
             | Some obj =>
                 readAny decodeUtf8 inherited_set d
                 = Ret (object_value obj) d3
             | None =>
                 exists d4,
                   readAny decodeUtf8 inherited_set d
                   = Throw AssignmentRefused d4
             end)
      /\ (forall v d3,
          readAny decodeUtf8 inherited_set d = Ret v d3 ->
          exists pairs obj,
            readPairs_loop decodeUtf8 inherited_set 0 n [] d2 = Ret pairs d3
            /\ Z.of_nat (List.length pairs) = n
            /\ assign_all inherited_set empty_object pairs = Some obj
            /\ v = object_value obj))
  /\ (forall pairs,
      NoDup (map fst pairs) ->
      forallb ordinary_key (map fst pairs) = true ->
      assign_all inherited_set empty_object pairs = Some (None, pairs))
  /\ (forall props key v,
      key <> "__proto__"%string ->
      exists props',
        obj_set inherited_set (None, props) key v = Some (None, props')
        /\ get_own props' key = Some v
        /\ (forall k, k <> key -> get_own props' k = get_own props k))
  /\ (forall props v,
      has_own props "__proto__" = false ->
      obj_set inherited_set (None, props) "__proto__" v =
      Some (if is_object v || is_null v then Some v else None, props)).
Proof.
  intros tag d1. subst tag d1.
  repeat match goal with
         | |- (_ -> _) /\ _ => split
         end;
    try (intros E; rewrite readAny_dispatch, E; reflexivity).
  - exact (readAny_object_case d).
  - exact (readAny_array_case d).
  - intros t E Ht. rewrite readAny_dispatch, E. cbn [js_sub].
    rewrite table_get_outside; [reflexivity|].
    unfold readAnyLookupTable.
    cbn [List.length Z.of_nat Pos.of_succ_nat Pos.succ]. lia.
  - exact readObject_loop_eq.
  - exact readArray_loop_eq.
  - exact readPairs_loop_eq.
  - intros E n d2. exact (readAny_object_pairs d n d2 E).
  - intros pairs Hn Ho.
    exact (assign_all_ordinary inherited_set pairs [] Hn Ho).
  - intros props key v Hk. unfold obj_set.
    apply String.eqb_neq in Hk. rewrite Hk.
    destruct (has_own props key) eqn:E.
    + exists (set_own props key v). split; [reflexivity|].
      now apply get_own_set_own.
    + exists (add_own props key v). split; [reflexivity|].
      now apply get_own_add_own.
  - intros props v E. unfold obj_set. rewrite E.
    rewrite String.eqb_refl.
    destruct (is_object v || is_null v); reflexivity.
Qed.

End Dispatch.

(** The witness takes one decoder per tag and runs [readAny] on it through
    the theorem.  Four more objects show the keys JavaScript treats in its
    own way: the array index [1] read after the key [b] is enumerated
    before it; the key [__proto__] with a number defines nothing; with
    [null] it takes the prototype away, after which [__proto__] is a key
    like any other; and with a typed array it installs a prototype whose
    [length] has a getter and no setter, so that the assignment to the key
    [length] throws. *)
Lemma readAny_tag_dispatch_witness :
  (readAny decodeAscii inherited_refused (decoder_of [x7f]) =
    Ret AUndefined (advance (decoder_of [x7f]) 1)
  /\ readAny decodeAscii inherited_refused (decoder_of [x7e]) =
       Ret ANull (advance (decoder_of [x7e]) 1)
  /\ readAny decodeAscii inherited_refused (decoder_of [x7d; xc1; x02]) =
       Ret (ANumber (JInt (-129))) (advance (decoder_of [x7d; xc1; x02]) 3)
  /\ readAny decodeAscii inherited_refused
       (decoder_of [x7c; x3f; x80; x00; x00]) =
       Ret (AFloat32 1065353216)
           (advance (decoder_of [x7c; x3f; x80; x00; x00]) 5)
  /\ readAny decodeAscii inherited_refused
       (decoder_of [x7b; x3f; xf0; x00; x00; x00; x00; x00; x00]) =
       Ret (AFloat64 4607182418800017408)
           (advance
              (decoder_of [x7b; x3f; xf0; x00; x00; x00; x00; x00; x00]) 9)
  /\ readAny decodeAscii inherited_refused
       (decoder_of [x7a; xff; xff; xff; xff; xff; xff; xff; xfe]) =
       Ret (ABigInt (-2))
           (advance
              (decoder_of [x7a; xff; xff; xff; xff; xff; xff; xff; xfe]) 9)
  /\ readAny decodeAscii inherited_refused (decoder_of [x79]) =
       Ret (ABoolean false) (advance (decoder_of [x79]) 1)
  /\ readAny decodeAscii inherited_refused (decoder_of [x78]) =
       Ret (ABoolean true) (advance (decoder_of [x78]) 1)
  /\ readAny decodeAscii inherited_refused (decoder_of [x77; x02; x68; x69]) =
       Ret (AString "hi") (advance (decoder_of [x77; x02; x68; x69]) 4)
  /\ readAny decodeAscii inherited_refused
       (decoder_of [x76; x02; x01; x61; x7d; x01; x01; x62; x78]) =
       Ret (AObject None [("a"%string, ANumber (JInt 1));
                          ("b"%string, ABoolean true)])
           (advance
              (decoder_of [x76; x02; x01; x61; x7d; x01; x01; x62; x78]) 9)
  /\ readAny decodeAscii inherited_refused
       (decoder_of [x75; x02; x7d; x40; x78]) =
       Ret (AArray [ANumber JNegZero; ABoolean true])
           (advance (decoder_of [x75; x02; x7d; x40; x78]) 5)
  /\ readAny decodeAscii inherited_refused (decoder_of [x74; x02; x0a; x0b]) =
       Ret (AUint8Array (mkUint8Array [x74; x02; x0a; x0b] 2 2))
           (advance (decoder_of [x74; x02; x0a; x0b]) 4)
  /\ readAny decodeAscii inherited_refused (decoder_of [x73]) =
       Throw UnknownTag (advance (decoder_of [x73]) 1)
  /\ readAny decodeAscii inherited_refused (decoder_of [x80]) =
       Throw UnknownTag (advance (decoder_of [x80]) 1)
  /\ readAny decodeAscii inherited_refused
       (decoder_of [x76; x02; x01; x62; x7d; x01; x01; x31; x7d; x02]) =
       Ret (AObject None [("1"%string, ANumber (JInt 2));
                          ("b"%string, ANumber (JInt 1))])
           (advance
              (decoder_of [x76; x02; x01; x62; x7d; x01; x01; x31; x7d; x02])
              10)
  /\ readAny decodeAscii inherited_refused
       (decoder_of [x76; x01; x09; x5f; x5f; x70; x72; x6f; x74; x6f; x5f;
                    x5f; x7d; x01]) =
       Ret (AObject None [])
           (advance
              (decoder_of [x76; x01; x09; x5f; x5f; x70; x72; x6f; x74; x6f;
                           x5f; x5f; x7d; x01]) 14)
  /\ readAny decodeAscii inherited_refused
       (decoder_of [x76; x02; x09; x5f; x5f; x70; x72; x6f; x74; x6f; x5f;
                    x5f; x7e; x09; x5f; x5f; x70; x72; x6f; x74; x6f; x5f;
                    x5f; x78]) =
       Ret (AObject (Some ANull) [("__proto__"%string, ABoolean true)])
           (advance
              (decoder_of [x76; x02; x09; x5f; x5f; x70; x72; x6f; x74; x6f;
                           x5f; x5f; x7e; x09; x5f; x5f; x70; x72; x6f; x74;
                           x6f; x5f; x5f; x78]) 24)
  /\ readAny decodeAscii inherited_refused
       (decoder_of [x76; x02; x09; x5f; x5f; x70; x72; x6f; x74; x6f; x5f;
                    x5f; x74; x00; x06; x6c; x65; x6e; x67; x74; x68; x7d;
                    x01]) =
       Throw AssignmentRefused
           (advance
              (decoder_of [x76; x02; x09; x5f; x5f; x70; x72; x6f; x74; x6f;
                           x5f; x5f; x74; x00; x06; x6c; x65; x6e; x67; x74;
                           x68; x7d; x01]) 23))
  /\ (readVarUint
        (advance (decoder_of [x76; x02; x01; x61; x7d; x01; x01; x62; x78])
                 1) =
        Ret 2
          (advance (decoder_of [x76; x02; x01; x61; x7d; x01; x01; x62; x78])
                   2)
      /\ readPairs_loop decodeAscii inherited_refused 0 2 []
           (advance
              (decoder_of [x76; x02; x01; x61; x7d; x01; x01; x62; x78]) 2) =
           Ret [("a"%string, ANumber (JInt 1)); ("b"%string, ABoolean true)]
             (advance
                (decoder_of [x76; x02; x01; x61; x7d; x01; x01; x62; x78]) 9)
      /\ Z.of_nat (List.length
                     [("a"%string, ANumber (JInt 1));
                      ("b"%string, ABoolean true)]) = 2
      /\ match assign_all inherited_refused empty_object
                 [("a"%string, ANumber (JInt 1));
                  ("b"%string, ABoolean true)] with
         | Some obj =>
             readAny decodeAscii inherited_refused
               (decoder_of [x76; x02; x01; x61; x7d; x01; x01; x62; x78]) =
             Ret (object_value obj)
               (advance
                  (decoder_of [x76; x02; x01; x61; x7d; x01; x01; x62; x78])
                  9)
         | None =>
             exists d4,
               readAny decodeAscii inherited_refused
                 (decoder_of [x76; x02; x01; x61; x7d; x01; x01; x62; x78]) =
               Throw AssignmentRefused d4
         end)
  /\ (NoDup (map fst [("a"%string, ANumber (JInt 1));
                      ("b"%string, ABoolean true)])
      /\ forallb ordinary_key
           (map fst [("a"%string, ANumber (JInt 1));
                     ("b"%string, ABoolean true)]) = true
      /\ assign_all inherited_refused empty_object
           [("a"%string, ANumber (JInt 1)); ("b"%string, ABoolean true)] =
         Some (None, [("a"%string, ANumber (JInt 1));
                      ("b"%string, ABoolean true)])).
Proof.
  split; [|split].
  - repeat match goal with
           | |- readAny decodeAscii inherited_refused ?d = _ /\ _ => split
           end;
      match goal with
      | |- readAny decodeAscii inherited_refused ?d = _ =>
          pose proof (readAny_tag_dispatch decodeAscii inherited_refused d)
            as H;
          cbv zeta in H;
          destruct H as (H127 & H126 & H125 & H124 & H123 & H122 & H121
                         & H120 & H119 & H118 & H117 & H116 & H115 & Hout
                         & _)
      end.
    + exact (H127 eq_refl).
    + exact (H126 eq_refl).
    + exact (H125 eq_refl).
    + exact (H124 eq_refl).
    + exact (H123 eq_refl).
    + exact (H122 eq_refl).
    + exact (H121 eq_refl).
    + exact (H120 eq_refl).
    + exact (H119 eq_refl).
    + exact (H118 eq_refl).
    + exact (H117 eq_refl).
    + exact (H116 eq_refl).
    + exact (H115 eq_refl).
    + refine (Hout 128 eq_refl _). right. lia.
    + exact (H118 eq_refl).
    + exact (H118 eq_refl).
    + exact (H118 eq_refl).
    + exact (H118 eq_refl).
  - pose proof (readAny_tag_dispatch decodeAscii inherited_refused
                  (decoder_of [x76; x02; x01; x61; x7d; x01; x01; x62; x78]))
      as H.
    cbv zeta in H.
    destruct H as (_ & _ & _ & _ & _ & _ & _ & _ & _ & _ & _ & _ & _ & _
                   & _ & _ & _ & Hpairs & _).
    split; [reflexivity|]. split; [reflexivity|].
    exact (proj1 (Hpairs eq_refl 2 _ eq_refl) _ _ eq_refl).
  - assert (Hn : NoDup (map fst [("a"%string, ANumber (JInt 1));
                                 ("b"%string, ABoolean true)])).
    { cbn [map fst]. repeat constructor; cbn [In].
      - intros [H | []]. discriminate.
      - intros []. }
    assert (Ho : forallb ordinary_key
                   (map fst [("a"%string, ANumber (JInt 1));
                             ("b"%string, ABoolean true)]) = true)
      by reflexivity.
    split; [exact Hn|]. split; [exact Ho|].
    pose proof (readAny_tag_dispatch decodeAscii inherited_refused
                  (decoder_of [])) as H.
    cbv zeta in H.
    destruct H as (_ & _ & _ & _ & _ & _ & _ & _ & _ & _ & _ & _ & _ & _
                   & _ & _ & _ & _ & Hord & _).
    exact (Hord _ Hn Ho).
Defined.

(** * Further properties of [decoding.js] *)

(** ** Fixed-width readers and their peeks *)

(** X1.  [readUint16] reads the two bytes at the cursor little-endian:
    [b0 + b1*2^8], a number in [0, 2^16 - 1], and moves the cursor 2 on. *)
Theorem readUint16_little_endian d b0 b1 :
  bytes_at (arr d) (pos d) [b0; b1] ->
  readUint16 d = Ret (JInt (b0 + b1 * 2 ^ 8)) (advance d 2)
  /\ 0 <= b0 + b1 * 2 ^ 8 <= 2 ^ 16 - 1.
Proof.
  intros (H0 & H1 & _).
  pose proof (arr_get_byte _ _ _ H0) as R0.
  pose proof (arr_get_byte _ _ _ H1) as R1.
  change (2 ^ 8) with 256. change (2 ^ 16) with 65536.
  split; [|lia].
  unfold readUint16. run. rewrite H0, H1.
  rewrite ToInt32_byte by assumption.
  rewrite shl_const by lia. change (2 ^ 8) with 256.
  rewrite wrap32_small by (unfold two31; lia). reflexivity.
Qed.

Lemma readUint16_little_endian_witness :
  bytes_at (Uint8Array_from [x34; xff]) 0 [52; 255]
  /\ readUint16 (decoder_of [x34; xff]) =
       Ret (JInt 65332) (advance (decoder_of [x34; xff]) 2)
  /\ 0 <= 65332 <= 2 ^ 16 - 1.
Proof.
  assert (H : bytes_at (Uint8Array_from [x34; xff]) 0 [52; 255]).
  { simpl. repeat split; reflexivity. }
  split; [exact H|].
  exact (readUint16_little_endian (decoder_of [x34; xff]) 52 255 H).
Defined.

(** X2.  In every state, also at and past the end of the array,
    [peekUint8], [peekUint16] and [peekUint32] return the value that
    [readUint8], [readUint16] and [readUint32] return there, and leave the
    decoder as it is where the reads move the cursor 1, 2 and 4 on. *)
Theorem fixed_width_peeks_agree d :
  (exists v, peekUint8 d = Ret v d /\ readUint8 d = Ret v (advance d 1))
  /\ (exists v, peekUint16 d = Ret v d /\ readUint16 d = Ret v (advance d 2))
  /\ (exists v, peekUint32 d = Ret v d /\ readUint32 d = Ret v (advance d 4)).
Proof.
  destruct d as [a p].
  split; [|split]; eexists; split; reflexivity.
Qed.

(** X3.  [peekVarInt] returns what [readVarInt] returns and leaves the
    decoder as it was; when [readVarInt] throws, the peek throws the same
    exception and the cursor stays where the failed read left it. *)
Theorem peekVarInt_restores d :
  (forall v d', readVarInt d = Ret v d' -> peekVarInt d = Ret v d)
  /\ (forall e d', readVarInt d = Throw e d' -> peekVarInt d = Throw e d').
Proof.
  unfold peekVarInt.
  rewrite (peek_spec readVarInt d Forward_readVarInt).
  split; intros ? ? ->; reflexivity.
Qed.

Lemma peekVarInt_restores_witness :
  readVarInt (decoder_of [xc1; x02; x07]) =
    Ret (JInt (-129)) (advance (decoder_of [xc1; x02; x07]) 2)
  /\ peekVarInt (decoder_of [xc1; x02; x07]) =
       Ret (JInt (-129)) (decoder_of [xc1; x02; x07])
  /\ readVarInt (decoder_of [x80; x80; x80; x80; x80; x80; x80]) =
       Throw IntegerOutOfRange
         (advance (decoder_of [x80; x80; x80; x80; x80; x80; x80]) 7)
  /\ peekVarInt (decoder_of [x80; x80; x80; x80; x80; x80; x80]) =
       Throw IntegerOutOfRange
         (advance (decoder_of [x80; x80; x80; x80; x80; x80; x80]) 7).
Proof.
  split; [reflexivity|]. split.
  { exact (proj1 (peekVarInt_restores (decoder_of [xc1; x02; x07]))
                 _ _ eq_refl). }
  split; [reflexivity|].
  exact (proj2 (peekVarInt_restores
                  (decoder_of [x80; x80; x80; x80; x80; x80; x80]))
               _ _ eq_refl).
Defined.

(** ** The variable-length readers at the edges *)

Lemma wrap32_bounds z : - two31 <= wrap32 z < two31.
Proof.
  unfold wrap32, two31, two32.
  pose proof (Z.mod_pos_bound (z + 2147483648) 4294967296). lia.
Qed.

(** X4.  Whatever bytes it reads, a [readVarUint] that returns returns an
    unsigned 32-bit number. *)
Theorem readVarUint_unsigned d n d' :
  readVarUint d = Ret n d' -> 0 <= n < 2 ^ 32.
Proof. apply readVarUint_loop_range. Qed.

Lemma readVarUint_unsigned_witness :
  readVarUint (decoder_of [xff; xff; xff; xff; xff; x7f]) =
    Ret 4294967295 (advance (decoder_of [xff; xff; xff; xff; xff; x7f]) 6)
  /\ 0 <= 4294967295 < 2 ^ 32.
Proof.
  split; [reflexivity|].
  exact (readVarUint_unsigned
           (decoder_of [xff; xff; xff; xff; xff; x7f]) _ _ eq_refl).
Defined.

Lemma js_lt_inside a i :
  js_lt (arr_get a i) binary.BIT8 = true -> 0 <= i < length a.
Proof.
  destruct (arr_get_cases a i) as [E | [b E]]; rewrite E.
  - discriminate.
  - intros _. eapply arr_get_inside, E.
Qed.

Lemma readVarUint_loop_ends_inside fuel :
  forall num len d n d',
    readVarUint_loop fuel num len d = Ret n d' ->
    arr d' = arr d /\ pos d < pos d' /\ 0 <= pos d' - 1 < length (arr d).
Proof.
  induction fuel as [|fuel IH]; intros num len d n d' H; [discriminate|].
  rewrite readVarUint_loop_step in H. cbv zeta in H.
  destruct (js_lt _ _) eqn:E.
  - injection H as _ <-. apply js_lt_inside in E.
    cbn [advance arr pos]. repeat split; lia.
  - destruct (len + 7 >? 35); [discriminate|].
    apply IH in H. cbn [advance arr pos] in H. intuition lia.
Qed.

(** X5.  A [readVarUint] that returns has read its last byte inside the
    array: the cursor has moved forward and is not past the end of the
    array.  (An absent byte never ends the loop.) *)
Theorem readVarUint_ends_inside d n d' :
  readVarUint d = Ret n d' ->
  arr d' = arr d /\ pos d < pos d' /\ 0 < pos d' <= length (arr d).
Proof.
  intros H. apply readVarUint_loop_ends_inside in H. intuition lia.
Qed.

Lemma readVarUint_ends_inside_witness :
  readVarUint (decoder_of [x81; x01]) =
    Ret 129 (advance (decoder_of [x81; x01]) 2)
  /\ arr (advance (decoder_of [x81; x01]) 2) = arr (decoder_of [x81; x01])
  /\ pos (decoder_of [x81; x01]) < pos (advance (decoder_of [x81; x01]) 2)
  /\ 0 < pos (advance (decoder_of [x81; x01]) 2)
       <= length (arr (decoder_of [x81; x01])).
Proof.
  split; [reflexivity|].
  exact (readVarUint_ends_inside (decoder_of [x81; x01]) _ _ eq_refl).
Defined.

(** X6.  With the cursor at or past the end of the array [readVarUint]
    reads six absent bytes and throws [IntegerOutOfRange], the cursor six
    further on. *)
Theorem readVarUint_exhausted d :
  length (arr d) <= pos d ->
  readVarUint d = Throw IntegerOutOfRange (advance d 6).
Proof.
  intros H. unfold readVarUint.
  do 6 (rewrite readVarUint_loop_step; cbv zeta;
        rewrite arr_get_outside by (cbn [advance arr pos]; lia);
        cbn [js_lt]; rewrite ?advance_advance).
  reflexivity.
Qed.

Lemma readVarUint_exhausted_witness :
  length (arr (decoder_of [])) <= pos (decoder_of [])
  /\ readVarUint (decoder_of []) =
       Throw IntegerOutOfRange (advance (decoder_of []) 6).
Proof.
  assert (H : length (arr (decoder_of [])) <= pos (decoder_of []))
    by (simpl; lia).
  split; [exact H|]. exact (readVarUint_exhausted (decoder_of []) H).
Defined.

(** X7.  With the cursor at or past the end of the array [readVarInt]
    throws nothing: the absent first byte has no continuation bit, and the
    reader returns 0 with the cursor one further on. *)
Theorem readVarInt_exhausted d :
  length (arr d) <= pos d ->
  readVarInt d = Ret (JInt 0) (advance d 1).
Proof.
  intros H. rewrite readVarInt_first. cbv zeta.
  rewrite arr_get_outside by lia. reflexivity.
Qed.

Lemma readVarInt_exhausted_witness :
  length (arr (advance (decoder_of [x01]) 1))
    <= pos (advance (decoder_of [x01]) 1)
  /\ readVarInt (advance (decoder_of [x01]) 1) =
       Ret (JInt 0) (advance (decoder_of [x01]) 2).
Proof.
  assert (H : length (arr (advance (decoder_of [x01]) 1))
              <= pos (advance (decoder_of [x01]) 1)) by (simpl; lia).
  split; [exact H|].
  exact (readVarInt_exhausted (advance (decoder_of [x01]) 1) H).
Defined.

Lemma js_mul_range sign num :
  sign = 1 \/ sign = -1 -> - two31 <= num < two31 ->
  js_mul sign num = JNegZero
  \/ exists z, js_mul sign num = JInt z /\ - 2 ^ 31 <= z <= 2 ^ 31.
Proof.
  intros Hs Hn. unfold js_mul.
  destruct (_ || _); [now left|right].
  exists (sign * num). split; [reflexivity|].
  change (2 ^ 31) with two31. unfold two31 in *.
  destruct Hs as [-> | ->]; lia.
Qed.

Lemma accumulate_range num r len : - two31 <= accumulate num r len < two31.
Proof. unfold accumulate, bitor. apply wrap32_bounds. Qed.

Lemma readVarInt_loop_range fuel :
  forall sign num len d v d',
    sign = 1 \/ sign = -1 ->
    readVarInt_loop fuel sign num len d = Ret v d' ->
    v = JNegZero \/ exists z, v = JInt z /\ - 2 ^ 31 <= z <= 2 ^ 31.
Proof.
  induction fuel as [|fuel IH]; intros sign num len d v d' Hs H;
    [discriminate|].
  rewrite readVarInt_loop_step in H. cbv zeta in H.
  destruct (js_lt _ _).
  - injection H as <- _. apply js_mul_range; [exact Hs|].
    apply accumulate_range.
  - destruct (len + 7 >? 41); [discriminate|]. eapply IH; eassumption.
Qed.

(** X8.  A [readVarInt] that returns returns [-0] or an integer between
    [-2^31] and [2^31], whatever bytes it read. *)
Theorem readVarInt_range d v d' :
  readVarInt d = Ret v d' ->
  v = JNegZero \/ exists z, v = JInt z /\ - 2 ^ 31 <= z <= 2 ^ 31.
Proof.
  rewrite readVarInt_first. cbv zeta.
  assert (Hs : forall c : bool, (if c then -1 else 1) = 1
                                \/ (if c then -1 else 1) = -1).
  { intros [|]; [now right|now left]. }
  destruct (_ =? 0).
  - intros H. injection H as <- _. apply js_mul_range; [apply Hs|].
    unfold bitand. apply wrap32_bounds.
  - apply readVarInt_loop_range, Hs.
Qed.

Lemma readVarInt_range_witness :
  readVarInt (decoder_of [xc0; x80; x80; x80; x10]) =
    Ret (JInt 2147483648) (advance (decoder_of [xc0; x80; x80; x80; x10]) 5)
  /\ (JInt 2147483648 = JNegZero
      \/ exists z, JInt 2147483648 = JInt z /\ - 2 ^ 31 <= z <= 2 ^ 31).
Proof.
  split; [reflexivity|].
  exact (readVarInt_range (decoder_of [xc0; x80; x80; x80; x10])
           _ _ eq_refl).
Defined.

(** ** Views and the end of the array *)

(** X9.  Whenever [readUint8Array] returns, the cursor has moved [len] on
    and the view has [len] elements on the decoder's buffer; element [i] of
    the view is the byte of the decoder's array at the old cursor plus [i],
    for every index [i] of the view that lies inside the array. *)
Theorem readUint8Array_view_elements len d view d' :
  readUint8Array len d = Ret view d' ->
  d' = advance d len
  /\ length view = len
  /\ buffer view = buffer (arr d)
  /\ (forall i, 0 <= i < len -> 0 <= pos d + i < length (arr d) ->
      arr_get view i = arr_get (arr d) (pos d + i)).
Proof.
  intros H. apply readUint8Array_returns in H.
  destruct H as (-> & -> & _). split; [reflexivity|].
  split; [reflexivity|]. split; [reflexivity|].
  intros i Hi Hp.
  unfold arr_get. cbn [length byteOffset buffer].
  replace ((0 <=? i) && (i <? len)) with true
    by (symmetry; apply andb_true_iff; split;
        [apply Z.leb_le|apply Z.ltb_lt]; lia).
  replace ((0 <=? pos d + i) && (pos d + i <? length (arr d))) with true
    by (symmetry; apply andb_true_iff; split;
        [apply Z.leb_le|apply Z.ltb_lt]; lia).
  replace (pos d + byteOffset (arr d) + i)
    with (byteOffset (arr d) + (pos d + i)) by lia.
  reflexivity.
Qed.

Lemma readUint8Array_view_elements_witness :
  (readUint8Array 2 (advance (decoder_of [x0a; x0b; x0c; x0d]) 1) =
     Ret (mkUint8Array [x0a; x0b; x0c; x0d] 1 2)
         (advance (decoder_of [x0a; x0b; x0c; x0d]) 3)
   /\ arr_get (mkUint8Array [x0a; x0b; x0c; x0d] 1 2) 1 = JInt 12)
  /\ (readUint8Array 0 (advance (decoder_of [x0a; x0b]) 2) =
        Ret (mkUint8Array [x0a; x0b] 2 0) (advance (decoder_of [x0a; x0b]) 2)
      /\ advance (decoder_of [x0a; x0b]) 2
         = advance (advance (decoder_of [x0a; x0b]) 2) 0
      /\ length (mkUint8Array [x0a; x0b] 2 0) = 0).
Proof.
  assert (Hi : 0 <= 1 < 2) by lia.
  assert (Hp : 0 <= pos (advance (decoder_of [x0a; x0b; x0c; x0d]) 1) + 1
               < length (arr (advance (decoder_of [x0a; x0b; x0c; x0d]) 1)))
    by (simpl; lia).
  split.
  - split; [reflexivity|].
    exact (proj2 (proj2 (proj2 (readUint8Array_view_elements 2
             (advance (decoder_of [x0a; x0b; x0c; x0d]) 1) _ _ eq_refl)))
           1 Hi Hp).
  - split; [reflexivity|].
    pose proof (readUint8Array_view_elements 0
                  (advance (decoder_of [x0a; x0b]) 2) _ _ eq_refl) as H.
    split; [exact (proj1 H)|exact (proj1 (proj2 H))].
Defined.

(** X10.  On a well-formed array and with the cursor inside it or at its
    end, [readTailAsUint8Array] returns the view of all remaining bytes and
    leaves the cursor at the end, where [hasContent] is false.  With the
    cursor past the end it throws [BufferUnderrun] and leaves the cursor
    alone. *)
Theorem readTailAsUint8Array_rest d :
  wf_array (arr d) ->
  (0 <= pos d <= length (arr d) ->
   readTailAsUint8Array d =
     Ret (mkUint8Array (buffer (arr d)) (pos d + byteOffset (arr d))
                       (length (arr d) - pos d))
         (mkDecoder (arr d) (length (arr d)))
   /\ hasContent (mkDecoder (arr d) (length (arr d))) = false)
  /\ (length (arr d) < pos d ->
      readTailAsUint8Array d = Throw BufferUnderrun d).
Proof.
  intros (Hoff & Hlen & Hfit). split.
  - intros Hp. split.
    + unfold readTailAsUint8Array, readUint8Array. run.
      unfold Buffer.createUint8ArrayViewFromArrayBuffer.
      replace (0 <=? pos d + byteOffset (arr d)) with true
        by (symmetry; apply Z.leb_le; lia).
      replace (0 <=? length (arr d) - pos d) with true
        by (symmetry; apply Z.leb_le; lia).
      replace (pos d + byteOffset (arr d) + (length (arr d) - pos d) <=?
               Z.of_nat (List.length (buffer (arr d)))) with true
        by (symmetry; apply Z.leb_le; lia).
      cbn [andb]. do 2 f_equal. lia.
    + unfold hasContent. cbn [arr pos]. now rewrite Z.eqb_refl.
  - intros Hp. unfold readTailAsUint8Array. run.
    change (readUint8Array (length (arr d) - pos d) d =
            Throw BufferUnderrun d).
    apply readUint8Array_throws. lia.
Qed.

Lemma readTailAsUint8Array_rest_witness :
  wf_array (arr (advance (decoder_of [x0a; x0b; x0c]) 1))
  /\ (0 <= pos (advance (decoder_of [x0a; x0b; x0c]) 1)
        <= length (arr (advance (decoder_of [x0a; x0b; x0c]) 1)))
  /\ readTailAsUint8Array (advance (decoder_of [x0a; x0b; x0c]) 1) =
       Ret (mkUint8Array [x0a; x0b; x0c] 1 2)
           (advance (decoder_of [x0a; x0b; x0c]) 3)
  /\ length (arr (advance (decoder_of [x0a; x0b; x0c]) 4))
       < pos (advance (decoder_of [x0a; x0b; x0c]) 4)
  /\ readTailAsUint8Array (advance (decoder_of [x0a; x0b; x0c]) 4) =
       Throw BufferUnderrun (advance (decoder_of [x0a; x0b; x0c]) 4).
Proof.
  assert (W : wf_array (Uint8Array_from [x0a; x0b; x0c])).
  { unfold wf_array. simpl. lia. }
  assert (H1 : 0 <= pos (advance (decoder_of [x0a; x0b; x0c]) 1)
               <= length (arr (advance (decoder_of [x0a; x0b; x0c]) 1)))
    by (simpl; lia).
  assert (H2 : length (arr (advance (decoder_of [x0a; x0b; x0c]) 4))
               < pos (advance (decoder_of [x0a; x0b; x0c]) 4))
    by (simpl; lia).
  split; [exact W|]. split; [exact H1|]. split.
  - exact (proj1 (proj1 (readTailAsUint8Array_rest
             (advance (decoder_of [x0a; x0b; x0c]) 1) W) H1)).
  - split; [exact H2|].
    exact (proj2 (readTailAsUint8Array_rest
             (advance (decoder_of [x0a; x0b; x0c]) 4) W) H2).
Defined.

Section PastTheEnd.

Variable decodeUtf8 : list byte -> option string.
Variable inherited_set : any -> string -> any -> set_effect.

(** X11.  Once the cursor is past the end of the array, [hasContent] is
    true and stays true after any sequence of reads, skips and peeks: it
    compares the position with the length for inequality only. *)
Theorem hasContent_past_the_end ops d :
  length (arr d) < pos d ->
  Forall (fun o => forall p, o <> OpClone p) ops ->
  hasContent (exec_ops decodeUtf8 inherited_set ops d) = true.
Proof.
  intros Hd Hops.
  assert (G : forall d0, arr d0 = arr d -> pos d <= pos d0 ->
              arr (exec_ops decodeUtf8 inherited_set ops d0) = arr d
              /\ pos d <= pos (exec_ops decodeUtf8 inherited_set ops d0)).
  { induction Hops as [|o ops Ho _ IH]; intros d0 Ha Hp;
      [split; assumption|].
    cbn [exec_ops fold_left].
    destruct (exec_op_forward decodeUtf8 inherited_set o d0 Ho) as [Ha' Hp'].
    apply IH; [congruence|lia]. }
  destruct (G d eq_refl (Z.le_refl _)) as [Ha Hp].
  unfold hasContent. rewrite Ha.
  apply negb_true_iff, Z.eqb_neq. lia.
Qed.

(** X12.  On an array that ends where its buffer ends, the readers that
    make a view ([readUint8Array], [readVarUint8Array], [readVarString],
    [readTailAsUint8Array], [readFromDataView]) never return with the
    cursor past the end of the array. *)
Theorem checked_readers_stay_inside d :
  byteOffset (arr d) + length (arr d)
    = Z.of_nat (List.length (buffer (arr d))) ->
  (forall len v d', readUint8Array len d = Ret v d' ->
                    pos d <= pos d' <= length (arr d))
  /\ (forall v d', readVarUint8Array d = Ret v d' ->
                   pos d < pos d' <= length (arr d))
  /\ (forall s d', readVarString decodeUtf8 d = Ret s d' ->
                   pos d < pos d' <= length (arr d))
  /\ (forall v d', readTailAsUint8Array d = Ret v d' ->
                   pos d' = length (arr d))
  /\ (forall len v d', readFromDataView len d = Ret v d' ->
                       pos d <= pos d' <= length (arr d)).
Proof.
  intros Hend.
  assert (A : forall len d0 v d',
             arr d0 = arr d -> readUint8Array len d0 = Ret v d' ->
             pos d0 <= pos d' <= length (arr d)).
  { intros len d0 v d' Ha H. apply readUint8Array_returns in H.
    destruct H as (_ & -> & H1 & H2 & H3). rewrite Ha in *.
    cbn [advance pos]. lia. }
  assert (B : forall v d', readVarUint8Array d = Ret v d' ->
                           pos d < pos d' <= length (arr d)).
  { intros v d'. unfold readVarUint8Array, bind.
    pose proof (readVarUint_consumes d) as C.
    destruct (readVarUint d) as [n d1| |]; try discriminate.
    destruct C as [Ha Hp]. intros H. apply (A _ _ _ _ Ha) in H. lia. }
  split; [intros len v d'; apply A; reflexivity|].
  split; [exact B|]. split; [|split].
  - intros s d'. unfold readVarString, bind.
    destruct (readVarUint8Array d) as [view d1| |] eqn:E; try discriminate.
    destruct (decodeUtf8 _); [|discriminate].
    intros H. injection H as _ <-. exact (B _ _ eq_refl).
  - intros v d'. unfold readTailAsUint8Array. run.
    change (readUint8Array (length (arr d) - pos d) d = Ret v d' ->
            pos d' = length (arr d)).
    intros H. apply readUint8Array_returns in H.
    destruct H as (_ & -> & _). cbn [advance pos]. lia.
  - intros len v d'. unfold readFromDataView. run.
    destruct (0 <=? byteOffset (arr d) + pos d) eqn:E1;
    destruct (0 <=? len) eqn:E2;
    destruct (byteOffset (arr d) + pos d + len <=?
              Z.of_nat (List.length (buffer (arr d)))) eqn:E3;
      cbn [andb]; try discriminate.
    intros H. injection H as _ <-. cbn [pos]. lia.
Qed.

End PastTheEnd.

Lemma hasContent_past_the_end_witness :
  length (arr (advance (decoder_of [x01]) 2))
    < pos (advance (decoder_of [x01]) 2)
  /\ Forall (fun o => forall p, o <> OpClone p)
       [OpReadUint8; OpPeekVarUint; OpReadAny]
  /\ hasContent (exec_ops decodeAscii inherited_refused
                   [OpReadUint8; OpPeekVarUint; OpReadAny]
                   (advance (decoder_of [x01]) 2)) = true.
Proof.
  assert (H : length (arr (advance (decoder_of [x01]) 2))
              < pos (advance (decoder_of [x01]) 2)) by (simpl; lia).
  assert (F : Forall (fun o => forall p, o <> OpClone p)
                [OpReadUint8; OpPeekVarUint; OpReadAny]).
  { repeat constructor; intros p; discriminate. }
  split; [exact H|]. split; [exact F|].
  exact (hasContent_past_the_end decodeAscii inherited_refused _ _ H F).
Defined.

Lemma checked_readers_stay_inside_witness :
  byteOffset (arr (decoder_of [x02; x68; x69]))
    + length (arr (decoder_of [x02; x68; x69]))
    = Z.of_nat (List.length (buffer (arr (decoder_of [x02; x68; x69]))))
  /\ readVarString decodeAscii (decoder_of [x02; x68; x69]) =
       Ret "hi"%string (advance (decoder_of [x02; x68; x69]) 3)
  /\ pos (decoder_of [x02; x68; x69])
       < pos (advance (decoder_of [x02; x68; x69]) 3)
       <= length (arr (decoder_of [x02; x68; x69])).
Proof.
  assert (H : byteOffset (arr (decoder_of [x02; x68; x69]))
              + length (arr (decoder_of [x02; x68; x69]))
              = Z.of_nat (List.length
                            (buffer (arr (decoder_of [x02; x68; x69])))))
    by reflexivity.
  split; [exact H|]. split; [reflexivity|].
  exact (proj1 (proj2 (proj2 (checked_readers_stay_inside decodeAscii
           (decoder_of [x02; x68; x69]) H))) _ _ eq_refl).
Defined.

(** ** The [DataView] readers *)

Lemma be_uint_fold_bounds bytes :
  forall acc, 0 <= acc ->
    acc * 256 ^ Z.of_nat (List.length bytes)
    <= fold_left (fun a b => a * 256 + byte_val b) bytes acc
    < (acc + 1) * 256 ^ Z.of_nat (List.length bytes).
Proof.
  induction bytes as [|b rest IH]; intros acc Hacc.
  - cbn [fold_left List.length Z.of_nat]. rewrite Z.pow_0_r. lia.
  - cbn [fold_left].
    pose proof (byte_val_range b) as Hb.
    specialize (IH (acc * 256 + byte_val b) ltac:(lia)).
    replace (Z.of_nat (List.length (b :: rest)))
      with (1 + Z.of_nat (List.length rest))
      by (cbn [List.length]; lia).
    rewrite Z.pow_add_r by lia. change (256 ^ 1) with 256.
    assert (0 < 256 ^ Z.of_nat (List.length rest))
      by (apply Z.pow_pos_nonneg; lia).
    nia.
Qed.

Lemma be_uint_bounds bytes :
  0 <= be_uint bytes < 256 ^ Z.of_nat (List.length bytes).
Proof.
  pose proof (be_uint_fold_bounds bytes 0 (Z.le_refl 0)) as H.
  unfold be_uint. lia.
Qed.

Lemma readFromDataView_cases len d :
  (0 <= byteOffset (arr d) + pos d /\ 0 <= len
   /\ byteOffset (arr d) + pos d + len
      <= Z.of_nat (List.length (buffer (arr d)))
   /\ readFromDataView len d =
      Ret (mkUint8Array (buffer (arr d)) (byteOffset (arr d) + pos d) len)
          (advance d len))
  \/ ((byteOffset (arr d) + pos d < 0 \/ len < 0
       \/ Z.of_nat (List.length (buffer (arr d)))
          < byteOffset (arr d) + pos d + len)
      /\ readFromDataView len d = Throw BufferUnderrun d).
Proof.
  unfold readFromDataView. run.
  destruct (0 <=? byteOffset (arr d) + pos d) eqn:E1;
  destruct (0 <=? len) eqn:E2;
  destruct (byteOffset (arr d) + pos d + len <=?
            Z.of_nat (List.length (buffer (arr d)))) eqn:E3;
    cbn [andb];
    try (right; split; [lia|destruct d; reflexivity]).
  left. repeat split; lia.
Qed.

(** X13.  [readBigUint64] and [readBigInt64] succeed and fail together.
    When the 8 bytes from the cursor lie inside the buffer, both return
    and move the cursor 8 on: the unsigned result is the big-endian number
    of those 8 bytes, in [0, 2^64), the signed one lies in [-2^63, 2^63),
    and the two are equal modulo [2^64].  In every other state both throw
    [BufferUnderrun] and leave the cursor alone. *)
Theorem readBigInt64_readBigUint64 d :
  (0 <= byteOffset (arr d) + pos d ->
   byteOffset (arr d) + pos d + 8 <= Z.of_nat (List.length (buffer (arr d))) ->
   exists u z,
     readBigUint64 d = Ret u (advance d 8)
     /\ readBigInt64 d = Ret z (advance d 8)
     /\ u = be_uint (array_bytes
                       (mkUint8Array (buffer (arr d))
                                     (byteOffset (arr d) + pos d) 8))
     /\ 0 <= u < 2 ^ 64
     /\ - 2 ^ 63 <= z < 2 ^ 63
     /\ z mod 2 ^ 64 = u)
  /\ (byteOffset (arr d) + pos d < 0
      \/ Z.of_nat (List.length (buffer (arr d)))
         < byteOffset (arr d) + pos d + 8 ->
      readBigUint64 d = Throw BufferUnderrun d
      /\ readBigInt64 d = Throw BufferUnderrun d).
Proof.
  unfold readBigUint64, readBigInt64, bind.
  destruct (readFromDataView_cases 8 d) as [(H1 & _ & H3 & E) | [H E]];
    rewrite E; cbn [ret].
  - split; [|intros [?|?]; exfalso; lia].
    intros _ _.
    pose proof (be_uint_bounds
      (array_bytes (mkUint8Array (buffer (arr d))
                                 (byteOffset (arr d) + pos d) 8))) as B.
    assert (L : Z.of_nat (List.length
                  (array_bytes (mkUint8Array (buffer (arr d))
                     (byteOffset (arr d) + pos d) 8))) = 8)
      by (apply array_bytes_length; lia).
    rewrite L in B. change (256 ^ 8) with (2 ^ 64) in B.
    eexists. eexists. split; [reflexivity|]. split; [reflexivity|].
    split; [reflexivity|]. split; [exact B|].
    unfold to_int64. change (2 ^ 63) with 9223372036854775808.
    change (2 ^ 64) with 18446744073709551616 in *.
    destruct (_ <? 9223372036854775808) eqn:C.
    + apply Z.ltb_lt in C. split; [lia|]. apply Z.mod_small. lia.
    + apply Z.ltb_ge in C. split; [lia|].
      symmetry. apply Z.mod_unique with (q := -1); lia.
  - split; [intros; exfalso; lia|]. intros _. split; reflexivity.
Qed.

Lemma readBigInt64_readBigUint64_witness :
  (0 <= byteOffset (arr (decoder_of [xff; xff; xff; xff; xff; xff; xff; xfe]))
        + pos (decoder_of [xff; xff; xff; xff; xff; xff; xff; xfe])
   /\ byteOffset (arr (decoder_of [xff; xff; xff; xff; xff; xff; xff; xfe]))
      + pos (decoder_of [xff; xff; xff; xff; xff; xff; xff; xfe]) + 8
      <= Z.of_nat (List.length (buffer (arr
           (decoder_of [xff; xff; xff; xff; xff; xff; xff; xfe]))))
   /\ readBigUint64 (decoder_of [xff; xff; xff; xff; xff; xff; xff; xfe]) =
        Ret 18446744073709551614
            (advance (decoder_of [xff; xff; xff; xff; xff; xff; xff; xfe]) 8)
   /\ readBigInt64 (decoder_of [xff; xff; xff; xff; xff; xff; xff; xfe]) =
        Ret (-2)
            (advance (decoder_of [xff; xff; xff; xff; xff; xff; xff; xfe]) 8)
   /\ exists u z,
        readBigUint64 (decoder_of [xff; xff; xff; xff; xff; xff; xff; xfe]) =
          Ret u
            (advance (decoder_of [xff; xff; xff; xff; xff; xff; xff; xfe]) 8)
        /\ readBigInt64 (decoder_of [xff; xff; xff; xff; xff; xff; xff; xfe]) =
             Ret z
               (advance (decoder_of [xff; xff; xff; xff; xff; xff; xff; xfe])
                        8)
        /\ u = be_uint (array_bytes
                          (mkUint8Array
                             (buffer (arr (decoder_of
                                [xff; xff; xff; xff; xff; xff; xff; xfe])))
                             (byteOffset (arr (decoder_of
                                [xff; xff; xff; xff; xff; xff; xff; xfe]))
                              + pos (decoder_of
                                [xff; xff; xff; xff; xff; xff; xff; xfe])) 8))
        /\ 0 <= u < 2 ^ 64
        /\ - 2 ^ 63 <= z < 2 ^ 63
        /\ z mod 2 ^ 64 = u)
  /\ ((byteOffset (arr (advance (decoder_of [x01; x02; x03; x04; x05; x06;
                                              x07; x08]) 1))
       + pos (advance (decoder_of [x01; x02; x03; x04; x05; x06;
                                   x07; x08]) 1) < 0
       \/ Z.of_nat (List.length (buffer (arr
            (advance (decoder_of [x01; x02; x03; x04; x05; x06;
                                  x07; x08]) 1))))
          < byteOffset (arr (advance (decoder_of [x01; x02; x03; x04; x05;
                                                  x06; x07; x08]) 1))
            + pos (advance (decoder_of [x01; x02; x03; x04; x05; x06;
                                        x07; x08]) 1) + 8)
      /\ readBigUint64 (advance (decoder_of [x01; x02; x03; x04; x05; x06;
                                             x07; x08]) 1) =
           Throw BufferUnderrun
             (advance (decoder_of [x01; x02; x03; x04; x05; x06;
                                   x07; x08]) 1)
      /\ readBigInt64 (advance (decoder_of [x01; x02; x03; x04; x05; x06;
                                            x07; x08]) 1) =
           Throw BufferUnderrun
             (advance (decoder_of [x01; x02; x03; x04; x05; x06;
                                   x07; x08]) 1)).
Proof.
  split.
  - assert (H1 : 0 <= byteOffset (arr (decoder_of
                        [xff; xff; xff; xff; xff; xff; xff; xfe]))
                      + pos (decoder_of
                          [xff; xff; xff; xff; xff; xff; xff; xfe]))
      by (simpl; lia).
    assert (H2 : byteOffset (arr (decoder_of
                     [xff; xff; xff; xff; xff; xff; xff; xfe]))
                 + pos (decoder_of [xff; xff; xff; xff; xff; xff; xff; xfe])
                 + 8
                 <= Z.of_nat (List.length (buffer (arr
                      (decoder_of [xff; xff; xff; xff; xff; xff; xff; xfe])))))
      by (simpl; lia).
    split; [exact H1|]. split; [exact H2|].
    split; [reflexivity|]. split; [reflexivity|].
    exact (proj1 (readBigInt64_readBigUint64
                    (decoder_of [xff; xff; xff; xff; xff; xff; xff; xfe]))
                 H1 H2).
  - assert (H : byteOffset (arr (advance (decoder_of
                    [x01; x02; x03; x04; x05; x06; x07; x08]) 1))
                + pos (advance (decoder_of
                    [x01; x02; x03; x04; x05; x06; x07; x08]) 1) < 0
                \/ Z.of_nat (List.length (buffer (arr
                     (advance (decoder_of [x01; x02; x03; x04; x05; x06;
                                           x07; x08]) 1))))
                   < byteOffset (arr (advance (decoder_of
                       [x01; x02; x03; x04; x05; x06; x07; x08]) 1))
                     + pos (advance (decoder_of
                         [x01; x02; x03; x04; x05; x06; x07; x08]) 1) + 8)
      by (right; simpl; lia).
    split; [exact H|].
    exact (proj2 (readBigInt64_readBigUint64
                    (advance (decoder_of
                       [x01; x02; x03; x04; x05; x06; x07; x08]) 1)) H).
Defined.

(** X14.  Unlike the fixed-width integer readers, the readers that go
    through a [DataView] are checked: with fewer than 4 bytes of the buffer
    left [readFloat32] throws [BufferUnderrun], with fewer than 8
    [readFloat64], [readBigInt64] and [readBigUint64] do, and the cursor
    does not move. *)
Theorem data_view_readers_underrun d :
  (Z.of_nat (List.length (buffer (arr d))) < byteOffset (arr d) + pos d + 4 ->
   readFloat32 d = Throw BufferUnderrun d)
  /\ (Z.of_nat (List.length (buffer (arr d)))
        < byteOffset (arr d) + pos d + 8 ->
      readFloat64 d = Throw BufferUnderrun d
      /\ readBigInt64 d = Throw BufferUnderrun d
      /\ readBigUint64 d = Throw BufferUnderrun d).
Proof.
  split; intros H.
  - unfold readFloat32, bind.
    destruct (readFromDataView_cases 4 d) as [(_ & _ & H3 & _) | [_ E]];
      [lia|]. now rewrite E.
  - unfold readFloat64, readBigInt64, readBigUint64, bind.
    destruct (readFromDataView_cases 8 d) as [(_ & _ & H3 & _) | [_ E]];
      [lia|]. rewrite E. repeat split; reflexivity.
Qed.

Lemma data_view_readers_underrun_witness :
  Z.of_nat (List.length (buffer (arr (advance (decoder_of [x01; x02]) 1))))
    < byteOffset (arr (advance (decoder_of [x01; x02]) 1))
      + pos (advance (decoder_of [x01; x02]) 1) + 4
  /\ readFloat32 (advance (decoder_of [x01; x02]) 1) =
       Throw BufferUnderrun (advance (decoder_of [x01; x02]) 1)
  /\ readFloat64 (advance (decoder_of [x01; x02]) 1) =
       Throw BufferUnderrun (advance (decoder_of [x01; x02]) 1)
  /\ readUint32 (advance (decoder_of [x01; x02]) 1) =
       Ret (JInt 2) (advance (decoder_of [x01; x02]) 5).
Proof.
  assert (H : Z.of_nat (List.length
                (buffer (arr (advance (decoder_of [x01; x02]) 1))))
              < byteOffset (arr (advance (decoder_of [x01; x02]) 1))
                + pos (advance (decoder_of [x01; x02]) 1) + 4)
    by (simpl; lia).
  assert (H8 : Z.of_nat (List.length
                 (buffer (arr (advance (decoder_of [x01; x02]) 1))))
               < byteOffset (arr (advance (decoder_of [x01; x02]) 1))
                 + pos (advance (decoder_of [x01; x02]) 1) + 8)
    by (simpl; lia).
  split; [exact H|]. split.
  - exact (proj1 (data_view_readers_underrun
                    (advance (decoder_of [x01; x02]) 1)) H).
  - split; [|reflexivity].
    exact (proj1 (proj2 (data_view_readers_underrun
                    (advance (decoder_of [x01; x02]) 1)) H8)).
Defined.

(** The bytes of the buffer behind the bytes a reader sees. *)
Lemma arr_get_nth_error a i z :
  0 <= byteOffset a ->
  arr_get a i = JInt z ->
  exists b, nth_error (buffer a) (Z.to_nat (byteOffset a) + Z.to_nat i)
            = Some b /\ byte_val b = z.
Proof.
  intros Hoff H. pose proof (arr_get_inside _ _ _ H) as Hi.
  unfold arr_get in H. destruct (_ && _); [|discriminate].
  destruct (nth_error _ _) as [b|] eqn:E; [|discriminate].
  injection H as <-. exists b. split; [|reflexivity].
  rewrite <- Z2Nat.inj_add by lia. exact E.
Qed.

Lemma skipn_nth_error {A} (l : list A) k x :
  nth_error l k = Some x -> skipn k l = x :: skipn (S k) l.
Proof.
  revert l. induction k as [|k IH]; intros [|y l] H; try discriminate.
  - injection H as ->. reflexivity.
  - cbn [nth_error] in H. cbn [skipn]. now apply IH.
Qed.

(** X15.  [readFloat32] takes the four bytes at the cursor as a big-endian
    bit pattern, [b0*2^24 + b1*2^16 + b2*2^8 + b3] (the reverse of the byte
    order of [readUint32]), and moves the cursor 4 on. *)
Theorem readFloat32_big_endian d b0 b1 b2 b3 :
  0 <= byteOffset (arr d) ->
  bytes_at (arr d) (pos d) [b0; b1; b2; b3] ->
  readFloat32 d =
    Ret (b0 * 2 ^ 24 + b1 * 2 ^ 16 + b2 * 2 ^ 8 + b3) (advance d 4).
Proof.
  intros Hoff (H0 & H1 & H2 & H3 & _).
  pose proof (arr_get_inside _ _ _ H0) as I0.
  destruct (arr_get_nth_error _ _ _ Hoff H0) as (c0 & N0 & V0).
  destruct (arr_get_nth_error _ _ _ Hoff H1) as (c1 & N1 & V1).
  destruct (arr_get_nth_error _ _ _ Hoff H2) as (c2 & N2 & V2).
  destruct (arr_get_nth_error _ _ _ Hoff H3) as (c3 & N3 & V3).
  set (k := Z.to_nat (byteOffset (arr d) + pos d)).
  replace (Z.to_nat (byteOffset (arr d)) + Z.to_nat (pos d))%nat
    with k in N0 by (unfold k; lia).
  replace (Z.to_nat (byteOffset (arr d)) + Z.to_nat (pos d + 1))%nat
    with (S k) in N1 by (unfold k; lia).
  replace (Z.to_nat (byteOffset (arr d)) + Z.to_nat (pos d + 1 + 1))%nat
    with (S (S k)) in N2 by (unfold k; lia).
  replace (Z.to_nat (byteOffset (arr d)) + Z.to_nat (pos d + 1 + 1 + 1))%nat
    with (S (S (S k))) in N3 by (unfold k; lia).
  assert (Hfit : (S (S (S k)) < List.length (buffer (arr d)))%nat).
  { apply nth_error_Some. congruence. }
  unfold readFloat32, bind.
  destruct (readFromDataView_cases 4 d) as [(_ & _ & _ & E) | [C _]];
    [|exfalso; unfold k in Hfit; lia].
  rewrite E. unfold ret. f_equal.
  unfold array_bytes. cbn [length byteOffset buffer]. fold k.
  rewrite (skipn_nth_error _ _ _ N0), (skipn_nth_error _ _ _ N1),
          (skipn_nth_error _ _ _ N2), (skipn_nth_error _ _ _ N3).
  change (Z.to_nat 4) with 4%nat. cbn [firstn].
  unfold be_uint. cbn [fold_left]. rewrite V0, V1, V2, V3.
  change (2 ^ 24) with 16777216. change (2 ^ 16) with 65536.
  change (2 ^ 8) with 256. lia.
Qed.

Lemma readFloat32_big_endian_witness :
  0 <= byteOffset (arr (decoder_of [x3f; x80; x00; x01]))
  /\ bytes_at (arr (decoder_of [x3f; x80; x00; x01]))
              (pos (decoder_of [x3f; x80; x00; x01])) [63; 128; 0; 1]
  /\ readFloat32 (decoder_of [x3f; x80; x00; x01]) =
       Ret 1065353217 (advance (decoder_of [x3f; x80; x00; x01]) 4).
Proof.
  assert (H0 : 0 <= byteOffset (arr (decoder_of [x3f; x80; x00; x01])))
    by (simpl; lia).
  assert (H : bytes_at (arr (decoder_of [x3f; x80; x00; x01]))
                (pos (decoder_of [x3f; x80; x00; x01])) [63; 128; 0; 1]).
  { simpl. repeat split; reflexivity. }
  split; [exact H0|]. split; [exact H|].
  exact (readFloat32_big_endian (decoder_of [x3f; x80; x00; x01])
           63 128 0 1 H0 H).
Defined.

(** ** [readAny]: termination, counts and keys *)

Section AnyValues.

Variable decodeUtf8 : list byte -> option string.
Variable inherited_set : any -> string -> any -> set_effect.

(** X16.  With the cursor at or past the end of the array [readAny] finds
    no tag and throws [UnknownTag], the cursor one further on. *)
Theorem readAny_exhausted d :
  length (arr d) <= pos d ->
  readAny decodeUtf8 inherited_set d = Throw UnknownTag (advance d 1).
Proof.
  intros H. rewrite readAny_dispatch.
  rewrite arr_get_outside by lia. reflexivity.
Qed.

(** X17.  [readAny] comes to an end on every input, however deep the
    value nests and whatever counts it declares.  When it returns, the tag
    byte lay inside the array and the cursor has moved forward; when it
    throws, the cursor has moved forward too; the array is the same. *)
Theorem readAny_ends d :
  match readAny decodeUtf8 inherited_set d with
  | Ret _ d' =>
      arr d' = arr d /\ 0 <= pos d < length (arr d) /\ pos d < pos d'
  | Throw _ d' => arr d' = arr d /\ pos d < pos d'
  | OutOfFuel => False
  end.
Proof.
  pose proof (Total_readAny decodeUtf8 inherited_set d) as T.
  rewrite readAny_dispatch in *.
  destruct (table_get _ _) as [g|] eqn:G.
  - assert (I : 0 <= pos d < length (arr d)).
    { destruct (arr_get_cases (arr d) (pos d)) as [E | [b E]].
      - rewrite E in G. discriminate.
      - eapply arr_get_inside, E. }
    apply table_get_In in G.
    pose proof (readAnyLookupTable_Forward decodeUtf8 inherited_set _ _ _
                  (Forward_readAny_fuel decodeUtf8 inherited_set
                     (remaining d)) G
                  (advance d 1)) as F.
    destruct (g (advance d 1)) as [v d'|e d'|];
      cbn [forward advance arr pos] in F.
    + destruct F as [Ha Hp]. repeat split; try assumption; lia.
    + destruct F as [Ha Hp]. split; [assumption|lia].
    + now contradiction T.
  - cbn [advance arr pos]. split; [reflexivity|lia].
Qed.

Lemma readArray_loop_count k :
  forall i len acc d items d',
    Z.to_nat (len - i) = k ->
    readArray_loop decodeUtf8 inherited_set i len acc d = Ret items d' ->
    Z.of_nat (List.length items)
      = Z.of_nat (List.length acc) + Z.max 0 (len - i)
    /\ Z.of_nat (remaining d') + Z.max 0 (len - i) <= Z.of_nat (remaining d).
Proof.
  induction k as [|k IH]; intros i len acc d items d' Hk H;
    rewrite readArray_loop_eq in H.
  - replace (i <? len) with false in H by (symmetry; apply Z.ltb_ge; lia).
    injection H as <- <-. lia.
  - replace (i <? len) with true in H by (symmetry; apply Z.ltb_lt; lia).
    apply bind_Ret in H. destruct H as (v & d1 & H1 & H).
    apply readAny_returns in H1.
    apply IH in H; [|lia]. rewrite length_app in H. cbn [List.length] in H.
    lia.
Qed.

(** X18.  When [readAny] returns on tag 117, the value is an array of
    exactly as many items as the count declares, and that count is no more
    than the bytes the array had left behind the count: a count larger
    than the rest of the input never yields a value. *)
Theorem readAny_array_count d n d2 v d' :
  arr_get (arr d) (pos d) = JInt 117 ->
  readVarUint (advance d 1) = Ret n d2 ->
  readAny decodeUtf8 inherited_set d = Ret v d' ->
  exists items,
    v = AArray items
    /\ Z.of_nat (List.length items) = n
    /\ n <= length (arr d) - pos d2.
Proof.
  intros E Hn H. rewrite (readAny_array_case decodeUtf8 inherited_set d E) in H.
  unfold bind in H. rewrite Hn in H.
  pose proof (readVarUint_loop_range _ _ _ _ _ _ Hn) as Rn.
  destruct (readArray_loop decodeUtf8 inherited_set 0 n [] d2)
    as [items d3| |] eqn:L; try discriminate.
  injection H as <- <-. exists items. split; [reflexivity|].
  apply (readArray_loop_count (Z.to_nat (n - 0))) in L; [|reflexivity].
  cbn [List.length Z.of_nat] in L.
  apply readVarUint_loop_ends_inside in Hn.
  destruct Hn as (Ha & _ & Hin). cbn [advance arr] in Ha, Hin.
  unfold remaining in L. rewrite Ha in L. lia.
Qed.

Lemma readObject_loop_keys k :
  forall i len acc d obj d',
    Z.to_nat (len - i) = k ->
    NoDup (map fst (snd acc)) ->
    readObject_loop decodeUtf8 inherited_set i len acc d = Ret obj d' ->
    NoDup (map fst (snd obj))
    /\ Z.of_nat (List.length (snd obj))
       <= Z.of_nat (List.length (snd acc)) + Z.max 0 (len - i).
Proof.
  induction k as [|k IH]; intros i len acc d obj d' Hk Hacc H;
    rewrite readObject_loop_eq in H.
  - replace (i <? len) with false in H by (symmetry; apply Z.ltb_ge; lia).
    injection H as <- <-. split; [exact Hacc|lia].
  - replace (i <? len) with true in H by (symmetry; apply Z.ltb_lt; lia).
    apply bind_Ret in H. destruct H as (key & d1 & H1 & H).
    apply bind_Ret in H. destruct H as (v & d2 & H2 & H).
    apply bind_Ret in H. destruct H as (acc' & d3 & H3 & H).
    apply obj_put_Ret in H3. destruct H3 as [H3 ->].
    destruct (obj_set_own_keys _ _ _ _ _ H3 Hacc) as [Hn Hl].
    apply IH in H; [|lia|exact Hn].
    split; [apply H|lia].
Qed.

(** X19.  When [readAny] returns on tag 118, the value is an object whose
    keys are pairwise different and which has at most as many properties as
    the count declares: a key read twice gives one property. *)
Theorem readAny_object_keys d n d2 v d' :
  arr_get (arr d) (pos d) = JInt 118 ->
  readVarUint (advance d 1) = Ret n d2 ->
  readAny decodeUtf8 inherited_set d = Ret v d' ->
  exists proto obj,
    v = AObject proto obj
    /\ NoDup (map fst obj)
    /\ Z.of_nat (List.length obj) <= n.
Proof.
  intros E Hn H.
  rewrite (readAny_object_case decodeUtf8 inherited_set d E) in H.
  unfold bind in H. rewrite Hn in H.
  pose proof (readVarUint_loop_range _ _ _ _ _ _ Hn) as Rn.
  destruct (readObject_loop decodeUtf8 inherited_set 0 n empty_object d2)
    as [obj d3| |] eqn:L; try discriminate.
  injection H as <- <-. exists (fst obj), (snd obj).
  split; [reflexivity|].
  apply (readObject_loop_keys (Z.to_nat (n - 0))) in L;
    [|reflexivity|constructor].
  cbn [List.length Z.of_nat empty_object snd] in L. split; [apply L|lia].
Qed.

End AnyValues.

Lemma readAny_exhausted_witness :
  length (arr (decoder_of [])) <= pos (decoder_of [])
  /\ readAny decodeAscii inherited_refused (decoder_of []) =
       Throw UnknownTag (advance (decoder_of []) 1).
Proof.
  assert (H : length (arr (decoder_of [])) <= pos (decoder_of []))
    by (simpl; lia).
  split; [exact H|].
  exact (readAny_exhausted decodeAscii inherited_refused (decoder_of []) H).
Defined.

Lemma readAny_array_count_witness :
  arr_get (arr (decoder_of [x75; x02; x7f; x78]))
          (pos (decoder_of [x75; x02; x7f; x78])) = JInt 117
  /\ readVarUint (advance (decoder_of [x75; x02; x7f; x78]) 1) =
       Ret 2 (advance (decoder_of [x75; x02; x7f; x78]) 2)
  /\ readAny decodeAscii inherited_refused (decoder_of [x75; x02; x7f; x78]) =
       Ret (AArray [AUndefined; ABoolean true])
           (advance (decoder_of [x75; x02; x7f; x78]) 4)
  /\ exists items,
       AArray [AUndefined; ABoolean true] = AArray items
       /\ Z.of_nat (List.length items) = 2
       /\ 2 <= length (arr (decoder_of [x75; x02; x7f; x78]))
               - pos (advance (decoder_of [x75; x02; x7f; x78]) 2).
Proof.
  split; [reflexivity|]. split; [reflexivity|]. split; [reflexivity|].
  exact (readAny_array_count decodeAscii inherited_refused
           (decoder_of [x75; x02; x7f; x78])
           2 _ _ _ eq_refl eq_refl eq_refl).
Defined.

Lemma readAny_object_keys_witness :
  arr_get (arr (decoder_of [x76; x02; x01; x61; x7f; x01; x61; x78]))
          (pos (decoder_of [x76; x02; x01; x61; x7f; x01; x61; x78]))
    = JInt 118
  /\ readVarUint
       (advance (decoder_of [x76; x02; x01; x61; x7f; x01; x61; x78]) 1) =
       Ret 2 (advance (decoder_of [x76; x02; x01; x61; x7f; x01; x61; x78]) 2)
  /\ readAny decodeAscii inherited_refused
       (decoder_of [x76; x02; x01; x61; x7f; x01; x61; x78]) =
       Ret (AObject None [("a"%string, ABoolean true)])
           (advance (decoder_of [x76; x02; x01; x61; x7f; x01; x61; x78]) 8)
  /\ exists proto obj,
       AObject None [("a"%string, ABoolean true)] = AObject proto obj
       /\ NoDup (map fst obj)
       /\ Z.of_nat (List.length obj) <= 2.
Proof.
  split; [reflexivity|]. split; [reflexivity|]. split; [reflexivity|].
  exact (readAny_object_keys decodeAscii inherited_refused
           (decoder_of [x76; x02; x01; x61; x7f; x01; x61; x78])
           2 _ _ _ eq_refl eq_refl eq_refl).
Defined.
